(** * basic_archive and pg_popcount_avx512: a shallow embedding

    The first part embeds [contrib/basic_archive/basic_archive.c]: the
    archive callback [_PG_archive], its helper [copy_file] and the GUC check
    hook [check_archive_directory].  The operating system is a flat name
    space of regular files and directories, a table of open descriptors, the
    C [errno] cell, a script of environment decisions (fault injection and
    short transfers), the list of system calls issued so far and the list of
    messages reported with [ereport].  The components of a path are not
    resolved: what the operating system answers because of them ([ENOTDIR]
    for a name beneath a regular file) is a decision of the script, as
    every other failure of the environment.

    The second part embeds [src/port/pg_popcount_avx512.c] over 64-bit lanes
    written as [Z] with their wrap-around spelled out. *)

From Stdlib Require Import ZArith Lia.
From Stdlib Require Import Strings.Byte.
From stdpp Require Import base tactics option list strings gmap.

Local Open Scope Z_scope.

(** ** The operating-system model *)

Module OS.

(** Values of [errno] the code can observe.  [E0] is the value 0 that
    [copy_file] stores before each [write]. *)
Inductive errno : Type :=
| E0 | ENOENT | EEXIST | EBADF | EISDIR
| EACCES | EIO | ENOSPC | ENOTDIR | EMFILE | EINTR.

#[global] Instance errno_eq_dec : EqDecision errno.
Proof. solve_decision. Defined.

(** Failures the environment may inject into any call.  Whether a name
    exists is decided by the file-system state, so [ENOENT] and [EEXIST] are
    never injected. *)
Inductive fault : Type :=
| F_EACCES | F_EIO | F_ENOSPC | F_ENOTDIR | F_EMFILE | F_EINTR.

Definition errno_of_fault (f : fault) : errno :=
  match f with
  | F_EACCES => EACCES | F_EIO => EIO | F_ENOSPC => ENOSPC
  | F_ENOTDIR => ENOTDIR | F_EMFILE => EMFILE | F_EINTR => EINTR
  end.

(** One environment decision is consumed by every call that reaches the
    operating system.  [Partial n f] makes a [read] or [write] transfer at
    most [n] bytes, a [write] also storing [f] in [errno] when given; other
    calls treat it as [Proceed]. *)
Inductive decision : Type :=
| Proceed
| Fail (f : fault)
| Partial (n : nat) (f : option fault).

Inductive node : Type :=
| RegularFile (data : list byte)
| Directory.

(** [st_mode] as far as [S_ISDIR] looks at it. *)
Inductive st_mode : Type := S_IFREG | S_IFDIR.

Definition mode_of (n : node) : st_mode :=
  match n with RegularFile _ => S_IFREG | Directory => S_IFDIR end.

Definition S_ISDIR (m : st_mode) : bool :=
  match m with S_IFDIR => true | S_IFREG => false end.

(** The flags [copy_file] passes to [OpenTransientFile]; [PG_BINARY] is 0 on
    POSIX systems. *)
Record oflags : Type := { o_rdwr : bool; o_creat : bool; o_excl : bool }.

Definition O_RDONLY : oflags :=
  {| o_rdwr := false; o_creat := false; o_excl := false |}.
Definition O_RDWR_CREAT_EXCL : oflags :=
  {| o_rdwr := true; o_creat := true; o_excl := true |}.

Record open_file : Type :=
  { of_path : string; of_pos : nat; of_writable : bool }.

(** System calls, and a trace entry for each call issued: the call, its
    return value and the value of [errno] when it returned. *)
Inductive syscall : Type :=
| Stat (p : string)
| Unlink (p : string)
| Open (p : string) (fl : oflags)
| Read (fd : Z) (count : Z)
| Write (fd : Z) (count : Z)
| Close (fd : Z)
| FlushData (p : string)
| FlushMeta (p : string)
| Rename (old new : string)
| FlushDir (p : string).

Record event : Type :=
  { ev_call : syscall; ev_ret : Z; ev_errno : errno }.

Inductive elevel : Type := WARNING | GUC_DETAIL.

(** The message texts of the two source files, one constructor per
    [errmsg] format string. *)
Inductive errmsg : Type :=
| msg_not_specified
| msg_path_too_long
| msg_already_exists (f : string)
| msg_could_not_stat (f : string)
| msg_could_not_unlink (f : string)
| msg_could_not_open (f : string)
| msg_could_not_read (f : string)
| msg_could_not_write (f : string)
| msg_could_not_close (f : string)
| msg_could_not_fsync (f : string)
| msg_could_not_rename (old new : string)
| msg_directory_does_not_exist.

(** A report carries [Some errno] when it was built with
    [errcode_for_file_access()] and [%m]. *)
Record report : Type :=
  { rep_level : elevel; rep_msg : errmsg; rep_errno : option errno }.

Record world : Type :=
  { fs : gmap string node;
    fds : gmap nat open_file;
    errno_cell : errno;
    script : list decision;
    trace : list event;
    log : list report;
    archive_directory : option string }.

Definition with_fs (f : gmap string node) (w : world) : world :=
  {| fs := f; fds := fds w; errno_cell := errno_cell w; script := script w;
     trace := trace w; log := log w;
     archive_directory := archive_directory w |}.

Definition with_fds (d : gmap nat open_file) (w : world) : world :=
  {| fs := fs w; fds := d; errno_cell := errno_cell w; script := script w;
     trace := trace w; log := log w;
     archive_directory := archive_directory w |}.

Definition with_errno (e : errno) (w : world) : world :=
  {| fs := fs w; fds := fds w; errno_cell := e; script := script w;
     trace := trace w; log := log w;
     archive_directory := archive_directory w |}.

Definition with_script (s : list decision) (w : world) : world :=
  {| fs := fs w; fds := fds w; errno_cell := errno_cell w; script := s;
     trace := trace w; log := log w;
     archive_directory := archive_directory w |}.

Definition with_trace (t : list event) (w : world) : world :=
  {| fs := fs w; fds := fds w; errno_cell := errno_cell w; script := script w;
     trace := t; log := log w;
     archive_directory := archive_directory w |}.

Definition with_log (l : list report) (w : world) : world :=
  {| fs := fs w; fds := fds w; errno_cell := errno_cell w; script := script w;
     trace := trace w; log := l;
     archive_directory := archive_directory w |}.

(** *** The state monad the C code runs in *)

Definition M (A : Type) : Type := world → A * world.

Definition ret {A} (a : A) : M A := λ w, (a, w).

Definition bind {A B} (m : M A) (k : A → M B) : M B :=
  λ w, let (a, w') := m w in k a w'.

Definition get {A} (f : world → A) : M A := λ w, (f w, w).

Definition modify (f : world → world) : M unit := λ w, (tt, f w).

End OS.

Import OS.

Declare Scope os_scope.
Delimit Scope os_scope with os.
Notation "x <~ m ;; k" := (bind m (λ x, k))
  (at level 100, m at next level, right associativity) : os_scope.
Notation "m ;;; k" := (bind m (λ _, k))
  (at level 100, right associativity) : os_scope.
Local Open Scope os_scope.

Module Sys.

Definition decide_next : M decision :=
  λ w, match script w with
       | [] => (Proceed, w)
       | d :: ds => (d, with_script ds w)
       end.

Definition emit (c : syscall) (r : Z) : M unit :=
  modify (λ w, with_trace
     (trace w ++ [{| ev_call := c; ev_ret := r; ev_errno := errno_cell w |}])
     w).

Definition set_errno (e : errno) : M unit := modify (with_errno e).

(** A failing call: -1 with [errno] set. *)
Definition fails {A} (e : errno) (c : syscall) (a : A) : M (Z * A) :=
  set_errno e ;;; emit c (-1) ;;; ret (-1, a).

(** [stat(2)]: 0 and the mode of the node, or -1. *)
Definition stat (p : string) : M (Z * option st_mode) :=
  d <~ decide_next ;;
  match d with
  | Fail f => fails (errno_of_fault f) (Stat p) None
  | _ =>
    n <~ get (λ w, fs w !! p) ;;
    match n with
    | Some n => emit (Stat p) 0 ;;; ret (0, Some (mode_of n))
    | None => fails ENOENT (Stat p) None
    end
  end.

(** [unlink(2)]. *)
Definition unlink (p : string) : M Z :=
  d <~ decide_next ;;
  r <~ match d with
       | Fail f => fails (errno_of_fault f) (Unlink p) tt
       | _ =>
         n <~ get (λ w, fs w !! p) ;;
         match n with
         | Some (RegularFile _) =>
           modify (λ w, with_fs (delete p (fs w)) w) ;;;
           emit (Unlink p) 0 ;;; ret (0, tt)
         | Some Directory => fails EISDIR (Unlink p) tt
         | None => fails ENOENT (Unlink p) tt
         end
       end ;;
  ret r.1.

(** The lowest-level part of [OpenTransientFile]: a descriptor that is not
    in use is entered in the table. *)
Definition allocate (p : string) (fl : oflags) : M Z :=
  fd <~ get (λ w, fresh (dom (fds w))) ;;
  modify (λ w, with_fds
     (<[fd := {| of_path := p; of_pos := 0; of_writable := o_rdwr fl |}]>
        (fds w)) w) ;;;
  emit (Open p fl) (Z.of_nat fd) ;;;
  ret (Z.of_nat fd).

Definition OpenTransientFile (p : string) (fl : oflags) : M Z :=
  d <~ decide_next ;;
  match d with
  | Fail f => r <~ fails (errno_of_fault f) (Open p fl) tt ;; ret r.1
  | _ =>
    n <~ get (λ w, fs w !! p) ;;
    match n with
    | Some n =>
      if o_creat fl && o_excl fl
      then r <~ fails EEXIST (Open p fl) tt ;; ret r.1
      else match n with
           | Directory =>
             if o_rdwr fl
             then r <~ fails EISDIR (Open p fl) tt ;; ret r.1
             else allocate p fl
           | RegularFile _ => allocate p fl
           end
    | None =>
      if o_creat fl
      then modify (λ w, with_fs (<[p := RegularFile []]> (fs w)) w) ;;;
           allocate p fl
      else r <~ fails ENOENT (Open p fl) tt ;; ret r.1
    end
  end.

(** How many bytes a transfer of [want] bytes moves under a decision; a
    short transfer moves at least one byte. *)
Definition granted (d : decision) (want : nat) : nat :=
  match d with
  | Partial n _ => Nat.min want (Nat.max 1 n)
  | _ => want
  end.

Definition descriptor (fd : Z) : M (option open_file) :=
  get (λ w, if decide (0 ≤ fd) then fds w !! Z.to_nat fd else None).

Definition seek (fd : Z) (o : open_file) (pos : nat) : M unit :=
  modify (λ w, with_fds
     (<[Z.to_nat fd := {| of_path := of_path o; of_pos := pos;
                          of_writable := of_writable o |}]> (fds w)) w).

(** [read(2)] on a descriptor: the bytes placed in the buffer and their
    number, 0 at end of file. *)
Definition read (fd : Z) (count : Z) : M (Z * list byte) :=
  d <~ decide_next ;;
  match d with
  | Fail f => fails (errno_of_fault f) (Read fd count) []
  | _ =>
    o <~ descriptor fd ;;
    match o with
    | None => fails EBADF (Read fd count) []
    | Some o =>
      n <~ get (λ w, fs w !! of_path o) ;;
      match n with
      | Some (RegularFile data) =>
        let rest := drop (of_pos o) data in
        let chunk := take (granted d (Z.to_nat count)) rest in
        seek fd o (of_pos o + length chunk) ;;;
        emit (Read fd count) (Z.of_nat (length chunk)) ;;;
        ret (Z.of_nat (length chunk), chunk)
      | Some Directory => fails EISDIR (Read fd count) []
      | None => fails EIO (Read fd count) []
      end
    end
  end.

(** The contents of a file after [chunk] was stored at offset [pos]. *)
Definition store (pos : nat) (chunk data : list byte) : list byte :=
  take pos data ++ chunk ++ drop (pos + length chunk) data.

(** [write(2)] of the bytes [buf]: the number of bytes transferred or -1.
    A short transfer leaves [errno] alone unless the decision names one. *)
Definition write (fd : Z) (buf : list byte) : M Z :=
  let count := Z.of_nat (length buf) in
  d <~ decide_next ;;
  match d with
  | Fail f => r <~ fails (errno_of_fault f) (Write fd count) tt ;; ret r.1
  | _ =>
    o <~ descriptor fd ;;
    match o with
    | None => r <~ fails EBADF (Write fd count) tt ;; ret r.1
    | Some o =>
      n <~ get (λ w, fs w !! of_path o) ;;
      match n, of_writable o with
      | Some (RegularFile data), true =>
        let chunk := take (granted d (length buf)) buf in
        modify (λ w, with_fs
           (<[of_path o := RegularFile (store (of_pos o) chunk data)]>
              (fs w)) w) ;;;
        seek fd o (of_pos o + length chunk) ;;;
        match d with
        | Partial _ (Some f) => set_errno (errno_of_fault f)
        | _ => ret tt
        end ;;;
        emit (Write fd count) (Z.of_nat (length chunk)) ;;;
        ret (Z.of_nat (length chunk))
      | _, _ => r <~ fails EBADF (Write fd count) tt ;; ret r.1
      end
    end
  end.

(** [CloseTransientFile]: the descriptor is released whatever [close(2)]
    returns. *)
Definition CloseTransientFile (fd : Z) : M Z :=
  d <~ decide_next ;;
  o <~ descriptor fd ;;
  match o with
  | None => r <~ fails EBADF (Close fd) tt ;; ret r.1
  | Some _ =>
    modify (λ w, with_fds (delete (Z.to_nat fd) (fds w)) w) ;;;
    match d with
    | Fail f => r <~ fails (errno_of_fault f) (Close fd) tt ;; ret r.1
    | _ => emit (Close fd) 0 ;;; ret 0
    end
  end.

(** [ereport(level, (errmsg(...)))] and
    [ereport(level, (errcode_for_file_access(), errmsg("... %m")))]. *)
Definition ereport (l : elevel) (m : errmsg) : M unit :=
  modify (λ w, with_log
     (log w ++ [{| rep_level := l; rep_msg := m; rep_errno := None |}]) w).

Definition ereport_file_access (l : elevel) (m : errmsg) : M unit :=
  modify (λ w, with_log
     (log w ++ [{| rep_level := l; rep_msg := m;
                   rep_errno := Some (errno_cell w) |}]) w).

(** The decision the next call will consume. *)
Definition next_decision (w : world) : decision :=
  default Proceed (head (script w)).

(** The world after a call [c] that returned [r] with [errno] equal to [e]
    and changed neither files nor descriptors. *)
Definition touched (e : errno) (c : syscall) (r : Z) (w : world) : world :=
  with_trace
    (trace w ++ [{| ev_call := c; ev_ret := r; ev_errno := e |}])
    (with_errno e (with_script (tail (script w)) w)).

Definition moved (o : open_file) (n : nat) : open_file :=
  {| of_path := of_path o; of_pos := of_pos o + n;
     of_writable := of_writable o |}.

End Sys.

(** ** contrib/basic_archive/basic_archive.c *)

Module BasicArchive.

Import Sys.

(** Modelled from the spec: [durable_rename] of storage/fd.c, which is not
    among the sources.  The spec's chain is: flush the temporary file's
    data, flush its metadata, atomically rename it to the final path, flush
    the containing directory's metadata; the call reports success (0) only
    after all of that succeeded, and reports each failure at [level]. *)
Definition flush (c : string → syscall) (p : string) : M Z :=
  d <~ decide_next ;;
  r <~ match d with
       | Fail f => fails (errno_of_fault f) (c p) tt
       | _ =>
         n <~ get (λ w, fs w !! p) ;;
         match n with
         | Some _ => emit (c p) 0 ;;; ret (0, tt)
         | None => fails ENOENT (c p) tt
         end
       end ;;
  ret r.1.

Definition rename (old new : string) : M Z :=
  d <~ decide_next ;;
  r <~ match d with
       | Fail f => fails (errno_of_fault f) (Rename old new) tt
       | _ =>
         n <~ get (λ w, fs w !! old) ;;
         match n with
         | Some n =>
           modify (λ w, with_fs (<[new := n]> (delete old (fs w))) w) ;;;
           emit (Rename old new) 0 ;;; ret (0, tt)
         | None => fails ENOENT (Rename old new) tt
         end
       end ;;
  ret r.1.

Definition durable_rename (oldfile newfile : string) (level : elevel) : M Z :=
  r <~ flush FlushData oldfile ;;
  if decide (r ≠ 0)
  then ereport_file_access level (msg_could_not_fsync oldfile) ;;; ret (-1)
  else
  r <~ flush FlushMeta oldfile ;;
  if decide (r ≠ 0)
  then ereport_file_access level (msg_could_not_fsync oldfile) ;;; ret (-1)
  else
  r <~ rename oldfile newfile ;;
  if decide (r < 0)
  then ereport_file_access level (msg_could_not_rename oldfile newfile) ;;;
       ret (-1)
  else
  r <~ flush FlushDir newfile ;;
  if decide (r ≠ 0)
  then ereport_file_access level (msg_could_not_fsync newfile) ;;; ret (-1)
  else ret 0.

(** [#define TEMP_FILE_NAME ("archtemp")] *)
Definition TEMP_FILE_NAME : string := "archtemp".

(** [#define COPY_BUF_SIZE (64 * 1024)] *)
Definition COPY_BUF_SIZE : Z := 64 * 1024.

(** [str[0] == '\0'] *)
Definition first_is_nul (s : string) : bool :=
  match s with EmptyString => true | String _ _ => false end.

(** [snprintf(buf, size, "%s/%s", a, b)]: at most [size - 1] characters are
    stored. *)
Definition snprintf_path (size : nat) (a b : string) : string :=
  String.substring 0 (size - 1) (a +:+ "/" +:+ b).

(** [check_archive_directory]: [*newval] may be NULL. *)
Definition check_archive_directory (newval : option string) : M bool :=
  match newval with
  | None => ret true
  | Some v =>
    if first_is_nul v then ret true
    else
      st <~ stat v ;;
      if match st with
         | (r, Some m) => bool_decide (r ≠ 0) || negb (S_ISDIR m)
         | (_, None) => true
         end
      then ereport GUC_DETAIL msg_directory_does_not_exist ;;; ret false
      else ret true
  end.

(** The [for (;;)] loop of [copy_file].  [buf] is the list of bytes the
    last [read] left in the buffer.  The loop runs on fuel; [None] is the
    loop that ran out of it, which [copy_file_terminates] excludes for the
    fuel [copy_file] supplies. *)
Fixpoint copy_loop (fuel : nat) (src dst : string) (srcfd dstfd : Z)
  : M (option bool) :=
  match fuel with
  | O => ret None
  | S fuel =>
    rd <~ read srcfd COPY_BUF_SIZE ;;
    let (nbytes, buf) := rd in
    if decide (nbytes < 0)
    then ereport_file_access WARNING (msg_could_not_read src) ;;;
         ret (Some false)
    else if decide (nbytes = 0)
    then ret (Some true)
    else
      set_errno E0 ;;;
      n <~ write dstfd (take (Z.to_nat nbytes) buf) ;;
      if decide (n ≠ nbytes)
      then
        e <~ get errno_cell ;;
        (if decide (e = E0) then set_errno ENOSPC else ret tt) ;;;
        ereport_file_access WARNING (msg_could_not_write dst) ;;;
        ret (Some false)
      else copy_loop fuel src dst srcfd dstfd
  end.

Definition file_size (w : world) (p : string) : nat :=
  match fs w !! p with
  | Some (RegularFile data) => length data
  | _ => O
  end.

Definition copy_file (src dst : string) : M (option bool) :=
  srcfd <~ OpenTransientFile src O_RDONLY ;;
  if decide (srcfd < 0)
  then ereport_file_access WARNING (msg_could_not_open src) ;;;
       ret (Some false)
  else
  dstfd <~ OpenTransientFile dst O_RDWR_CREAT_EXCL ;;
  if decide (dstfd < 0)
  then ereport_file_access WARNING (msg_could_not_open dst) ;;;
       ret (Some false)
  else
  fuel <~ get (λ w, S (file_size w src)) ;;
  l <~ copy_loop fuel src dst srcfd dstfd ;;
  match l with
  | Some true =>
    c <~ CloseTransientFile dstfd ;;
    if decide (c ≠ 0)
    then ereport_file_access WARNING (msg_could_not_close dst) ;;;
         ret (Some false)
    else
    c <~ CloseTransientFile srcfd ;;
    if decide (c ≠ 0)
    then ereport_file_access WARNING (msg_could_not_close src) ;;;
         ret (Some false)
    else ret (Some true)
  | early => ret early
  end.

Section WithPlatform.

(** [MAXPGPATH] of pg_config_manual.h, which is not among the sources. *)
Variable MAXPGPATH : nat.

Definition destination_of (path file : string) : string :=
  snprintf_path MAXPGPATH path file.

Definition temp_of (path : string) : string :=
  snprintf_path MAXPGPATH path TEMP_FILE_NAME.

(** [strlen(path) + Max(strlen(file), strlen(TEMP_FILE_NAME)) + 2 >= MAXPGPATH] *)
Definition path_too_long (path file : string) : bool :=
  bool_decide
    (MAXPGPATH ≤ String.length path
                 + Nat.max (String.length file) (String.length TEMP_FILE_NAME)
                 + 2)%nat.

Definition _PG_archive (path file : string) : M (option bool) :=
  dir <~ get archive_directory ;;
  if match dir with None => true | Some d => first_is_nul d end
  then ereport WARNING msg_not_specified ;;; ret (Some false)
  else
  if path_too_long path file
  then ereport WARNING msg_path_too_long ;;; ret (Some false)
  else
  let destination := destination_of path file in
  let temp := temp_of path in
  st <~ stat destination ;;
  if decide (st.1 = 0)
  then ereport WARNING (msg_already_exists destination) ;;; ret (Some false)
  else
  e <~ get errno_cell ;;
  if decide (e ≠ ENOENT)
  then ereport_file_access WARNING (msg_could_not_stat destination) ;;;
       ret (Some false)
  else
  u <~ unlink temp ;;
  e <~ get errno_cell ;;
  if decide (u ≠ 0 ∧ e ≠ ENOENT)
  then ereport_file_access WARNING (msg_could_not_unlink temp) ;;;
       ret (Some false)
  else
  c <~ copy_file path temp ;;
  match c with
  | Some true =>
    r <~ durable_rename temp destination WARNING ;;
    ret (Some (bool_decide (r = 0)))
  | early => ret early
  end.

End WithPlatform.

End BasicArchive.

Import BasicArchive.

(** ** src/port/pg_popcount_avx512.c *)

Module Popcount.

(** [uint64] arithmetic wraps modulo 2^64. *)
Definition uint64 (x : Z) : Z := x mod 2 ^ 64.

(** The usual arithmetic conversions of [bytes >= sizeof(__m512i)] and
    [bytes -= sizeof(__m512i)]: [int] to [size_t] and back. *)
Definition size_t_of_int (x : Z) : Z := x mod 2 ^ 64.

Definition int_of_size_t (x : Z) : Z := (x + 2 ^ 31) mod 2 ^ 32 - 2 ^ 31.

Definition INT_MAX : Z := 2 ^ 31 - 1.

(** [sizeof(__m512i)] *)
Definition sizeof_m512i : Z := 64.

(** A [__m512i] as its eight 64-bit lanes, lane 0 first. *)
Definition m512i : Type := list Z.

Definition byte_val (b : byte) : Z := Z.of_N (Byte.to_N b).

(** Eight bytes in memory order as a little-endian 64-bit integer. *)
Definition le_combine (bs : list byte) : Z :=
  foldr (λ b acc, Z.lor (byte_val b) (Z.shiftl acc 8)) 0 bs.

(** The number of 1-bits among the low [n] bits of [x]. *)
Fixpoint popcount_bits (n : nat) (x : Z) : Z :=
  match n with
  | O => 0
  | S n => Z.b2z (Z.testbit x 0) + popcount_bits n (Z.shiftr x 1)
  end.

Definition _mm512_setzero_si512 : m512i := replicate 8 0.

Definition _mm512_loadu_si512 (buf : list byte) : m512i :=
  (λ i, le_combine (take 8 (drop (8 * i) buf))) <$> seq 0 8.

Definition _mm512_popcnt_epi64 (v : m512i) : m512i :=
  popcount_bits 64 <$> v.

Definition _mm512_add_epi64 (a b : m512i) : m512i :=
  zip_with (λ x y, uint64 (x + y)) a b.

Definition _mm512_reduce_add_epi64 (v : m512i) : Z :=
  foldr (λ x acc, uint64 (x + acc)) 0 v.

(** The [for] loop of [pg_popcount_avx512] on fuel: the lanes accumulated,
    the advanced [buf] and the remaining [bytes] when the loop is left, or
    [None] when the fuel ran out first. *)
Fixpoint avx512_loop (fuel : nat) (accum : m512i) (buf : list byte)
    (bytes : Z) : option (m512i * list byte * Z) :=
  if decide (sizeof_m512i ≤ size_t_of_int bytes)
  then match fuel with
       | O => None
       | S fuel =>
         let val := _mm512_loadu_si512 buf in
         let cnt := _mm512_popcnt_epi64 val in
         avx512_loop fuel (_mm512_add_epi64 accum cnt)
           (drop (Z.to_nat sizeof_m512i) buf)
           (int_of_size_t (size_t_of_int bytes - sizeof_m512i))
       end
  else Some (accum, buf, bytes).

(** The number of 1-bits of a buffer, bit by bit: the scalar reference the
    vectorised routine is compared with. *)
Definition bits_of (b : byte) : list bool :=
  let '(b0, (b1, (b2, (b3, (b4, (b5, (b6, b7))))))) := Byte.to_bits b in
  [b0; b1; b2; b3; b4; b5; b6; b7].

Definition count_ones (b : byte) : nat :=
  length (filter (λ x, x = true) (bits_of b)).

Definition popcount_reference (buf : list byte) : nat :=
  sum_list (count_ones <$> buf).

(** Counting bit by bit, in the shape of [pg_popcount_fast]. *)
Definition scalar_count (buf : list byte) (n : Z) : Z :=
  Z.of_nat (popcount_reference (take (Z.to_nat n) buf)).

(** A buffer of 143 bytes: two full vectors and a remainder. *)
Definition sample : list byte :=
  concat (replicate 13 [x68; x65; x6c; x6c; x6f; x20; x77; x6f; x72; x6c; x64]).

(** The lanes of a vector added up without wrap-around. *)
Definition lane_sum (v : m512i) : Z := foldr Z.add 0 v.

Section WithFallback.

(** [pg_popcount_fast] of pg_bitutils.c, which is not among the sources. *)
Variable pg_popcount_fast : list byte → Z → Z.

Definition pg_popcount_avx512 (buf : list byte) (bytes : Z) : option Z :=
  let accum := _mm512_setzero_si512 in
  match avx512_loop (Z.to_nat bytes) accum buf bytes with
  | None => None
  | Some (accum, buf, bytes) =>
    let popcnt := _mm512_reduce_add_epi64 accum in
    Some (uint64 (popcnt + pg_popcount_fast buf bytes))
  end.

End WithFallback.

End Popcount.

Import BasicArchive.

(** ** What an execution leaves behind

    The relations below describe, case by case, the system calls issued,
    the messages reported and the files and descriptors left by
    [copy_file], [durable_rename] and [_PG_archive].  The lemmas
    [copy_file_spec], [durable_rename_spec] and [archive_spec] show that
    every execution falls under one of the cases. *)

Module Outcomes.

Import Sys.

Definition ev (c : syscall) (r : Z) (e : errno) : event :=
  {| ev_call := c; ev_ret := r; ev_errno := e |}.

Definition warning (m : errmsg) : report :=
  {| rep_level := WARNING; rep_msg := m; rep_errno := None |}.

Definition warning_m (m : errmsg) (e : errno) : report :=
  {| rep_level := WARNING; rep_msg := m; rep_errno := Some e |}.

(** The descriptor entries [copy_file] creates. *)
Definition reader (p : string) (pos : nat) : open_file :=
  {| of_path := p; of_pos := pos; of_writable := false |}.

Definition writer (p : string) (pos : nat) : open_file :=
  {| of_path := p; of_pos := pos; of_writable := true |}.

(** An iteration's [read] that returned data, or its [write] that
    transferred all of it. *)
Definition full_transfer (srcfd dstfd : Z) (e : event) : Prop :=
  match ev_call e with
  | Read fd c => fd = srcfd ∧ c = COPY_BUF_SIZE ∧ 0 < ev_ret e
  | Write fd c => fd = dstfd ∧ ev_ret e = c
  | _ => False
  end.

(** What [copy_loop] requires of the world between two iterations. *)
Record copying (src dst : string) (srcfd dstfd : Z) (data : list byte)
    (k : nat) (w : world) : Prop :=
  { cp_srcfd : 0 ≤ srcfd;
    cp_dstfd : 0 ≤ dstfd;
    cp_fds : Z.to_nat srcfd ≠ Z.to_nat dstfd;
    cp_names : src ≠ dst;
    cp_src_open : fds w !! Z.to_nat srcfd = Some (reader src k);
    cp_dst_open : fds w !! Z.to_nat dstfd = Some (writer dst k);
    cp_src_data : fs w !! src = Some (RegularFile data);
    cp_dst_data : fs w !! dst = Some (RegularFile (take k data)) }.

(** The errno [copy_file] reports for a [write] that left [e]. *)
Definition write_errno (e : errno) : errno :=
  if decide (e = E0) then ENOSPC else e.

(** How the loop is left: by [break], by a failed [read] or by a [write]
    that did not transfer [count] bytes. *)
Inductive loop_exit (src dst : string) (srcfd dstfd : Z)
  : bool → event → list report → Prop :=
| exit_eof e :
    loop_exit src dst srcfd dstfd true
      (ev (Read srcfd COPY_BUF_SIZE) 0 e) []
| exit_read_failed e :
    loop_exit src dst srcfd dstfd false
      (ev (Read srcfd COPY_BUF_SIZE) (-1) e)
      [warning_m (msg_could_not_read src) e]
| exit_write_failed count r e :
    r ≠ count →
    loop_exit src dst srcfd dstfd false
      (ev (Write dstfd count) r e)
      [warning_m (msg_could_not_write dst) (write_errno e)].

Definition open_src (src : string) (r : Z) (e : errno) : event :=
  ev (Open src O_RDONLY) r e.

Definition open_dst (dst : string) (r : Z) (e : errno) : event :=
  ev (Open dst O_RDWR_CREAT_EXCL) r e.

(** The executions of [copy_file src dst] from [w] to [w']: result, calls
    issued and messages reported. *)
Inductive copy_outcome (src dst : string) (w w' : world)
  : bool → list event → list report → Prop :=
| copy_open_src_failed e :
    fs w' = fs w → fds w' = fds w →
    copy_outcome src dst w w' false
      [open_src src (-1) e] [warning_m (msg_could_not_open src) e]
| copy_open_dst_failed (srcfd : nat) e0 e :
    fs w' = fs w →
    fds w !! srcfd = None →
    fds w' = <[srcfd := reader src 0]> (fds w) →
    copy_outcome src dst w w' false
      [open_src src (Z.of_nat srcfd) e0; open_dst dst (-1) e]
      [warning_m (msg_could_not_open dst) e]
| copy_loop_failed (srcfd dstfd : nat) e0 e1 good last reps content :
    is_Some (fs w !! src) →
    fs w !! dst = None →
    fs w' = <[dst := RegularFile content]> (fs w) →
    fds w !! srcfd = None → fds w !! dstfd = None →
    is_Some (fds w' !! srcfd) → is_Some (fds w' !! dstfd) →
    Forall (full_transfer (Z.of_nat srcfd) (Z.of_nat dstfd)) good →
    loop_exit src dst (Z.of_nat srcfd) (Z.of_nat dstfd) false last reps →
    copy_outcome src dst w w' false
      ([open_src src (Z.of_nat srcfd) e0; open_dst dst (Z.of_nat dstfd) e1]
         ++ good ++ [last])
      reps
| copy_close_dst_failed (srcfd dstfd : nat) e0 e1 good e2 e data :
    fs w !! src = Some (RegularFile data) →
    fs w !! dst = None →
    fs w' = <[dst := RegularFile data]> (fs w) →
    fds w !! srcfd = None → fds w !! dstfd = None →
    is_Some (fds w' !! srcfd) → fds w' !! dstfd = None →
    Forall (full_transfer (Z.of_nat srcfd) (Z.of_nat dstfd)) good →
    copy_outcome src dst w w' false
      ([open_src src (Z.of_nat srcfd) e0; open_dst dst (Z.of_nat dstfd) e1]
         ++ good
         ++ [ev (Read (Z.of_nat srcfd) COPY_BUF_SIZE) 0 e2;
             ev (Close (Z.of_nat dstfd)) (-1) e])
      [warning_m (msg_could_not_close dst) e]
| copy_close_src_failed (srcfd dstfd : nat) e0 e1 good e2 e3 e data :
    fs w !! src = Some (RegularFile data) →
    fs w !! dst = None →
    fs w' = <[dst := RegularFile data]> (fs w) →
    fds w !! srcfd = None → fds w !! dstfd = None →
    fds w' = fds w →
    Forall (full_transfer (Z.of_nat srcfd) (Z.of_nat dstfd)) good →
    copy_outcome src dst w w' false
      ([open_src src (Z.of_nat srcfd) e0; open_dst dst (Z.of_nat dstfd) e1]
         ++ good
         ++ [ev (Read (Z.of_nat srcfd) COPY_BUF_SIZE) 0 e2;
             ev (Close (Z.of_nat dstfd)) 0 e3;
             ev (Close (Z.of_nat srcfd)) (-1) e])
      [warning_m (msg_could_not_close src) e]
| copy_done (srcfd dstfd : nat) e0 e1 good e2 e3 e4 data :
    fs w !! src = Some (RegularFile data) →
    fs w !! dst = None →
    fs w' = <[dst := RegularFile data]> (fs w) →
    fds w !! srcfd = None → fds w !! dstfd = None →
    fds w' = fds w →
    Forall (full_transfer (Z.of_nat srcfd) (Z.of_nat dstfd)) good →
    copy_outcome src dst w w' true
      ([open_src src (Z.of_nat srcfd) e0; open_dst dst (Z.of_nat dstfd) e1]
         ++ good
         ++ [ev (Read (Z.of_nat srcfd) COPY_BUF_SIZE) 0 e2;
             ev (Close (Z.of_nat dstfd)) 0 e3;
             ev (Close (Z.of_nat srcfd)) 0 e4])
      [].

(** A message reported with [errcode_for_file_access()] at [level]. *)
Definition reported (level : elevel) (m : errmsg) (e : errno) : report :=
  {| rep_level := level; rep_msg := m; rep_errno := Some e |}.

(** The executions of [durable_rename old new level] from [w] to [w']. *)
Inductive commit_outcome (level : elevel) (old new : string) (w w' : world)
  : Z → list event → list report → Prop :=
| commit_flush_data_failed e :
    fs w' = fs w →
    commit_outcome level old new w w' (-1)
      [ev (FlushData old) (-1) e]
      [reported level (msg_could_not_fsync old) e]
| commit_flush_meta_failed e0 e :
    fs w' = fs w →
    commit_outcome level old new w w' (-1)
      [ev (FlushData old) 0 e0; ev (FlushMeta old) (-1) e]
      [reported level (msg_could_not_fsync old) e]
| commit_rename_failed e0 e1 e :
    fs w' = fs w →
    commit_outcome level old new w w' (-1)
      [ev (FlushData old) 0 e0; ev (FlushMeta old) 0 e1;
       ev (Rename old new) (-1) e]
      [reported level (msg_could_not_rename old new) e]
| commit_flush_dir_failed e0 e1 e2 e n :
    fs w !! old = Some n →
    fs w' = <[new := n]> (delete old (fs w)) →
    commit_outcome level old new w w' (-1)
      [ev (FlushData old) 0 e0; ev (FlushMeta old) 0 e1;
       ev (Rename old new) 0 e2; ev (FlushDir new) (-1) e]
      [reported level (msg_could_not_fsync new) e]
| commit_done e0 e1 e2 e3 n :
    fs w !! old = Some n →
    fs w' = <[new := n]> (delete old (fs w)) →
    commit_outcome level old new w w' 0
      [ev (FlushData old) 0 e0; ev (FlushMeta old) 0 e1;
       ev (Rename old new) 0 e2; ev (FlushDir new) 0 e3]
      [].

(** [archive_directory] is neither NULL nor the empty string. *)
Definition configured (w : world) : Prop :=
  ∃ d, archive_directory w = Some d ∧ first_is_nul d = false.

Section WithPlatform.

Variable MAXPGPATH : nat.

Local Abbreviation destination_of := (destination_of MAXPGPATH).
Local Abbreviation temp_of := (temp_of MAXPGPATH).

(** The two calls every execution that reaches the copy has issued: the
    [stat] that found no final file and the [unlink] of the temporary
    file, which succeeded or found nothing to remove. *)
Definition cleared (path file : string) (ru : Z) : list event :=
  [ev (Stat (destination_of path file)) (-1) ENOENT;
   ev (Unlink (temp_of path)) ru ENOENT].

(** The executions of [_PG_archive path file] from [w] to [w']. *)
Inductive archive_outcome (path file : string) (w w' : world)
  : bool → list event → list report → Prop :=
| arch_not_configured :
    ¬ configured w →
    fs w' = fs w → fds w' = fds w →
    archive_outcome path file w w' false [] [warning msg_not_specified]
| arch_path_too_long :
    configured w →
    path_too_long MAXPGPATH path file = true →
    fs w' = fs w → fds w' = fds w →
    archive_outcome path file w w' false [] [warning msg_path_too_long]
| arch_already_exists :
    configured w →
    path_too_long MAXPGPATH path file = false →
    is_Some (fs w !! destination_of path file) →
    fs w' = fs w → fds w' = fds w →
    archive_outcome path file w w' false
      [ev (Stat (destination_of path file)) 0 (errno_cell w)]
      [warning (msg_already_exists (destination_of path file))]
| arch_stat_failed f :
    configured w →
    path_too_long MAXPGPATH path file = false →
    next_decision w = Fail f →
    fs w' = fs w → fds w' = fds w →
    archive_outcome path file w w' false
      [ev (Stat (destination_of path file)) (-1) (errno_of_fault f)]
      [warning_m (msg_could_not_stat (destination_of path file))
         (errno_of_fault f)]
| arch_unlink_failed e :
    configured w →
    path_too_long MAXPGPATH path file = false →
    fs w !! destination_of path file = None →
    e ≠ ENOENT →
    fs w' = fs w → fds w' = fds w →
    archive_outcome path file w w' false
      [ev (Stat (destination_of path file)) (-1) ENOENT;
       ev (Unlink (temp_of path)) (-1) e]
      [warning_m (msg_could_not_unlink (temp_of path)) e]
| arch_copy_failed w1 ru evs reps :
    ru = 0 ∨ ru = -1 →
    configured w →
    path_too_long MAXPGPATH path file = false →
    fs w !! destination_of path file = None →
    fs w1 = delete (temp_of path) (fs w) → fds w1 = fds w →
    copy_outcome path (temp_of path) w1 w' false evs reps →
    archive_outcome path file w w' false
      (cleared path file ru ++ evs) reps
| arch_commit_failed w1 w2 ru evs cevs creps :
    ru = 0 ∨ ru = -1 →
    configured w →
    path_too_long MAXPGPATH path file = false →
    fs w !! destination_of path file = None →
    fs w1 = delete (temp_of path) (fs w) → fds w1 = fds w →
    copy_outcome path (temp_of path) w1 w2 true evs [] →
    commit_outcome WARNING (temp_of path) (destination_of path file)
      w2 w' (-1) cevs creps →
    fds w' = fds w2 →
    archive_outcome path file w w' false
      (cleared path file ru ++ evs ++ cevs) creps
| arch_done w1 w2 ru evs cevs :
    ru = 0 ∨ ru = -1 →
    configured w →
    path_too_long MAXPGPATH path file = false →
    fs w !! destination_of path file = None →
    fs w1 = delete (temp_of path) (fs w) → fds w1 = fds w →
    copy_outcome path (temp_of path) w1 w2 true evs [] →
    commit_outcome WARNING (temp_of path) (destination_of path file)
      w2 w' 0 cevs [] →
    fds w' = fds w2 →
    archive_outcome path file w w' true
      (cleared path file ru ++ evs ++ cevs) [].

(** The failure points a test can inject, and the message [_PG_archive]
    reports at each. *)
Inductive failure_point : Type :=
| SourceOpenFails | ReadFails | WriteShort | TempCloseFails | RenameFails.

Definition failure_message (path file : string) (fp : failure_point)
  : errmsg :=
  match fp with
  | SourceOpenFails => msg_could_not_open path
  | ReadFails => msg_could_not_read path
  | WriteShort => msg_could_not_write (temp_of path)
  | TempCloseFails => msg_could_not_close (temp_of path)
  | RenameFails =>
    msg_could_not_rename (temp_of path) (destination_of path file)
  end.

End WithPlatform.

(** The calls of the commit phase. *)
Definition commit_call (c : syscall) : Prop :=
  match c with
  | FlushData _ | FlushMeta _ | Rename _ _ | FlushDir _ => True
  | _ => False
  end.

(** A [write] that transferred fewer bytes than requested, or none. *)
Definition short_write (e : event) : Prop :=
  ∃ fd count, ev_call e = Write fd count ∧ ev_ret e ≠ count.

End Outcomes.

(** ** The scenario of the specification

    The source file holds the bytes of "hello world"; the archive directory
    is /tmp/arch and the file is 000000010000000000000001. *)

Module Scenario.

Import Outcomes.

Definition hello : list byte :=
  [x68; x65; x6c; x6c; x6f; x20; x77; x6f; x72; x6c; x64].

Definition wal : string := "000000010000000000000001".

Definition source : string := "pg_wal/000000010000000000000001".

(** PostgreSQL's value of [MAXPGPATH]. *)
Definition maxpgpath : nat := 1024.

(** The world before the first call; [decisions] scripts the
    environment. *)
Definition before (decisions : list decision) : world :=
  {| fs := {[ source := RegularFile hello;
              "pg_wal" := Directory;
              "/tmp/arch" := Directory ]};
     fds := ∅;
     errno_cell := E0;
     script := decisions;
     trace := [];
     log := [];
     archive_directory := Some "/tmp/arch" |}.

Definition archive (decisions : list decision) : option bool * world :=
  _PG_archive maxpgpath source wal (before decisions).

(** The environment fails the first [read] of the copy with EIO. *)
Definition read_fails : list decision :=
  [Proceed; Proceed; Proceed; Proceed; Fail F_EIO].

(** The environment lets the first [write] of the copy transfer 3 of the 11
    bytes and leaves [errno] alone. *)
Definition write_falls_short : list decision :=
  [Proceed; Proceed; Proceed; Proceed; Proceed; Partial 3 None].

(** A directory name of 998 characters: with the 24 characters of [wal],
    the separator and the terminator it makes exactly [maxpgpath]. *)
Definition long_directory : string :=
  Nat.iter 998 (String.append "d") EmptyString.

End Scenario.

(** ** The masked variant of the vectorised count

    [pg_popcount_masked_avx512] of src/port/pg_popcount_avx512.c. *)

Module PopcountMasked.

Import Popcount.

(** [a & b] on two bytes, bit by bit. *)
Definition byte_and (a b : byte) : byte :=
  let '(a0, (a1, (a2, (a3, (a4, (a5, (a6, a7))))))) := Byte.to_bits a in
  let '(b0, (b1, (b2, (b3, (b4, (b5, (b6, b7))))))) := Byte.to_bits b in
  Byte.of_bits (a0 && b0, (a1 && b1, (a2 && b2, (a3 && b3,
               (a4 && b4, (a5 && b5, (a6 && b6, a7 && b7))))))).

(** [_mm512_set1_epi8]: the byte broadcast to all 64 positions. *)
Definition _mm512_set1_epi8 (a : byte) : m512i :=
  replicate 8 (le_combine (replicate 8 a)).

Definition _mm512_and_si512 (a b : m512i) : m512i := zip_with Z.land a b.

(** The [for] loop of [pg_popcount_masked_avx512] on fuel, as
    [avx512_loop]. *)
Fixpoint avx512_masked_loop (fuel : nat) (accum maskv : m512i)
    (buf : list byte) (bytes : Z) : option (m512i * list byte * Z) :=
  if decide (sizeof_m512i ≤ size_t_of_int bytes)
  then match fuel with
       | O => None
       | S fuel =>
         let val := _mm512_loadu_si512 buf in
         let vmasked := _mm512_and_si512 val maskv in
         let cnt := _mm512_popcnt_epi64 vmasked in
         avx512_masked_loop fuel (_mm512_add_epi64 accum cnt) maskv
           (drop (Z.to_nat sizeof_m512i) buf)
           (int_of_size_t (size_t_of_int bytes - sizeof_m512i))
       end
  else Some (accum, buf, bytes).

(** The mask applied to each byte of a buffer. *)
Definition mask_bytes (mask : byte) (buf : list byte) : list byte :=
  (λ b, byte_and b mask) <$> buf.

(** The number of 1-bits of a buffer after the mask was applied to each
    byte, bit by bit. *)
Definition masked_reference (mask : byte) (buf : list byte) : nat :=
  popcount_reference (mask_bytes mask buf).

(** Counting bit by bit, in the shape of [pg_popcount_masked_fast]. *)
Definition masked_scalar_count (buf : list byte) (n : Z) (mask : byte) : Z :=
  Z.of_nat (masked_reference mask (take (Z.to_nat n) buf)).

(** A test on every pair of bytes. *)
Definition all_pairs (P : byte → byte → bool) : bool :=
  forallb (λ i, forallb (λ j,
    match Byte.of_N (N.of_nat i), Byte.of_N (N.of_nat j) with
    | Some a, Some b => P a b
    | _, _ => true
    end) (seq 0 256)) (seq 0 256).

Section WithFallback.

(** [pg_popcount_masked_fast] of pg_bitutils.c, which is not among the
    sources. *)
Variable pg_popcount_masked_fast : list byte → Z → byte → Z.

Definition pg_popcount_masked_avx512 (buf : list byte) (bytes : Z)
    (mask : byte) : option Z :=
  let accum := _mm512_setzero_si512 in
  let maskv := _mm512_set1_epi8 mask in
  match avx512_masked_loop (Z.to_nat bytes) accum maskv buf bytes with
  | None => None
  | Some (accum, buf, bytes) =>
    let popcnt := _mm512_reduce_add_epi64 accum in
    Some (uint64 (popcnt + pg_popcount_masked_fast buf bytes mask))
  end.

End WithFallback.

End PopcountMasked.

(** ** Assignments to [archive_directory] *)

Module Directory.

(** The world after the GUC machinery assigned [d] to the variable. *)
Definition with_directory (d : option string) (w : world) : world :=
  {| fs := fs w; fds := fds w; errno_cell := errno_cell w; script := script w;
     trace := trace w; log := log w; archive_directory := d |}.

(** A computation that neither reads nor assigns [archive_directory]. *)
Definition oblivious {A} (m : M A) : Prop :=
  ∀ d w, m (with_directory d w) = ((m w).1, with_directory d (m w).2).

End Directory.

(** ** Transfers and the copy buffer *)

Module Transfers.

(** The system calls [copy_file src dst] may issue: the [open] of the
    source for reading, the exclusive create of the destination, a [read]
    that asks for exactly the buffer of [COPY_BUF_SIZE] bytes, a [write] that
    submits at least one byte and at most the buffer, and a [close]. *)
Definition copy_call (src dst : string) (e : event) : Prop :=
  match ev_call e with
  | Open p fl =>
    (p = src ∧ fl = O_RDONLY) ∨ (p = dst ∧ fl = O_RDWR_CREAT_EXCL)
  | Read _ c => c = COPY_BUF_SIZE
  | Write _ c => 0 < c ≤ COPY_BUF_SIZE
  | Close _ => True
  | _ => False
  end.

End Transfers.

(** ** File names

    The name space of the model is flat: a name stands for one file.  That
    is how the operating system treats the names [dir/file] of one directory
    [dir] when [file] is a base name.  What the operating system answers
    because of the other components of a path is an answer of the
    environment, a decision of the script: [ENOTDIR] for a name beneath a
    regular file. *)

Module Names.

(** Whether a name has a directory separator in it. *)
Fixpoint has_slash (s : string) : bool :=
  match s with
  | EmptyString => false
  | String c s => String.eqb (String c EmptyString) "/" || has_slash s
  end.

(** A base name: what an entry of a directory can be called, [.] and [..]
    apart. *)
Definition base_name (file : string) : bool :=
  negb (first_is_nul file) && negb (String.eqb file ".")
  && negb (String.eqb file "..") && negb (has_slash file).




End Names.

(** ** Further worlds and scripts *)

Module Cases.

Import Scenario Names.

(** The directory of the scenario that holds the file to archive. *)
Definition wal_directory : string := "pg_wal".

(** A base name no file of [wal_directory] has. *)
Definition next_segment : string := "000000010000000000000002".

(** [_PG_archive] handed the directory itself as the file to archive; the
    environment decides nothing. *)
Definition archive_of_directory (file : string) : option bool * world :=
  _PG_archive maxpgpath wal_directory file (before []).


(** [copy_file] alone: both files are opened and the first [read] fails
    with EIO. *)
Definition first_read_fails : list decision := [Proceed; Proceed; Fail F_EIO].

(** A name no file has in [before]. *)
Definition copy_target : string := "/tmp/arch/copy".

Definition missing : string := "pg_wal/000000010000000000000002".

(** [copy_file] alone: both files are opened, the first [read] returns all
    11 bytes and the first [write] transfers 3 of them. *)
Definition write_stops_at_three : list decision :=
  [Proceed; Proceed; Proceed; Partial 3 None].

Definition copy (decisions : list decision) : option bool * world :=
  copy_file source copy_target (before decisions).

(** A directory sits where the temporary file goes. *)
Definition blocked : world :=
  with_fs (<[temp_of maxpgpath source := Directory]> (fs (before [])))
    (before []).

(** An archive call whose file name is [TEMP_FILE_NAME] itself. *)
Definition archive_reserved (decisions : list decision)
  : option bool * world :=
  _PG_archive maxpgpath source TEMP_FILE_NAME (before decisions).

End Cases.

(** ** Facts about the operating-system model *)

Module SysFacts.

Import Sys.

Ltac wsimpl :=
  cbn [fs fds errno_cell script trace log archive_directory
       with_fs with_fds with_errno with_script with_trace with_log
       touched fst snd] in *.

Ltac run_prim :=
  unfold bind, decide_next, fails, emit, set_errno, modify, get, ret,
         descriptor, seek, allocate in *;
  cbn [fs fds errno_cell script trace log archive_directory
       with_fs with_fds with_errno with_script with_trace with_log
       fst snd] in *.

Lemma errno_of_fault_not_ENOENT f : errno_of_fault f ≠ ENOENT.
Proof. by destruct f. Qed.

Lemma errno_of_fault_not_E0 f : errno_of_fault f ≠ E0.
Proof. by destruct f. Qed.

Lemma stat_inv p w r m w' :
  stat p w = ((r, m), w') →
  ∃ e, w' = touched e (Stat p) r w ∧
    ((r = 0 ∧ e = errno_cell w ∧ ∃ n, fs w !! p = Some n ∧ m = Some (mode_of n)
      ∧ ∀ f, next_decision w ≠ Fail f)
     ∨ (r = -1 ∧ m = None ∧ e = ENOENT ∧ fs w !! p = None
        ∧ ∀ f, next_decision w ≠ Fail f)
     ∨ (r = -1 ∧ m = None ∧ ∃ f, e = errno_of_fault f ∧ next_decision w = Fail f)).
Proof.
  destruct w as [fs0 fds0 e0 sc tr lg ad]. unfold stat, next_decision.
  run_prim. intros H.
  destruct sc as [|[|f|k f] sc]; cbn in H |- *;
    try (destruct (fs0 !! p) as [n|] eqn:Hp);
    inversion H; subst; clear H; eexists; (split; [reflexivity|]); eauto 10.
Qed.

Lemma unlink_inv p w r w' :
  unlink p w = (r, w') →
  (r = 0 ∧ (∃ d, fs w !! p = Some (RegularFile d))
     ∧ w' = with_fs (delete p (fs w)) (touched (errno_cell w) (Unlink p) 0 w))
  ∨ (r = -1 ∧ ∃ e, w' = touched e (Unlink p) (-1) w ∧
       ((e = ENOENT ∧ fs w !! p = None)
        ∨ (e = EISDIR ∧ fs w !! p = Some Directory)
        ∨ (∃ f, e = errno_of_fault f))).
Proof.
  destruct w as [fs0 fds0 e0 sc tr lg ad]. unfold unlink.
  run_prim. intros H.
  destruct sc as [|[|f|k f] sc]; cbn in H |- *;
    try (destruct (fs0 !! p) as [[d|]|] eqn:Hp);
    inversion H; subst; clear H; eauto 10.
Qed.

Lemma open_rdonly_inv p w r w' :
  OpenTransientFile p O_RDONLY w = (r, w') →
  (∃ (fd : nat) n, r = Z.of_nat fd ∧ fds w !! fd = None ∧ fs w !! p = Some n
     ∧ w' = with_fds
              (<[fd := {| of_path := p; of_pos := 0; of_writable := false |}]>
                 (fds w))
              (touched (errno_cell w) (Open p O_RDONLY) r w))
  ∨ (r = -1 ∧ ∃ e, w' = touched e (Open p O_RDONLY) (-1) w).
Proof.
  destruct w as [fs0 fds0 e0 sc tr lg ad]. unfold OpenTransientFile.
  run_prim. intros H.
  pose proof (is_fresh (dom fds0)) as Hfresh.
  rewrite not_elem_of_dom in Hfresh.
  destruct sc as [|[|f|k f] sc]; cbn in H |- *;
    try (destruct (fs0 !! p) as [[d|]|] eqn:Hp); cbn in H;
    inversion H; subst; clear H; eauto 10.
Qed.

Lemma open_excl_inv p w r w' :
  OpenTransientFile p O_RDWR_CREAT_EXCL w = (r, w') →
  (∃ fd : nat, r = Z.of_nat fd ∧ fds w !! fd = None ∧ fs w !! p = None
     ∧ w' = with_fds
              (<[fd := {| of_path := p; of_pos := 0; of_writable := true |}]>
                 (fds w))
              (with_fs (<[p := RegularFile []]> (fs w))
                 (touched (errno_cell w) (Open p O_RDWR_CREAT_EXCL) r w)))
  ∨ (r = -1 ∧ ∃ e, w' = touched e (Open p O_RDWR_CREAT_EXCL) (-1) w).
Proof.
  destruct w as [fs0 fds0 e0 sc tr lg ad]. unfold OpenTransientFile.
  run_prim. intros H.
  pose proof (is_fresh (dom fds0)) as Hfresh.
  rewrite not_elem_of_dom in Hfresh.
  destruct sc as [|[|f|k f] sc]; cbn in H |- *;
    try (destruct (fs0 !! p) as [[d|]|] eqn:Hp); cbn in H;
    inversion H; subst; clear H; eauto 10.
Qed.

Lemma read_inv fd c w r buf w' o :
  0 ≤ fd → fds w !! Z.to_nat fd = Some o →
  read fd c w = ((r, buf), w') →
  (∃ data, fs w !! of_path o = Some (RegularFile data)
     ∧ buf = take (granted (next_decision w) (Z.to_nat c))
                  (drop (of_pos o) data)
     ∧ r = Z.of_nat (length buf)
     ∧ w' = with_fds (<[Z.to_nat fd := moved o (length buf)]> (fds w))
              (touched (errno_cell w) (Read fd c) r w))
  ∨ (r = -1 ∧ buf = [] ∧ ∃ e, w' = touched e (Read fd c) (-1) w).
Proof.
  destruct w as [fs0 fds0 e0 sc tr lg ad]. unfold read, next_decision.
  run_prim. intros Hfd Ho H.
  destruct sc as [|[|f|k f] sc]; cbn in H |- *;
    try (rewrite decide_True in H by done; rewrite Ho in H; cbn in H;
         destruct (fs0 !! of_path o) as [[d|]|] eqn:Hp);
    cbn in H; inversion H; subst; clear H; eauto 10.
Qed.

Lemma write_inv fd buf w r w' o data :
  0 ≤ fd → fds w !! Z.to_nat fd = Some o → of_writable o = true →
  fs w !! of_path o = Some (RegularFile data) →
  write fd buf w = (r, w') →
  (r = -1 ∧ ∃ f, w' = touched (errno_of_fault f)
                        (Write fd (Z.of_nat (length buf))) (-1) w)
  ∨ (∃ e, let chunk := take (granted (next_decision w) (length buf)) buf in
       r = Z.of_nat (length chunk)
       ∧ (e = errno_cell w ∨ ∃ f, e = errno_of_fault f)
       ∧ w' = with_fs
                (<[of_path o := RegularFile (store (of_pos o) chunk data)]>
                   (fs w))
                (with_fds (<[Z.to_nat fd := moved o (length chunk)]> (fds w))
                   (touched e (Write fd (Z.of_nat (length buf))) r w))).
Proof.
  destruct w as [fs0 fds0 e0 sc tr lg ad]. unfold write, next_decision.
  run_prim. intros Hfd Ho Hw Hp H.
  destruct o as [op ops ow]; cbn in Hw, Hp |- *; subst ow.
  destruct sc as [|[|f|k [f|]] sc]; cbn in H |- *;
    try (rewrite decide_True in H by done; rewrite Ho in H; cbn in H;
         rewrite Hp in H);
    cbn in H; inversion H; subst; clear H; eauto 10.
Qed.

Lemma close_inv fd w r w' o :
  0 ≤ fd → fds w !! Z.to_nat fd = Some o →
  CloseTransientFile fd w = (r, w') →
  ∃ e, w' = with_fds (delete (Z.to_nat fd) (fds w))
              (touched e (Close fd) r w)
       ∧ ((r = 0 ∧ e = errno_cell w) ∨ r = -1).
Proof.
  destruct w as [fs0 fds0 e0 sc tr lg ad]. unfold CloseTransientFile.
  run_prim. intros Hfd Ho H.
  destruct sc as [|[|f|k f] sc]; cbn in H |- *;
    rewrite decide_True in H by done; rewrite Ho in H;
    cbn in H; inversion H; subst; clear H; eauto 10.
Qed.

Lemma flush_inv c p w r w' :
  flush c p w = (r, w') →
  ∃ e, w' = touched e (c p) r w
       ∧ ((r = 0 ∧ e = errno_cell w ∧ is_Some (fs w !! p)) ∨ r = -1).
Proof.
  destruct w as [fs0 fds0 e0 sc tr lg ad]. unfold flush.
  run_prim. intros H.
  destruct sc as [|[|f|k f] sc]; cbn in H |- *;
    try (destruct (fs0 !! p) as [n|] eqn:Hp);
    cbn in H; inversion H; subst; clear H; eauto 10.
Qed.

Lemma rename_inv old new w r w' :
  rename old new w = (r, w') →
  (r = 0 ∧ ∃ n, fs w !! old = Some n
     ∧ w' = with_fs (<[new := n]> (delete old (fs w)))
              (touched (errno_cell w) (Rename old new) 0 w))
  ∨ (r = -1 ∧ ∃ e, w' = touched e (Rename old new) (-1) w).
Proof.
  destruct w as [fs0 fds0 e0 sc tr lg ad]. unfold rename.
  run_prim. intros H.
  destruct sc as [|[|f|k f] sc]; cbn in H |- *;
    try (destruct (fs0 !! old) as [n|] eqn:Hp);
    cbn in H; inversion H; subst; clear H; eauto 10.
Qed.

End SysFacts.

(** ** Facts about basic_archive.c *)

Module ArchiveFacts.

Import Sys Outcomes SysFacts.

Lemma COPY_BUF_SIZE_pos : (1 ≤ Z.to_nat COPY_BUF_SIZE)%nat.
Proof. unfold COPY_BUF_SIZE. lia. Qed.

Lemma granted_pos d n : (1 ≤ n)%nat → (1 ≤ granted d n)%nat.
Proof. destruct d; simpl; lia. Qed.

Lemma take_length_take {A} (l : list A) n :
  take (length (take n l)) l = take n l.
Proof. by rewrite length_take, <- take_take, firstn_all. Qed.

Lemma store_next (data : list byte) k n :
  store k (take n (drop k data)) (take k data)
  = take (k + length (take n (drop k data))) data.
Proof.
  unfold store. rewrite take_take, Nat.min_id.
  rewrite (drop_ge (take k data)).
  2:{ pose proof (length_take_le data k). pose proof (length_take_ge data k). lia. }
  rewrite app_nil_r, <- take_take_drop. by rewrite take_length_take.
Qed.

Lemma take_same_length {A} (l : list A) n :
  length (take n l) = length l → take n l = l.
Proof. rewrite length_take. intros H. apply take_ge. lia. Qed.

Lemma take_nil_inv {A} (l : list A) n : take n l = [] → n = 0%nat ∨ l = [].
Proof. destruct n, l; simpl; intros; try discriminate; auto. Qed.

Ltac map_lookup :=
  wsimpl; unfold moved, reader, writer in *; cbn [of_path of_pos of_writable] in *;
  simplify_map_eq; eauto.

Lemma copy_loop_spec src dst srcfd dstfd data fuel : ∀ k w,
  copying src dst srcfd dstfd data k w →
  (k ≤ length data)%nat → (length data - k < fuel)%nat →
  ∃ b w' good last reps content,
    copy_loop fuel src dst srcfd dstfd w = (Some b, w')
    ∧ trace w' = trace w ++ good ++ [last]
    ∧ log w' = log w ++ reps
    ∧ archive_directory w' = archive_directory w
    ∧ Forall (full_transfer srcfd dstfd) good
    ∧ loop_exit src dst srcfd dstfd b last reps
    ∧ fs w' = <[dst := RegularFile content]> (fs w)
    ∧ (∀ fd, fd ≠ Z.to_nat srcfd → fd ≠ Z.to_nat dstfd →
             fds w' !! fd = fds w !! fd)
    ∧ is_Some (fds w' !! Z.to_nat srcfd)
    ∧ is_Some (fds w' !! Z.to_nat dstfd)
    ∧ (b = true → copying src dst srcfd dstfd data (length data) w').
Proof.
  induction fuel as [|fuel IH]; intros k w Hc Hk Hf; [lia|].
  destruct Hc as [Hs Hd Hne Hnames Hso Hdo Hsd Hdd].
  cbn [copy_loop]. unfold bind at 1.
  destruct (read srcfd COPY_BUF_SIZE w) as [[n buf] w1] eqn:Hr.
  apply (read_inv _ _ _ _ _ _ _ Hs Hso) in Hr
    as [(data0 & Hd0 & Hbuf & Hn & Hw1) | (Hn & Hbuf & e & Hw1)].
  - cbn [of_path of_pos reader] in Hd0, Hbuf.
    rewrite Hsd in Hd0. injection Hd0 as <-.
    destruct (decide (n < 0)) as [|_]; [lia|].
    destruct (decide (n = 0)) as [Hz|Hnz].
    + assert (buf = []) as Hnil by (apply length_zero_iff_nil; lia).
      assert (k = length data) as Hkd.
      { rewrite Hbuf in Hnil. apply take_nil_inv in Hnil as [Hg|Hdrop].
        - pose proof (granted_pos (next_decision w) _ COPY_BUF_SIZE_pos). lia.
        - apply (f_equal length) in Hdrop. rewrite length_drop in Hdrop.
          simpl in Hdrop. lia. }
      exists true, w1, [], (ev (Read srcfd COPY_BUF_SIZE) 0 (errno_cell w)), [],
        (take k data).
      clear Hbuf. subst w1 n buf. cbn [length] in *. unfold ret.
      rewrite app_nil_r.
      split_and!; try done; try (by map_lookup).
      * constructor.
      * wsimpl. by rewrite insert_id.
      * intros fd H1 H2. by map_lookup.
      * intros _. split; try done; map_lookup.
        by rewrite Nat.add_0_r.
    + set (g := granted (next_decision w) (Z.to_nat COPY_BUF_SIZE)) in *.
      assert (0 < length buf)%nat as Hpos by lia.
      assert (length buf ≤ length data - k)%nat as Hle.
      { rewrite Hbuf, length_take, length_drop. lia. }
      unfold bind at 1, set_errno, modify.
      rewrite Hn, Nat2Z.id, firstn_all. unfold bind at 1.
      destruct (write dstfd buf (with_errno E0 w1)) as [r w2] eqn:Hw.
      eapply (write_inv _ _ _ _ _ (writer dst k) (take k data)) in Hw;
        [ | done | subst w1; by map_lookup | done | subst w1; by map_lookup ].
      destruct Hw as [(Hr & f & Hw2) | (e & Hr & He & Hw2)].
      * destruct (decide (r ≠ Z.of_nat (length buf))) as [_|]; [|lia].
        exists false,
          (with_log (log w2 ++ [warning_m (msg_could_not_write dst)
                                  (errno_of_fault f)]) w2),
          [ev (Read srcfd COPY_BUF_SIZE) n (errno_cell w)],
          (ev (Write dstfd (Z.of_nat (length buf))) r (errno_of_fault f)),
          [warning_m (msg_could_not_write dst) (write_errno (errno_of_fault f))],
          (take k data).
        subst w2 w1 r n. unfold bind, get, ret, ereport_file_access, modify.
        wsimpl.
        destruct (decide (errno_of_fault f = E0)) as [Hf0|_];
          [by apply errno_of_fault_not_E0 in Hf0|]. wsimpl.
        split_and!; try done; try (by map_lookup).
        -- by rewrite <- app_assoc.
        -- unfold write_errno. rewrite decide_False; [done|].
           apply errno_of_fault_not_E0.
        -- repeat constructor. unfold full_transfer; simpl. lia.
        -- unfold write_errno. eapply exit_write_failed. lia.
        -- by rewrite insert_id.
        -- intros fd H1 H2. by map_lookup.
      * set (chunk := take (granted (next_decision (with_errno E0 w1))
                              (length buf)) buf) in *.
        cbv zeta in Hr, Hw2. cbn [of_path of_pos writer] in Hw2.
        destruct (decide (r ≠ Z.of_nat (length buf))) as [Hshort|Hfull].
        -- exists false,
             (with_log (log w2 ++ [warning_m (msg_could_not_write dst)
                                     (write_errno e)])
                (with_errno (write_errno e) w2)),
             [ev (Read srcfd COPY_BUF_SIZE) n (errno_cell w)],
             (ev (Write dstfd (Z.of_nat (length buf))) r e),
             [warning_m (msg_could_not_write dst) (write_errno e)],
             (store k chunk (take k data)).
           subst w2 w1 n. unfold bind, get, ret, ereport_file_access, modify,
             set_errno, write_errno.
           wsimpl.
           split_and!; try done; try (by map_lookup).
           ++ by destruct (decide (e = E0)).
           ++ by rewrite <- app_assoc.
           ++ repeat constructor. unfold full_transfer; simpl. lia.
           ++ by apply (exit_write_failed src dst srcfd dstfd _ r e).
           ++ intros fd H1 H2. by map_lookup.
        -- assert (chunk = buf) as Hchunk.
           { apply take_same_length. fold chunk. lia. }
           rewrite Hchunk in *. clear Hchunk chunk.
           destruct (IH (k + length buf)%nat w2)
             as (b & w' & good & last & reps & content & Hrun & Htr & Hlog
                 & Had & Hgood & Hexit & Hfs & Hframe & Hsrc & Hdst & Htrue).
           { subst w2 w1. split; try done; try (by map_lookup).
             wsimpl. rewrite lookup_insert_eq. rewrite Hbuf at 1.
             by rewrite store_next, <- Hbuf. }
           { lia. }
           { lia. }
           exists b, w',
             (ev (Read srcfd COPY_BUF_SIZE) n (errno_cell w)
                :: ev (Write dstfd (Z.of_nat (length buf))) r e :: good),
             last, reps, content.
           rewrite Hrun, Htr, Hlog, Had, Hfs. subst w2 w1 n. wsimpl.
           split_and!; try done.
           ++ by rewrite <- !app_assoc.
           ++ repeat constructor; try done; unfold full_transfer; simpl; lia.
           ++ by rewrite insert_insert_eq.
           ++ intros fd H1 H2. rewrite Hframe by done. by map_lookup.
  - destruct (decide (n < 0)) as [_|]; [|lia].
    exists false,
      (with_log (log w1 ++ [warning_m (msg_could_not_read src) e]) w1),
      [], (ev (Read srcfd COPY_BUF_SIZE) (-1) e),
      [warning_m (msg_could_not_read src) e], (take k data).
    subst w1 n. unfold bind, get, ret, ereport_file_access, modify. wsimpl.
    split_and!; try done; try (by map_lookup).
    + constructor.
    + by rewrite insert_id.
Qed.

Ltac close_fields :=
  split_and!;
  [ reflexivity | wsimpl; rewrite <- ?app_assoc; rewrite ?app_nil_r; try done .. ].

Lemma copy_file_spec src dst w :
  ∃ b w' evs reps,
    copy_file src dst w = (Some b, w')
    ∧ trace w' = trace w ++ evs
    ∧ log w' = log w ++ reps
    ∧ archive_directory w' = archive_directory w
    ∧ copy_outcome src dst w w' b evs reps.
Proof.
  unfold copy_file. unfold bind at 1.
  destruct (OpenTransientFile src O_RDONLY w) as [r0 w1] eqn:Ho1.
  apply open_rdonly_inv in Ho1
    as [(sfd & n & Hr0 & Hsfd & Hsrc & Hw1) | (Hr0 & e & Hw1)].
  2:{ destruct (decide (r0 < 0)) as [_|]; [|lia].
      eexists false, _, [open_src src (-1) e],
        [warning_m (msg_could_not_open src) e].
      subst w1 r0.
      unfold bind, ereport_file_access, modify, ret. wsimpl.
      close_fields. by constructor. }
  destruct (decide (r0 < 0)) as [|_]; [lia|].
  unfold bind at 1.
  destruct (OpenTransientFile dst O_RDWR_CREAT_EXCL w1) as [r1 w2] eqn:Ho2.
  apply open_excl_inv in Ho2
    as [(dfd & Hr1 & Hdfd & Hdst & Hw2) | (Hr1 & e & Hw2)].
  2:{ destruct (decide (r1 < 0)) as [_|]; [|lia].
      eexists false, _,
        [open_src src (Z.of_nat sfd) (errno_cell w); open_dst dst (-1) e],
        [warning_m (msg_could_not_open dst) e].
      subst w2 w1 r0 r1.
      unfold bind, ereport_file_access, modify, ret. wsimpl.
      close_fields. by econstructor. }
  destruct (decide (r1 < 0)) as [|_]; [lia|].
  assert (sfd ≠ dfd) as Hfdne.
  { intros ->. subst w1. wsimpl. by rewrite lookup_insert_eq in Hdfd. }
  assert (fds w !! dfd = None) as Hdfd0.
  { subst w1. wsimpl. by rewrite lookup_insert_ne in Hdfd. }
  assert (fs w !! dst = None) as Hdst0 by (by subst w1).
  assert (src ≠ dst) as Hnames by (intros ->; congruence).
  clear Hdfd Hdst.
  unfold bind at 1, get. unfold bind at 1.
  destruct n as [data|].
  - assert (file_size w2 src = length data) as ->.
    { unfold file_size. subst w2 w1. wsimpl.
      by rewrite lookup_insert_ne, Hsrc. }
    destruct (copy_loop_spec src dst r0 r1 data (S (length data)) 0%nat w2)
      as (b & w3 & good & last & reps & content & Hrun & Htr & Hlog
          & Had & Hgood & Hexit & Hfs & Hframe & Hsopen & Hdopen & Htrue).
    { subst w2 w1 r0 r1. split; try lia; try done; rewrite ?Nat2Z.id;
        by map_lookup. }
    { lia. }
    { lia. }
    rewrite Hrun.
    assert (fs w3 = <[dst := RegularFile content]> (fs w)) as Hfs3.
    { rewrite Hfs. subst w2 w1. wsimpl. by rewrite insert_insert_eq. }
    assert (∀ fd, fd ≠ sfd → fd ≠ dfd → fds w3 !! fd = fds w !! fd) as Hfr3.
    { intros fd H1 H2. rewrite Hframe by (subst r0 r1; lia).
      subst w2 w1. by map_lookup. }
    assert (trace w3 = trace w ++ [open_src src r0 (errno_cell w);
                                   open_dst dst r1 (errno_cell w)]
                         ++ good ++ [last]) as Htr3.
    { rewrite Htr. subst w2 w1. wsimpl. by rewrite <- !app_assoc. }
    assert (log w3 = log w ++ reps) as Hlog3.
    { rewrite Hlog. by subst w2 w1. }
    assert (archive_directory w3 = archive_directory w) as Had3.
    { rewrite Had. by subst w2 w1. }
    clear Hfs Hframe Htr Hlog Had Hrun Hw2 Hw1 w1 w2.
    subst r0 r1. rewrite !Nat2Z.id in *.
    destruct b.
    + destruct (Htrue eq_refl) as [_ _ _ _ Hso3 Hdo3 _ Hdd3].
      rewrite !Nat2Z.id in *.
      assert (content = data) as ->.
      { rewrite Hfs3, lookup_insert_eq, firstn_all in Hdd3. congruence. }
      inversion Hexit as [e2|e2|c0 r0 e2 Hshort]; subst. clear Hexit Htrue.
      unfold bind at 1.
      destruct (CloseTransientFile (Z.of_nat dfd) w3) as [c w4] eqn:Hc1.
      eapply close_inv in Hc1; [|lia|by rewrite Nat2Z.id].
      destruct Hc1 as (e3 & Hw4 & Hc). rewrite Nat2Z.id in Hw4.
      destruct (decide (c ≠ 0)) as [Hcne|Hceq].
      * destruct Hc as [[? _] | ->]; [done|].
        eexists false, _,
          ([open_src src (Z.of_nat sfd) (errno_cell w);
            open_dst dst (Z.of_nat dfd) (errno_cell w)]
             ++ good
             ++ [ev (Read (Z.of_nat sfd) COPY_BUF_SIZE) 0 e2;
                 ev (Close (Z.of_nat dfd)) (-1) e3]),
          [warning_m (msg_could_not_close dst) e3].
        subst w4. unfold bind, ereport_file_access, modify, ret.
        close_fields.
        -- rewrite Htr3. by rewrite <- !app_assoc.
        -- by rewrite Hlog3, ?app_nil_r.
        -- eapply copy_close_dst_failed; wsimpl; try done.
           ++ by rewrite lookup_delete_ne, Hso3.
           ++ by rewrite lookup_delete_eq.
      * destruct Hc as [[-> ->] | ->]; [|lia]. clear Hceq.
        unfold bind at 1.
        destruct (CloseTransientFile (Z.of_nat sfd) w4) as [c w5] eqn:Hc2.
        eapply close_inv in Hc2;
          [|lia|subst w4; wsimpl; by rewrite Nat2Z.id, lookup_delete_ne].
        destruct Hc2 as (e4 & Hw5 & Hc). rewrite Nat2Z.id in Hw5.
        assert (fds w5 = fds w) as Hfds5.
        { subst w5 w4. wsimpl. apply map_eq. intros i.
          destruct (decide (i = sfd)) as [->|]; [by rewrite lookup_delete_eq|].
          rewrite lookup_delete_ne by done.
          destruct (decide (i = dfd)) as [->|]; [by rewrite lookup_delete_eq|].
          rewrite lookup_delete_ne by done. by apply Hfr3. }
        destruct (decide (c ≠ 0)) as [Hcne|Hceq].
        -- destruct Hc as [[? _] | ->]; [done|].
           eexists false, _,
             ([open_src src (Z.of_nat sfd) (errno_cell w);
               open_dst dst (Z.of_nat dfd) (errno_cell w)]
                ++ good
                ++ [ev (Read (Z.of_nat sfd) COPY_BUF_SIZE) 0 e2;
                    ev (Close (Z.of_nat dfd)) 0 (errno_cell w3);
                    ev (Close (Z.of_nat sfd)) (-1) e4]),
             [warning_m (msg_could_not_close src) e4].
           unfold bind, ereport_file_access, modify, ret.
           split_and!; [reflexivity|..].
           ++ subst w5 w4. wsimpl. rewrite Htr3. by rewrite <- !app_assoc.
           ++ subst w5 w4. wsimpl. by rewrite Hlog3, ?app_nil_r.
           ++ by subst w5 w4.
           ++ eapply copy_close_src_failed; wsimpl; try done.
              by subst w5 w4.
        -- destruct Hc as [[-> ->] | ->]; [|lia].
           eexists true, _,
             ([open_src src (Z.of_nat sfd) (errno_cell w);
               open_dst dst (Z.of_nat dfd) (errno_cell w)]
                ++ good
                ++ [ev (Read (Z.of_nat sfd) COPY_BUF_SIZE) 0 e2;
                    ev (Close (Z.of_nat dfd)) 0 (errno_cell w3);
                    ev (Close (Z.of_nat sfd)) 0 (errno_cell w4)]),
             [].
           unfold ret.
           split_and!; [reflexivity|..].
           ++ subst w5 w4. wsimpl. rewrite Htr3. by rewrite <- !app_assoc.
           ++ subst w5 w4. wsimpl. by rewrite Hlog3, ?app_nil_r.
           ++ by subst w5 w4.
           ++ eapply copy_done; wsimpl; try done.
              by subst w5 w4.
    + exists false, w3,
        ([open_src src (Z.of_nat sfd) (errno_cell w);
          open_dst dst (Z.of_nat dfd) (errno_cell w)] ++ good ++ [last]),
        reps.
      unfold ret. split_and!; try done.
      by eapply copy_loop_failed.
  - assert (file_size w2 src = 0%nat) as ->.
    { unfold file_size. subst w2 w1. wsimpl.
      by rewrite lookup_insert_ne, Hsrc. }
    cbn [copy_loop]. unfold bind at 1.
    destruct (read r0 COPY_BUF_SIZE w2) as [[k buf] w3] eqn:Hr.
    eapply (read_inv _ _ _ _ _ _ (reader src 0)) in Hr;
      [|lia|subst w2 w1 r0; rewrite Nat2Z.id; by map_lookup].
    destruct Hr as [(data & Hd & _) | (-> & -> & e & Hw3)].
    { subst w2 w1. cbn [of_path reader] in Hd. wsimpl.
      rewrite lookup_insert_ne in Hd by done. congruence. }
    destruct (decide (-1 < 0)) as [_|]; [|lia].
    exists false,
      (with_log (log w3 ++ [warning_m (msg_could_not_read src) e]) w3),
      ([open_src src r0 (errno_cell w); open_dst dst r1 (errno_cell w)]
         ++ [] ++ [ev (Read r0 COPY_BUF_SIZE) (-1) e]),
      [warning_m (msg_could_not_read src) e].
    subst w3 w2 w1 r0 r1.
    unfold bind, ereport_file_access, modify, ret.
    close_fields.
    eapply copy_loop_failed; wsimpl; try done; try (by map_lookup).
    constructor.
Qed.

Lemma durable_rename_spec level old new w :
  ∃ r w' evs reps,
    durable_rename old new level w = (r, w')
    ∧ trace w' = trace w ++ evs
    ∧ log w' = log w ++ reps
    ∧ archive_directory w' = archive_directory w
    ∧ fds w' = fds w
    ∧ commit_outcome level old new w w' r evs reps.
Proof.
  unfold durable_rename. unfold bind at 1.
  destruct (flush FlushData old w) as [r0 w1] eqn:H0.
  apply flush_inv in H0 as (e0 & Hw1 & Hr0).
  destruct (decide (r0 ≠ 0)) as [Hne|Heq].
  { destruct Hr0 as [[? _] | ->]; [done|].
    eexists (-1), _, [ev (FlushData old) (-1) e0],
      [reported level (msg_could_not_fsync old) e0]. subst w1.
    unfold bind, ereport_file_access, modify, ret.
    close_fields. by constructor. }
  destruct Hr0 as [(-> & -> & Hold) | ->]; [|lia]. clear Heq.
  unfold bind at 1.
  destruct (flush FlushMeta old w1) as [r1 w2] eqn:H1.
  apply flush_inv in H1 as (e1 & Hw2 & Hr1).
  destruct (decide (r1 ≠ 0)) as [Hne|Heq].
  { destruct Hr1 as [[? _] | ->]; [done|].
    eexists (-1), _,
      [ev (FlushData old) 0 (errno_cell w); ev (FlushMeta old) (-1) e1],
      [reported level (msg_could_not_fsync old) e1].
    subst w2 w1.
    unfold bind, ereport_file_access, modify, ret.
    close_fields. by constructor. }
  destruct Hr1 as [(-> & -> & _) | ->]; [|lia]. clear Heq.
  unfold bind at 1.
  destruct (rename old new w2) as [r2 w3] eqn:H2.
  apply rename_inv in H2 as [(-> & n & Hn & Hw3) | (-> & e2 & Hw3)].
  2:{ destruct (decide (-1 < 0)) as [_|]; [|lia].
      eexists (-1), _,
        [ev (FlushData old) 0 (errno_cell w);
         ev (FlushMeta old) 0 (errno_cell w1);
         ev (Rename old new) (-1) e2],
        [reported level (msg_could_not_rename old new) e2].
      subst w3 w2 w1.
      unfold bind, ereport_file_access, modify, ret.
      close_fields. by constructor. }
  destruct (decide (0 < 0)) as [|_]; [lia|].
  unfold bind at 1.
  destruct (flush FlushDir new w3) as [r3 w4] eqn:H3.
  apply flush_inv in H3 as (e3 & Hw4 & Hr3).
  destruct (decide (r3 ≠ 0)) as [Hne|Heq].
  { destruct Hr3 as [[? _] | ->]; [done|].
    eexists (-1), _,
      [ev (FlushData old) 0 (errno_cell w);
       ev (FlushMeta old) 0 (errno_cell w1);
       ev (Rename old new) 0 (errno_cell w2);
       ev (FlushDir new) (-1) e3],
      [reported level (msg_could_not_fsync new) e3].
    subst w4 w3 w2 w1.
    unfold bind, ereport_file_access, modify, ret.
    close_fields. wsimpl. by econstructor. }
  destruct Hr3 as [(-> & -> & _) | ->]; [|lia]. clear Heq.
  eexists 0, _,
    [ev (FlushData old) 0 (errno_cell w);
     ev (FlushMeta old) 0 (errno_cell w1);
     ev (Rename old new) 0 (errno_cell w2);
     ev (FlushDir new) 0 (errno_cell w3)], [].
  subst w4 w3 w2 w1. unfold ret.
  close_fields. wsimpl. by econstructor.
Qed.

Section WithPlatform.
Variable MAXPGPATH : nat.

(** The copy and the commit, from the world the two preliminary calls
    left. *)
Lemma archive_tail path file w w2 ru :
  let dest := destination_of MAXPGPATH path file in
  let temp := temp_of MAXPGPATH path in
  ru = 0 ∨ ru = -1 →
  configured w →
  path_too_long MAXPGPATH path file = false →
  fs w !! dest = None →
  fs w2 = delete temp (fs w) → fds w2 = fds w →
  archive_directory w2 = archive_directory w →
  log w2 = log w →
  trace w2 = trace w ++ cleared MAXPGPATH path file ru →
  ∃ b w' evs reps,
    (c <~ copy_file path temp ;;
     match c with
     | Some true =>
       r <~ durable_rename temp dest WARNING ;;
       ret (Some (bool_decide (r = 0)))
     | early => ret early
     end) w2 = (Some b, w')
    ∧ trace w' = trace w ++ evs
    ∧ log w' = log w ++ reps
    ∧ archive_directory w' = archive_directory w
    ∧ archive_outcome MAXPGPATH path file w w' b evs reps.
Proof.
  intros dest temp Hru Hconf Hlong Hdest Hfs2 Hfds2 Had2 Hlog2 Htr2.
  unfold bind at 1.
  destruct (copy_file_spec path temp w2)
    as (b & w3 & evs & reps & Hrun & Htr3 & Hlog3 & Had3 & Hcopy).
  rewrite Hrun. destruct b.
  2:{ exists false, w3, (cleared MAXPGPATH path file ru ++ evs), reps.
      unfold ret. split_and!; try done.
      - by rewrite Htr3, Htr2, <- app_assoc.
      - by rewrite Hlog3, Hlog2.
      - by rewrite Had3.
      - by eapply arch_copy_failed. }
  assert (reps = []) as -> by (by inversion Hcopy).
  unfold bind at 1.
  destruct (durable_rename_spec WARNING temp dest w3)
    as (r & w4 & cevs & creps & Hrun4 & Htr4 & Hlog4 & Had4 & Hfds4 & Hcommit).
  rewrite Hrun4. unfold ret.
  assert (trace w4 = trace w ++ cleared MAXPGPATH path file ru
                       ++ evs ++ cevs) as Htr.
  { by rewrite Htr4, Htr3, Htr2, <- !app_assoc. }
  assert (log w4 = log w ++ creps) as Hlog.
  { by rewrite Hlog4, Hlog3, Hlog2, app_nil_r. }
  assert (archive_directory w4 = archive_directory w) as Had
    by congruence.
  destruct (decide (r = 0)) as [->|Hr].
  - assert (creps = []) as -> by (by inversion Hcommit).
    exists true, w4, (cleared MAXPGPATH path file ru ++ evs ++ cevs), [].
    split_and!; try done.
    by eapply arch_done.
  - assert (r = -1) as -> by (by inversion Hcommit).
    exists false, w4, (cleared MAXPGPATH path file ru ++ evs ++ cevs),
      creps.
    rewrite bool_decide_eq_false_2 by done.
    split_and!; try done.
    by eapply arch_commit_failed.
Qed.

Lemma archive_spec path file w :
  ∃ b w' evs reps,
    _PG_archive MAXPGPATH path file w = (Some b, w')
    ∧ trace w' = trace w ++ evs
    ∧ log w' = log w ++ reps
    ∧ archive_directory w' = archive_directory w
    ∧ archive_outcome MAXPGPATH path file w w' b evs reps.
Proof.
  unfold _PG_archive. unfold bind at 1, get.
  set (dest := destination_of MAXPGPATH path file).
  set (temp := temp_of MAXPGPATH path).
  destruct (match archive_directory w with
            | Some d => first_is_nul d | None => true end) eqn:Hcfg.
  { exists false, (with_log (log w ++ [warning msg_not_specified]) w), [],
      [warning msg_not_specified].
    unfold bind, ereport, modify, ret. close_fields.
    constructor; try done. intros (d & Hd & Hnul). rewrite Hd in Hcfg.
    congruence. }
  assert (configured w) as Hconf.
  { unfold configured. destruct (archive_directory w) as [d|]; [|done].
    by exists d. }
  clear Hcfg.
  destruct (path_too_long MAXPGPATH path file) eqn:Hlong.
  { exists false, (with_log (log w ++ [warning msg_path_too_long]) w), [],
      [warning msg_path_too_long].
    unfold bind, ereport, modify, ret. close_fields. by constructor. }
  unfold bind at 1.
  destruct (stat dest w) as [[r m] w1] eqn:Hst.
  apply stat_inv in Hst as (e & Hw1 & Hst). cbn [fst].
  destruct Hst as [(-> & -> & n & Hn & _ & _)
                  | [(-> & -> & -> & Hdest & _) | (-> & -> & f & -> & Hf)]].
  - destruct (decide (0 = 0)) as [_|]; [|done].
    eexists false, _, [ev (Stat dest) 0 (errno_cell w)],
      [warning (msg_already_exists dest)].
    subst w1. unfold bind, ereport, modify, ret. close_fields.
    by constructor.
  - destruct (decide (-1 = 0)) as [|_]; [done|].
    unfold bind at 1, get.
    destruct (decide (errno_cell w1 ≠ ENOENT)) as [Hne|_];
      [subst w1; by wsimpl|].
    unfold bind at 1.
    destruct (unlink temp w1) as [ru w2] eqn:Hun.
    apply unlink_inv in Hun
      as [(-> & [d Hd] & Hw2) | (-> & eu & Hw2 & Heu)].
    + unfold bind at 1, get.
      destruct (decide (0 ≠ 0 ∧ errno_cell w2 ≠ ENOENT)) as [[? _]|_];
        [done|].
      apply (archive_tail path file w w2 0); try done;
        subst w2 w1; wsimpl; try done.
      * by left.
      * by rewrite <- app_assoc.
    + unfold bind at 1, get.
      destruct (decide (-1 ≠ 0 ∧ errno_cell w2 ≠ ENOENT)) as [[_ Hne]|Hno].
      * eexists false, _,
          [ev (Stat dest) (-1) ENOENT; ev (Unlink temp) (-1) eu],
          [warning_m (msg_could_not_unlink temp) eu].
        subst w2 w1. unfold bind, ereport_file_access, modify, ret.
        close_fields. by constructor.
      * assert (eu = ENOENT) as ->.
        { subst w2. wsimpl. destruct (decide (eu = ENOENT)); [done|].
          exfalso. apply Hno. split; [lia|done]. }
        destruct Heu as [[_ Htemp] | [[? _] | [f Hf]]];
          [|done|by destruct f].
        apply (archive_tail path file w w2 (-1)); try done;
          subst w2 w1; wsimpl; try done.
        -- by right.
        -- by rewrite delete_id.
        -- by rewrite <- app_assoc.
  - destruct (decide (-1 = 0)) as [|_]; [done|].
    unfold bind at 1, get. subst w1. wsimpl.
    destruct (decide (errno_of_fault f ≠ ENOENT)) as [Hne|Heq];
      [|by destruct Heq; apply errno_of_fault_not_ENOENT].
    eexists false, _, [ev (Stat dest) (-1) (errno_of_fault f)],
      [warning_m (msg_could_not_stat dest) (errno_of_fault f)].
    unfold bind, ereport_file_access, modify, ret. close_fields.
    by constructor.
Qed.

End WithPlatform.

Lemma length_append (a b : string) :
  String.length (a +:+ b) = (String.length a + String.length b)%nat.
Proof. induction a as [|c a IH]; simpl; [done|]. by rewrite IH. Qed.

Lemma substring_all (s : string) : ∀ n,
  (String.length s ≤ n)%nat → String.substring 0 n s = s.
Proof.
  induction s as [|c s IH]; intros [|n] H; simpl in *; try done; try lia.
  f_equal. apply IH. lia.
Qed.

Lemma append_inj_r (a b c : string) : a +:+ b = a +:+ c → b = c.
Proof. induction a as [|x a IH]; simpl; [done|]. intros [=]. auto. Qed.

Section WithPlatform.
Variable MAXPGPATH : nat.

Lemma destination_fits path file :
  path_too_long MAXPGPATH path file = false →
  destination_of MAXPGPATH path file = path +:+ "/" +:+ file.
Proof.
  unfold path_too_long, destination_of, snprintf_path. intros H.
  apply bool_decide_eq_false in H. apply substring_all.
  rewrite !length_append. simpl. lia.
Qed.

Lemma temp_fits path file :
  path_too_long MAXPGPATH path file = false →
  temp_of MAXPGPATH path = path +:+ "/" +:+ TEMP_FILE_NAME.
Proof.
  unfold path_too_long, temp_of, snprintf_path. intros H.
  apply bool_decide_eq_false in H. apply substring_all.
  rewrite !length_append. simpl in *. lia.
Qed.

Lemma destination_not_temp path file :
  path_too_long MAXPGPATH path file = false →
  file ≠ TEMP_FILE_NAME →
  destination_of MAXPGPATH path file ≠ temp_of MAXPGPATH path.
Proof.
  intros Hlong Hfile. rewrite (destination_fits _ _ Hlong), (temp_fits _ _ Hlong).
  intros H. apply append_inj_r in H. simpl in H. by injection H.
Qed.

Lemma destination_not_source path file :
  path_too_long MAXPGPATH path file = false →
  destination_of MAXPGPATH path file ≠ path.
Proof.
  intros Hlong. rewrite (destination_fits _ _ Hlong). intros H.
  apply (f_equal String.length) in H. rewrite !length_append in H.
  simpl in H. lia.
Qed.

Lemma temp_not_source path file :
  path_too_long MAXPGPATH path file = false →
  temp_of MAXPGPATH path ≠ path.
Proof.
  intros Hlong. rewrite (temp_fits _ _ Hlong). intros H.
  apply (f_equal String.length) in H. rewrite !length_append in H.
  simpl in H. lia.
Qed.

End WithPlatform.

Lemma copy_starts_with_open src dst w w' b evs reps :
  copy_outcome src dst w w' b evs reps →
  ∃ r e rest, evs = ev (Open src O_RDONLY) r e :: rest.
Proof. destruct 1; simpl; eauto. Qed.

Lemma copy_failure_report src dst w w' evs reps :
  copy_outcome src dst w w' false evs reps → ∃ m e, reps = [warning_m m e].
Proof.
  inversion 1 as [ | | ? ? ? ? ? ? ? ? ? ? ? ? ? ? ? ? Hexit | | | ];
    subst; eauto.
  inversion Hexit; eauto.
Qed.

Lemma commit_failure_report level old new w w' evs reps :
  commit_outcome level old new w w' (-1) evs reps →
  ∃ m e, reps = [reported level m e].
Proof. inversion 1; eauto. Qed.

Ltac elem_cases H :=
  repeat (rewrite elem_of_app in H || rewrite elem_of_cons in H
          || rewrite elem_of_nil in H);
  destruct_or! H; subst; try done.

Lemma full_transfer_not_short s d good e :
  Forall (full_transfer s d) good → e ∈ good → ¬ short_write e.
Proof.
  intros Hgood He (fd & c & Hcall & Hret).
  rewrite Forall_forall in Hgood. specialize (Hgood e He).
  unfold full_transfer in Hgood. rewrite Hcall in Hgood. by destruct Hgood.
Qed.

Lemma full_transfer_not_commit s d good :
  Forall (full_transfer s d) good →
  Forall (λ e, ¬ commit_call (ev_call e)) good.
Proof.
  intros H. eapply Forall_impl; [exact H|]. intros e. unfold full_transfer.
  destruct (ev_call e); simpl; tauto.
Qed.

(** The calls of a copy whose [write] fell short. *)
Ltac no_commit :=
  repeat first
    [ apply Forall_nil
    | by eapply full_transfer_not_commit
    | apply Forall_app; split
    | apply Forall_cons; split
    | by (cbv [open_src open_dst ev ev_call commit_call]; tauto) ].

Lemma copy_short_write src dst w w' b evs reps e :
  copy_outcome src dst w w' b evs reps →
  e ∈ evs → short_write e →
  b = false
  ∧ reps = [warning_m (msg_could_not_write dst) (write_errno (ev_errno e))]
  ∧ last evs = Some e
  ∧ Forall (λ e, ¬ commit_call (ev_call e)) evs.
Proof.
  intros Hcopy He Hshort.
  assert (∀ s d good, Forall (full_transfer s d) good → e ∈ good → False)
    as Hgood.
  { intros s d good Hg Hin. by eapply full_transfer_not_short. }
  destruct Hshort as (fd & c & Hcall & Hret).
  inversion Hcopy as
    [ | | ? ? ? ? good l ? ? ? ? ? ? ? ? ? Hg Hexit
    | ? ? ? ? good ? ? ? ? ? ? ? ? ? ? Hg
    | ? ? ? ? good ? ? ? ? ? ? ? ? ? ? Hg
    | ? ? ? ? good ? ? ? ? ? ? ? ? ? ? Hg ]; subst.
  all: elem_cases He.
  all: try discriminate.
  all: try (exfalso; eapply Hgood; eassumption).
  inversion Hexit; subst; try discriminate.
  injection Hcall as <- <-. split_and!; try done.
  - by rewrite app_assoc, last_snoc.
  - no_commit.
Qed.

Lemma copy_no_commit src dst w w' b evs reps :
  copy_outcome src dst w w' b evs reps →
  Forall (λ e, ¬ commit_call (ev_call e)) evs.
Proof.
  inversion 1 as
    [ | | ? ? ? ? ? ? ? ? ? ? ? ? ? ? ? ? Hexit | | | ]; subst;
    try (inversion Hexit; subst); no_commit.
Qed.

Lemma copy_opens src dst w w' b evs reps e p fl :
  copy_outcome src dst w w' b evs reps →
  e ∈ evs → ev_call e = Open p fl → p = src ∨ p = dst.
Proof.
  intros Hcopy He Hcall.
  assert (∀ s d good, Forall (full_transfer s d) good → e ∈ good → False)
    as Hgood.
  { intros s d good Hg Hin. rewrite Forall_forall in Hg.
    specialize (Hg e Hin). unfold full_transfer in Hg.
    by rewrite Hcall in Hg. }
  inversion Hcopy as
    [ | | ? ? ? ? ? ? ? ? ? ? ? ? ? ? ? ? Hexit | | | ]; subst;
    try (inversion Hexit; subst).
  all: elem_cases He.
  all: try (exfalso; eapply Hgood; eassumption).
  all: simpl in Hcall; try discriminate; injection Hcall as <- <-; auto.
Qed.

Lemma copy_writes src dst w w' b evs reps e fd c :
  copy_outcome src dst w w' b evs reps →
  e ∈ evs → ev_call e = Write fd c →
  ∃ e', ev (Open dst O_RDWR_CREAT_EXCL) fd e' ∈ evs.
Proof.
  intros Hcopy He Hcall.
  assert (∀ s d good, Forall (full_transfer s d) good → e ∈ good → fd = d)
    as Hgood.
  { intros s d good Hg Hin. rewrite Forall_forall in Hg.
    specialize (Hg e Hin). unfold full_transfer in Hg.
    rewrite Hcall in Hg. by destruct Hg. }
  inversion Hcopy as
    [ | | ? ? ? ? ? ? ? ? ? ? ? ? ? ? ? Hg Hexit
    | ? ? ? ? ? ? ? ? ? ? ? ? ? ? ? Hg
    | ? ? ? ? ? ? ? ? ? ? ? ? ? ? ? Hg
    | ? ? ? ? ? ? ? ? ? ? ? ? ? ? ? Hg ]; subst;
    try (inversion Hexit; subst).
  all: elem_cases He.
  all: try (simpl in Hcall; injection Hcall as <- <-).
  all: try (rewrite (Hgood _ _ _ Hg He)).
  all: simpl; eexists; do 2 rewrite elem_of_cons; right; left; reflexivity.
Qed.

Lemma copy_frame src dst w w' b evs reps p :
  copy_outcome src dst w w' b evs reps →
  p ≠ dst → fs w' !! p = fs w !! p.
Proof.
  intros Hcopy Hp.
  inversion Hcopy as
    [ ? Hfs | ? ? ? Hfs | ? ? ? ? ? ? ? ? ? ? Hfs
    | ? ? ? ? ? ? ? ? ? ? Hfs | ? ? ? ? ? ? ? ? ? ? ? Hfs
    | ? ? ? ? ? ? ? ? ? ? ? Hfs ]; subst;
    rewrite Hfs; by simplify_map_eq.
Qed.

Lemma copy_complete src dst w w' evs reps :
  copy_outcome src dst w w' true evs reps →
  ∃ pre sfd dfd e1 e2 e3 data,
    evs = pre ++ [ev (Read sfd COPY_BUF_SIZE) 0 e1;
                  ev (Close dfd) 0 e2; ev (Close sfd) 0 e3]
    ∧ fs w !! src = Some (RegularFile data)
    ∧ fs w !! dst = None
    ∧ fs w' = <[dst := RegularFile data]> (fs w)
    ∧ fds w' = fds w.
Proof.
  inversion 1; subst. eexists (_ ++ _), _, _, _, _, _, _.
  split_and!; try done. by rewrite <- app_assoc.
Qed.

Section WithPlatform.
Variable MAXPGPATH : nat.

(** Claim C8.  Every call of [_PG_archive] checks in this order: the
    archive directory is configured; the paths fit [MAXPGPATH]; [stat] of
    the final path (a conflict when it succeeds, a file-access failure when
    it fails with anything but ENOENT); [unlink] of the temporary path, where
    ENOENT is no error.  The first failing check reports its message and is
    the last call issued; when all pass, the next call opens the source. *)
Theorem precondition_order path file w :
  let dest := destination_of MAXPGPATH path file in
  let temp := temp_of MAXPGPATH path in
  ∃ b w' evs reps,
    _PG_archive MAXPGPATH path file w = (Some b, w')
    ∧ trace w' = trace w ++ evs
    ∧ log w' = log w ++ reps
    ∧ (¬ configured w →
       b = false ∧ evs = [] ∧ reps = [warning msg_not_specified])
    ∧ (configured w → path_too_long MAXPGPATH path file = true →
       b = false ∧ evs = [] ∧ reps = [warning msg_path_too_long])
    ∧ (configured w → path_too_long MAXPGPATH path file = false →
       ∃ r e rest,
         evs = ev (Stat dest) r e :: rest
         ∧ (r = 0 →
            b = false ∧ rest = []
            ∧ reps = [warning (msg_already_exists dest)])
         ∧ (r ≠ 0 → e ≠ ENOENT →
            b = false ∧ rest = []
            ∧ reps = [warning_m (msg_could_not_stat dest) e])
         ∧ (r ≠ 0 → e = ENOENT →
            ∃ ru eu rest',
              rest = ev (Unlink temp) ru eu :: rest'
              ∧ (ru ≠ 0 → eu ≠ ENOENT →
                 b = false ∧ rest' = []
                 ∧ reps = [warning_m (msg_could_not_unlink temp) eu])
              ∧ (ru = 0 ∨ eu = ENOENT →
                 ∃ r0 e0 rest'',
                   rest' = ev (Open path O_RDONLY) r0 e0 :: rest''))).
Proof.
  intros dest temp.
  destruct (archive_spec MAXPGPATH path file w)
    as (b & w' & evs & reps & Hrun & Htr & Hlog & _ & Hout).
  exists b, w', evs, reps. split_and!; try done.
  - intros Hno. by inversion Hout.
  - intros Hconf Hlong. inversion Hout; subst; try done; congruence.
  - intros Hconf Hlong.
    inversion Hout as
      [ | | | f | e | w1 ru evs' reps' Hru ? ? ? ? ? Hcopy
      | w1 w2 ru evs' cevs creps Hru ? ? ? ? ? Hcopy
      | w1 w2 ru evs' cevs Hru ? ? ? ? ? Hcopy ];
      subst; try done; try congruence.
    + exists 0, (errno_cell w), []. split_and!; try done.
    + exists (-1), (errno_of_fault f), []. split_and!; try done.
      intros _ Hf. by apply errno_of_fault_not_ENOENT in Hf.
    + exists (-1), ENOENT, [ev (Unlink temp) (-1) e].
      split_and!; try done. intros _ _.
      exists (-1), e, []. split_and!; try done.
      intros [?|?]; done.
    + destruct (copy_starts_with_open _ _ _ _ _ _ _ Hcopy)
        as (r0 & e0 & rest & ->).
      exists (-1), ENOENT, (ev (Unlink temp) ru ENOENT
                              :: ev (Open path O_RDONLY) r0 e0 :: rest).
      split_and!; try done. intros _ _.
      exists ru, ENOENT, (ev (Open path O_RDONLY) r0 e0 :: rest).
      split_and!; try done. eauto.
    + destruct (copy_starts_with_open _ _ _ _ _ _ _ Hcopy)
        as (r0 & e0 & rest & ->).
      exists (-1), ENOENT, (ev (Unlink temp) ru ENOENT
                              :: ev (Open path O_RDONLY) r0 e0 :: rest ++ cevs).
      split_and!; try done. intros _ _.
      exists ru, ENOENT, (ev (Open path O_RDONLY) r0 e0 :: rest ++ cevs).
      split_and!; try done. eauto.
    + destruct (copy_starts_with_open _ _ _ _ _ _ _ Hcopy)
        as (r0 & e0 & rest & ->).
      exists (-1), ENOENT, (ev (Unlink temp) ru ENOENT
                              :: ev (Open path O_RDONLY) r0 e0 :: rest ++ cevs).
      split_and!; try done. intros _ _.
      exists ru, ENOENT, (ev (Open path O_RDONLY) r0 e0 :: rest ++ cevs).
      split_and!; try done. eauto.
Qed.
(** Claim C6, as amended.  With a configured archive directory,
    [_PG_archive] reports "archive destination path too long" exactly when
    [strlen(path) + Max(strlen(file), strlen(TEMP_FILE_NAME)) + 2] is at
    least [MAXPGPATH], where [path] is the string the final and the
    temporary path are built from; it then returns false having issued no
    system call and changed no file.  A total of [MAXPGPATH - 1] passes, a
    total of exactly [MAXPGPATH] does not. *)
Theorem path_length_check path file w :
  configured w →
  ∃ b w' evs reps,
    _PG_archive MAXPGPATH path file w = (Some b, w')
    ∧ trace w' = trace w ++ evs
    ∧ log w' = log w ++ reps
    ∧ (reps = [warning msg_path_too_long]
       ↔ (MAXPGPATH ≤ String.length path
                       + Nat.max (String.length file)
                                 (String.length TEMP_FILE_NAME)
                       + 2)%nat)
    ∧ (reps = [warning msg_path_too_long] →
       b = false ∧ evs = [] ∧ fs w' = fs w ∧ fds w' = fds w).
Proof.
  intros Hconf.
  destruct (archive_spec MAXPGPATH path file w)
    as (b & w' & evs & reps & Hrun & Htr & Hlog & _ & Hout).
  exists b, w', evs, reps. split_and!; try done.
  - rewrite <- (bool_decide_eq_true (_ ≤ _)%nat).
    change (bool_decide _) with (path_too_long MAXPGPATH path file).
    split.
    + intros ->. inversion Hout as
        [ | | | | | ? ? ? ? ? ? ? ? ? ? Hcopy
        | ? ? ? ? ? ? ? ? ? ? ? ? Hcopy Hcommit | ]; subst; try done.
      * by apply copy_failure_report in Hcopy as (m & e & ?).
      * by apply commit_failure_report in Hcommit as (m & e & ?).
    + intros Hlong. inversion Hout; subst; try done; congruence.
  - intros ->. inversion Hout as
        [ | | | | | ? ? ? ? ? ? ? ? ? ? Hcopy
        | ? ? ? ? ? ? ? ? ? ? ? ? Hcopy Hcommit | ]; subst; try done.
    + by apply copy_failure_report in Hcopy as (m & e & ?).
    + by apply commit_failure_report in Hcommit as (m & e & ?).
Qed.

(** Claim C4.  When the final path already exists, [_PG_archive] returns
    false and leaves every file as it was; when the earlier checks pass and
    [stat] itself is not failed by the environment, the failure is the
    "already exists" conflict and [stat] is the only call issued.  In
    particular a second call with the same arguments after a successful
    first one is refused with the conflict. *)
Theorem existing_final_is_refused path file :
  let dest := destination_of MAXPGPATH path file in
  (∀ w n,
     fs w !! dest = Some n →
     ∃ w', _PG_archive MAXPGPATH path file w = (Some false, w')
           ∧ fs w' = fs w
           ∧ (configured w →
              path_too_long MAXPGPATH path file = false →
              (∀ f, next_decision w ≠ Fail f) →
              log w' = log w ++ [warning (msg_already_exists dest)]
              ∧ trace w' = trace w ++ [ev (Stat dest) 0 (errno_cell w)]))
  ∧ (∀ w0 w1,
       _PG_archive MAXPGPATH path file w0 = (Some true, w1) →
       (∀ f, next_decision w1 ≠ Fail f) →
       ∃ w2, _PG_archive MAXPGPATH path file w1 = (Some false, w2)
             ∧ fs w2 = fs w1
             ∧ log w2 = log w1 ++ [warning (msg_already_exists dest)]).
Proof.
  cbv zeta.
  assert (∀ w n,
     fs w !! destination_of MAXPGPATH path file = Some n →
     ∃ w', _PG_archive MAXPGPATH path file w = (Some false, w')
           ∧ fs w' = fs w
           ∧ (configured w →
              path_too_long MAXPGPATH path file = false →
              (∀ f, next_decision w ≠ Fail f) →
              log w' = log w
                ++ [warning (msg_already_exists
                               (destination_of MAXPGPATH path file))]
              ∧ trace w' = trace w
                  ++ [ev (Stat (destination_of MAXPGPATH path file)) 0
                        (errno_cell w)]))
    as Hfirst.
  { intros w n Hn.
    destruct (archive_spec MAXPGPATH path file w)
      as (b & w' & evs & reps & Hrun & Htr & Hlog & _ & Hout).
    inversion Hout; subst; try congruence; exists w'.
    all: split_and!; try done.
    all: intros Hconf Hlong Hok; try done; congruence. }
  split; [done|].
  intros w0 w1 Hrun Hok.
  destruct (archive_spec MAXPGPATH path file w0)
    as (b & w' & evs & reps & Hrun' & _ & _ & Had & Hout).
  rewrite Hrun in Hrun'. injection Hrun' as <- <-.
  inversion Hout as [ | | | | | | | ? w2 ? ? ? ? Hconf Hlong ? ? ? ? Hcommit];
    subst.
  inversion Hcommit as [ | | | | ? ? ? ? n Hn Hfs]; subst.
  destruct (Hfirst w1 n) as (wc & Hrunc & Hfsc & Hrest).
  { rewrite Hfs. by rewrite lookup_insert_eq. }
  exists wc. split_and!; try done.
  apply Hrest; try done.
  destruct Hconf as (d & Hd & Hnul). exists d. by rewrite Had.
Qed.

(** Claim C7.  A [write] of the copy loop that returns anything but the
    number of bytes requested ends the call: [_PG_archive] returns false and
    reports "could not write" with the file-access error code, which is
    ENOSPC when the write left [errno] at 0 and the write's own [errno]
    otherwise; that write is the last call issued, so no call of the commit
    phase follows. *)
Theorem short_write_is_fatal path file w b w' evs e fd count :
  _PG_archive MAXPGPATH path file w = (b, w') →
  trace w' = trace w ++ evs →
  e ∈ evs →
  ev_call e = Write fd count →
  ev_ret e ≠ count →
  b = Some false
  ∧ log w' = log w
      ++ [warning_m (msg_could_not_write (temp_of MAXPGPATH path))
            (if decide (ev_errno e = E0) then ENOSPC else ev_errno e)]
  ∧ last evs = Some e
  ∧ Forall (λ e, ¬ commit_call (ev_call e)) evs.
Proof.
  intros Hrun Htr He Hcall Hret.
  assert (short_write e) as Hshort by (by exists fd, count).
  destruct (archive_spec MAXPGPATH path file w)
    as (b0 & w0 & evs0 & reps & Hrun0 & Htr0 & Hlog & _ & Hout).
  rewrite Hrun in Hrun0. injection Hrun0 as -> <-.
  rewrite Htr in Htr0. apply app_inv_head in Htr0 as <-.
  inversion Hout as
    [ | | | | | ? ? evs' ? ? ? ? ? ? ? Hcopy
    | ? ? ? evs' cevs ? ? ? ? ? ? ? Hcopy Hcommit
    | ? ? ? evs' cevs ? ? ? ? ? ? Hcopy Hcommit ]; subst.
  all: unfold cleared in *.
  all: try (by elem_cases He).
  - elem_cases He.
    destruct (copy_short_write _ _ _ _ _ _ _ _ Hcopy He Hshort)
      as (_ & -> & Hlast & Hnc).
    split_and!; try done.
    + by rewrite last_app, Hlast.
    + apply Forall_app. split; [no_commit|done].
  - elem_cases He.
    + by destruct (copy_short_write _ _ _ _ _ _ _ _ Hcopy He Hshort).
    + inversion Hcommit; subst; by elem_cases He.
  - elem_cases He.
    + by destruct (copy_short_write _ _ _ _ _ _ _ _ Hcopy He Hshort).
    + inversion Hcommit; subst; by elem_cases He.
Qed.

(** Claim C2, as amended.  For a file name that is a base name other than
    the reserved temporary name: when [_PG_archive] fails at one of the
    failure points (source open, read, write, close of the temporary file,
    rename), no file exists at the final path afterwards; after a failed
    source open there is no temporary file either, after the other four the
    temporary file is present.  A base name makes [path/file] and
    [path/archtemp] two entries of one directory, which is what the flat
    name space of the model takes them for. *)
Theorem failure_leaves_no_final path file w b w' fp r :
  Names.base_name file = true →
  file ≠ TEMP_FILE_NAME →
  _PG_archive MAXPGPATH path file w = (b, w') →
  log w' = log w ++ [r] →
  rep_msg r = failure_message MAXPGPATH path file fp →
  b = Some false
  ∧ fs w' !! destination_of MAXPGPATH path file = None
  ∧ match fp with
    | SourceOpenFails => fs w' !! temp_of MAXPGPATH path = None
    | _ => is_Some (fs w' !! temp_of MAXPGPATH path)
    end.
Proof.
  intros _ Hfile Hrun Hlogr Hmsg.
  destruct (archive_spec MAXPGPATH path file w)
    as (b0 & w0 & evs & reps & Hrun0 & _ & Hlog & _ & Hout).
  rewrite Hrun in Hrun0. injection Hrun0 as -> <-.
  rewrite Hlogr in Hlog. apply app_inv_head in Hlog as <-.
  inversion Hout as
    [ | | | | | w1 ? evs' ? ? Hconf Hlong Hdest Hfs1 Hfds1 Hcopy
    | w1 w2 ? evs' cevs ? ? Hconf Hlong Hdest Hfs1 Hfds1 Hcopy Hcommit
    | ]; subst.
  all: try (by destruct fp).
  - pose proof (destination_not_temp _ _ _ Hlong Hfile) as Hdt.
    pose proof (temp_not_source _ _ _ Hlong) as Hts.
    inversion Hcopy as
      [ ? Hfs Hfds | ? ? ? Hfs | ? ? ? ? ? ? ? ? ? ? Hfs ? ? ? ? ? Hexit
      | ? ? ? ? ? ? ? ? ? ? Hfs | ? ? ? ? ? ? ? ? ? ? ? Hfs | ]; subst;
      try (inversion Hexit; subst);
      destruct fp; simpl in Hmsg; try discriminate;
      try (injection Hmsg as Hmsg; by destruct Hts);
      rewrite Hfs, ?Hfs1; (split_and!; [done|..]).
    all: by simplify_map_eq.
  - pose proof (destination_not_temp _ _ _ Hlong Hfile) as Hdt.
    inversion Hcopy as [ | | | | | ? ? ? ? ? ? ? ? ? ? ? Hfs2 ]; subst.
    inversion Hcommit as [ ? Hfs | ? ? Hfs | ? ? ? Hfs | | ]; subst;
      destruct fp; simpl in Hmsg; try discriminate.
    rewrite Hfs, Hfs2, Hfs1. split_and!; [done|..]; by simplify_map_eq.
Qed.


End WithPlatform.

Section WithPlatform.
Variable MAXPGPATH : nat.

Ltac in_list :=
  repeat (rewrite elem_of_app || rewrite elem_of_cons); naive_solver.

(** The calls of an execution whose copy succeeded, with the commit that
    followed. *)
Lemma commit_after_copy path file w w1 w2 w' ru evs' r cevs creps :
  let dest := destination_of MAXPGPATH path file in
  let temp := temp_of MAXPGPATH path in
  let evs := cleared MAXPGPATH path file ru ++ evs' ++ cevs in
  dest ≠ temp → dest ≠ path → temp ≠ path →
  fs w !! dest = None →
  fs w1 = delete temp (fs w) →
  copy_outcome path temp w1 w2 true evs' [] →
  commit_outcome WARNING temp dest w2 w' r cevs creps →
  (∀ e p fl, e ∈ evs → ev_call e = Open p fl → p ≠ dest)
  ∧ (∀ e fd c, e ∈ evs → ev_call e = Write fd c →
       ∃ e', ev (Open temp O_RDWR_CREAT_EXCL) fd e' ∈ evs)
  ∧ (fs w' !! dest ≠ fs w !! dest → ∃ e, ev (Rename temp dest) 0 e ∈ evs)
  ∧ (∀ e old new, e ∈ evs → ev_call e = Rename old new →
       old = temp ∧ new = dest
       ∧ ∃ pre post sfd dfd e1 e2 e3 e4 e5 data,
           evs = pre
                 ++ [ev (Read sfd COPY_BUF_SIZE) 0 e1;
                     ev (Close dfd) 0 e2; ev (Close sfd) 0 e3;
                     ev (FlushData temp) 0 e4; ev (FlushMeta temp) 0 e5; e]
                 ++ post
           ∧ Forall (λ e', ¬ commit_call (ev_call e')) pre
           ∧ (post = [] ∨ ∃ r e6, post = [ev (FlushDir dest) r e6])
           ∧ fs w !! path = Some (RegularFile data)
           ∧ (ev_ret e = 0 → fs w' !! dest = Some (RegularFile data))
           ∧ (ev_ret e ≠ 0 → fs w' !! temp = Some (RegularFile data)))
  ∧ (r = 0 →
       ∃ pre e2 e3,
         evs = pre ++ [ev (Rename temp dest) 0 e2; ev (FlushDir dest) 0 e3]).
Proof.
  intros dest temp evs Hdt Hdp Htp Hdest Hfs1 Hcopy Hcommit. subst evs.
  pose proof (copy_no_commit _ _ _ _ _ _ _ Hcopy) as Hnc.
  destruct (copy_complete _ _ _ _ _ _ Hcopy)
    as (pre & sfd & dfd & e1 & e2 & e3 & data & -> & Hsrc & Htemp & Hfs2 & _).
  assert (fs w !! path = Some (RegularFile data)) as Hsrc0.
  { rewrite Hfs1 in Hsrc. by rewrite lookup_delete_ne in Hsrc. }
  assert (fs w2 !! dest = fs w !! dest) as Hd2.
  { rewrite Hfs2, Hfs1. by simplify_map_eq. }
  apply Forall_app in Hnc as [Hpre _].
  split_and!.
  - intros x p fl He Hcall.
    apply elem_of_app in He as [He|He]; [unfold cleared in He; by elem_cases He|].
    apply elem_of_app in He as [He|He].
    + by destruct (copy_opens _ _ _ _ _ _ _ x p fl Hcopy He Hcall)
        as [->| ->].
    + inversion Hcommit; subst; by elem_cases He.
  - intros x fd c He Hcall.
    assert (x ∈ pre ++ [ev (Read sfd COPY_BUF_SIZE) 0 e1;
                        ev (Close dfd) 0 e2; ev (Close sfd) 0 e3]) as Hin.
    { apply elem_of_app in He as [He|He]; [unfold cleared in He; by elem_cases He|].
      apply elem_of_app in He as [He|He]; [done|].
      inversion Hcommit; subst; by elem_cases He. }
    destruct (copy_writes _ _ _ _ _ _ _ x fd c Hcopy Hin Hcall) as [x' Hx'].
    exists x'. apply elem_of_app; right. apply elem_of_app. by left.
  - intros Hchg. inversion Hcommit as
      [ ? Hfs | ? ? Hfs | ? ? ? Hfs | ? ? x2 ? ? ? Hfs | ? ? x2 ? ? ? Hfs ];
      subst; try (by rewrite Hfs, Hd2 in Hchg); exists x2; in_list.
  - intros x old new He Hcall.
    assert (x ∈ cevs) as Hin.
    { apply elem_of_app in He as [He|He]; [unfold cleared in He; by elem_cases He|].
      apply elem_of_app in He as [He|He]; [|done].
      elem_cases He. rewrite Forall_forall in Hpre. specialize (Hpre _ He).
      by rewrite Hcall in Hpre. }
    clear He.
    inversion Hcommit as
      [ ? Hfs | ? ? Hfs | ? ? ? Hfs | ? ? ? ? n Hn Hfs | ? ? ? ? n Hn Hfs ];
      subst; elem_cases Hin; simpl in Hcall; injection Hcall as <- <-;
      (split; [done|]); (split; [done|]).
    + eexists (cleared MAXPGPATH path file ru ++ pre), [],
        sfd, dfd, e1, e2, e3, _, _, data.
      split_and!; try done.
      * by rewrite <- !app_assoc.
      * apply Forall_app. split; [no_commit|done].
      * by left.
      * intros _. rewrite Hfs, Hfs2. by simplify_map_eq.
    + rewrite Hfs2, lookup_insert_eq in Hn. injection Hn as <-.
      eexists (cleared MAXPGPATH path file ru ++ pre), [_],
        sfd, dfd, e1, e2, e3, _, _, data.
      split_and!; try done.
      * by rewrite <- !app_assoc.
      * apply Forall_app. split; [no_commit|done].
      * right. eauto.
      * intros _. rewrite Hfs. by simplify_map_eq.
    + rewrite Hfs2, lookup_insert_eq in Hn. injection Hn as <-.
      eexists (cleared MAXPGPATH path file ru ++ pre), [_],
        sfd, dfd, e1, e2, e3, _, _, data.
      split_and!; try done.
      * by rewrite <- !app_assoc.
      * apply Forall_app. split; [no_commit|done].
      * right. eauto.
      * intros _. rewrite Hfs. by simplify_map_eq.
  - intros ->. inversion Hcommit as [ | | | | x0 x1 x2 x3 ]; subst.
    exists (cleared MAXPGPATH path file ru
              ++ (pre ++ [ev (Read sfd COPY_BUF_SIZE) 0 e1;
                          ev (Close dfd) 0 e2; ev (Close sfd) 0 e3])
              ++ [ev (FlushData temp) 0 x0; ev (FlushMeta temp) 0 x1]),
      x2, x3.
    by rewrite <- !app_assoc.
Qed.

(** Claim C3, as amended.  For a file name that is a base name other than
    the reserved temporary name, in every execution of [_PG_archive]: the
    final path is never opened and
    every [write] goes to the descriptor the exclusive create of the
    temporary path returned; the final path changes only if a successful
    rename of the temporary path to it was issued; a rename is issued only
    from the temporary to the final path, directly after the read that hit
    end of file, the successful close of both descriptors and the two
    successful flushes of the temporary file, with no commit call before
    them, and it moves the complete contents of the source; and true is
    returned only when the trace ends with the successful rename and the
    successful flush of the directory.  That no call names the final path
    before [durable_rename] is called, and that it is called only after
    [copy_file] returned true, is decided by basic_archive.c; the calls
    [durable_rename] issues are those of its model. *)
Theorem final_only_by_rename path file w b w' evs :
  let dest := destination_of MAXPGPATH path file in
  let temp := temp_of MAXPGPATH path in
  Names.base_name file = true →
  file ≠ TEMP_FILE_NAME →
  _PG_archive MAXPGPATH path file w = (b, w') →
  trace w' = trace w ++ evs →
  (∀ e p fl, e ∈ evs → ev_call e = Open p fl → p ≠ dest)
  ∧ (∀ e fd c, e ∈ evs → ev_call e = Write fd c →
       ∃ e', ev (Open temp O_RDWR_CREAT_EXCL) fd e' ∈ evs)
  ∧ (fs w' !! dest ≠ fs w !! dest → ∃ e, ev (Rename temp dest) 0 e ∈ evs)
  ∧ (∀ e old new, e ∈ evs → ev_call e = Rename old new →
       old = temp ∧ new = dest
       ∧ ∃ pre post sfd dfd e1 e2 e3 e4 e5 data,
           evs = pre
                 ++ [ev (Read sfd COPY_BUF_SIZE) 0 e1;
                     ev (Close dfd) 0 e2; ev (Close sfd) 0 e3;
                     ev (FlushData temp) 0 e4; ev (FlushMeta temp) 0 e5; e]
                 ++ post
           ∧ Forall (λ e', ¬ commit_call (ev_call e')) pre
           ∧ (post = [] ∨ ∃ r e6, post = [ev (FlushDir dest) r e6])
           ∧ fs w !! path = Some (RegularFile data)
           ∧ (ev_ret e = 0 → fs w' !! dest = Some (RegularFile data))
           ∧ (ev_ret e ≠ 0 → fs w' !! temp = Some (RegularFile data)))
  ∧ (b = Some true →
       ∃ pre e2 e3,
         evs = pre ++ [ev (Rename temp dest) 0 e2; ev (FlushDir dest) 0 e3]).
Proof.
  intros dest temp _ Hfile Hrun Htr. subst dest temp.
  destruct (archive_spec MAXPGPATH path file w)
    as (b0 & w0 & evs0 & reps & Hrun0 & Htr0 & _ & _ & Hout).
  rewrite Hrun in Hrun0. injection Hrun0 as -> <-.
  rewrite Htr in Htr0. apply app_inv_head in Htr0 as <-.
  inversion Hout as
    [ ? Hfs | ? ? Hfs | ? ? ? Hfs | ? ? ? ? Hfs | ? ? ? ? ? Hfs
    | w1 ru evs' ? ? Hconf Hlong Hdest Hfs1 Hfds1 Hcopy
    | w1 w2 ru evs' cevs creps ? Hconf Hlong Hdest Hfs1 Hfds1 Hcopy Hcommit
    | w1 w2 ru evs' cevs ? Hconf Hlong Hdest Hfs1 Hfds1 Hcopy Hcommit ];
    subst.
  1-5: split_and!;
    [ intros x p fl He; by elem_cases He
    | intros x fd c He; by elem_cases He
    | by rewrite Hfs
    | intros x old new He; by elem_cases He
    | done ].
  - pose proof (destination_not_temp _ _ _ Hlong Hfile) as Hdt.
    pose proof (destination_not_source _ _ _ Hlong) as Hdp.
    pose proof (copy_no_commit _ _ _ _ _ _ _ Hcopy) as Hnc.
    split_and!.
    + intros x p fl He Hcall.
      apply elem_of_app in He as [He|He];
        [unfold cleared in He; by elem_cases He|].
      by destruct (copy_opens _ _ _ _ _ _ _ x p fl Hcopy He Hcall)
        as [->| ->].
    + intros x fd c He Hcall.
      apply elem_of_app in He as [He|He];
        [unfold cleared in He; by elem_cases He|].
      destruct (copy_writes _ _ _ _ _ _ _ x fd c Hcopy He Hcall) as [x' Hx'].
      exists x'. apply elem_of_app. by right.
    + intros Hchg. exfalso. apply Hchg.
      rewrite (copy_frame _ _ _ _ _ _ _ _ Hcopy Hdt), Hfs1.
      by rewrite lookup_delete_ne.
    + intros x old new He Hcall.
      apply elem_of_app in He as [He|He];
        [unfold cleared in He; by elem_cases He|].
      rewrite Forall_forall in Hnc. specialize (Hnc _ He).
      by rewrite Hcall in Hnc.
    + done.
  - pose proof (destination_not_temp _ _ _ Hlong Hfile) as Hdt.
    pose proof (destination_not_source _ _ _ Hlong) as Hdp.
    pose proof (temp_not_source _ _ _ Hlong) as Htp.
    destruct (commit_after_copy path file w w1 w2 w' ru evs' (-1) cevs reps
                Hdt Hdp Htp Hdest Hfs1 Hcopy Hcommit)
      as (H1 & H2 & H3 & H4 & H5).
    split_and!; try done.
  - pose proof (destination_not_temp _ _ _ Hlong Hfile) as Hdt.
    pose proof (destination_not_source _ _ _ Hlong) as Hdp.
    pose proof (temp_not_source _ _ _ Hlong) as Htp.
    destruct (commit_after_copy path file w w1 w2 w' ru evs' 0 cevs []
                Hdt Hdp Htp Hdest Hfs1 Hcopy Hcommit)
      as (H1 & H2 & H3 & H4 & H5).
    split_and!; try done. intros _. by apply H5.
Qed.

End WithPlatform.

(** Claim C9.  [check_archive_directory] returns true for NULL and for
    the empty string without any system call; for a non-empty value it calls
    [stat] once and returns true exactly when that call reports a directory,
    setting the "does not exist" detail otherwise.  An unset or empty
    directory is therefore only detected by [_PG_archive], which returns
    false with "not specified" before any system call. *)
Theorem unset_directory_passes_the_check_hook :
  (∀ w, check_archive_directory None w = (true, w))
  ∧ (∀ w, check_archive_directory (Some "") w = (true, w))
  ∧ (∀ v w, first_is_nul v = false →
       ∃ r w' rs e,
         check_archive_directory (Some v) w = (r, w')
         ∧ trace w' = trace w ++ [ev (Stat v) rs e]
         ∧ fs w' = fs w
         ∧ (r = true ↔
            fs w !! v = Some Directory ∧ ∀ f, next_decision w ≠ Fail f)
         ∧ (r = false →
            log w' = log w
              ++ [{| rep_level := GUC_DETAIL;
                     rep_msg := msg_directory_does_not_exist;
                     rep_errno := None |}]))
  ∧ (∀ MAXPGPATH path file w,
       ¬ configured w →
       ∃ w', _PG_archive MAXPGPATH path file w = (Some false, w')
             ∧ log w' = log w ++ [warning msg_not_specified]
             ∧ trace w' = trace w
             ∧ fs w' = fs w).
Proof.
  split_and!; try done.
  - intros v w Hv. unfold check_archive_directory. rewrite Hv.
    unfold bind at 1.
    destruct (stat v w) as [[rs m] w1] eqn:Hst.
    apply stat_inv in Hst as (e & -> & Hst).
    destruct Hst as [(-> & -> & n & Hn & -> & Hok)
                    | [(-> & -> & -> & Hnone & Hok) | (-> & -> & f & -> & Hf)]].
    + destruct n as [data|]; cbn [mode_of S_ISDIR negb orb].
      * rewrite bool_decide_eq_false_2 by lia. cbn [orb].
        eexists false, _, 0, (errno_cell w).
        unfold bind, ereport, modify, ret.
        split_and!; [reflexivity|wsimpl; try done..].
        split; [done|]. intros [? _]. congruence.
      * rewrite bool_decide_eq_false_2 by lia. cbn [orb].
        eexists true, _, 0, (errno_cell w). unfold ret.
        split_and!; [reflexivity|wsimpl; try done..].
    + eexists false, _, (-1), ENOENT.
      unfold bind, ereport, modify, ret.
      split_and!; [reflexivity|wsimpl; try done..].
      split; [done|]. intros [? _]. congruence.
    + eexists false, _, (-1), (errno_of_fault f).
      unfold bind, ereport, modify, ret.
      split_and!; [reflexivity|wsimpl; try done..].
      split; [done|]. intros [_ Hok]. by destruct (Hok f).
  - intros MAXPGPATH path file w Hno.
    destruct (archive_spec MAXPGPATH path file w)
      as (b & w' & evs & reps & Hrun & Htr & Hlog & _ & Hout).
    inversion Hout; subst; try done.
    exists w'. rewrite app_nil_r in Htr. by split_and!.
Qed.

Section WithPlatform.

Variable MAXPGPATH : nat.

Import Names.






End WithPlatform.

Import Scenario Names Cases.


(** Claim C5, where the code departs from it.  A [read] that fails makes
    [copy_file] return false with the source and the destination descriptor
    both still in the table of open descriptors.  First [_PG_archive] is
    handed a directory as the file to archive: both files are opened and the
    [read] fails with EISDIR.  Then [copy_file] itself copies the file of
    the scenario and its first [read] fails with EIO. *)
Theorem failed_read_returns_with_both_files_open :
  ((archive_of_directory next_segment).1 = Some false
   ∧ log (archive_of_directory next_segment).2
     = [warning_m (msg_could_not_read wal_directory) EISDIR]
   ∧ fds (before []) = ∅
   ∧ fds (archive_of_directory next_segment).2 !! 0%nat
     = Some (reader wal_directory 0)
   ∧ fds (archive_of_directory next_segment).2 !! 1%nat
     = Some (writer (temp_of maxpgpath wal_directory) 0))
  ∧ ((copy first_read_fails).1 = Some false
     ∧ log (copy first_read_fails).2
       = [warning_m (msg_could_not_read source) EIO]
     ∧ fds (copy first_read_fails).2 !! 0%nat = Some (reader source 0)
     ∧ fds (copy first_read_fails).2 !! 1%nat = Some (writer copy_target 0)).
Proof. vm_compute. by split_and!. Qed.

(** Claim C2 as stated fails for the file name [archtemp]: the final path
    then is the temporary path.  [_PG_archive] is handed the directory of the
    scenario and that name; the [read] fails, the call returns false, and the
    file the exclusive create made is left under the final name. *)
Lemma reserved_name_leaves_a_final_file :
  (archive_of_directory TEMP_FILE_NAME).1 = Some false
  ∧ log (archive_of_directory TEMP_FILE_NAME).2
    = [warning_m
         (failure_message maxpgpath wal_directory TEMP_FILE_NAME ReadFails)
         EISDIR]
  ∧ fs (before [])
      !! destination_of maxpgpath wal_directory TEMP_FILE_NAME = None
  ∧ fs (archive_of_directory TEMP_FILE_NAME).2
      !! destination_of maxpgpath wal_directory TEMP_FILE_NAME
    = Some (RegularFile []).
Proof. vm_compute. by split_and!. Qed.

(** Claim C3 as stated fails for the file name [archtemp]: the final path
    comes into existence by the exclusive create of [copy_file], and no
    rename is issued. *)
Lemma reserved_name_is_created_by_open :
  destination_of maxpgpath wal_directory TEMP_FILE_NAME = "pg_wal/archtemp"
  ∧ fs (before []) !! "pg_wal/archtemp" = None
  ∧ fs (archive_of_directory TEMP_FILE_NAME).2 !! "pg_wal/archtemp"
    = Some (RegularFile [])
  ∧ trace (archive_of_directory TEMP_FILE_NAME).2
    = [ev (Stat "pg_wal/archtemp") (-1) ENOENT;
       ev (Unlink "pg_wal/archtemp") (-1) ENOENT;
       ev (Open "pg_wal" O_RDONLY) 0 ENOENT;
       ev (Open "pg_wal/archtemp" O_RDWR_CREAT_EXCL) 1 ENOENT;
       ev (Read 0 COPY_BUF_SIZE) (-1) EISDIR].
Proof. vm_compute. by split_and!. Qed.

(** Claim C6 as stated fails: a combination whose length with separator
    and terminator is exactly [MAXPGPATH] is refused. *)
Lemma path_at_the_limit_is_refused :
  (String.length long_directory
   + Nat.max (String.length wal) (String.length TEMP_FILE_NAME) + 2
   = maxpgpath)%nat
  ∧ (_PG_archive maxpgpath long_directory wal (before [])).1 = Some false
  ∧ log (_PG_archive maxpgpath long_directory wal (before [])).2
    = [warning msg_path_too_long]
  ∧ trace (_PG_archive maxpgpath long_directory wal (before [])).2 = [].
Proof. vm_compute. by split_and!. Qed.

Lemma failure_leaves_no_final_witness :
  fs (archive_of_directory next_segment).2
    !! destination_of maxpgpath wal_directory next_segment = None
  ∧ is_Some (fs (archive_of_directory next_segment).2
               !! temp_of maxpgpath wal_directory).
Proof.
  destruct (failure_leaves_no_final maxpgpath wal_directory next_segment
              (before []) (archive_of_directory next_segment).1
              (archive_of_directory next_segment).2 ReadFails
              (warning_m (msg_could_not_read wal_directory) EISDIR))
    as (_ & Hfinal & Htemp).
  - reflexivity.
  - vm_compute. discriminate.
  - apply surjective_pairing.
  - vm_compute. reflexivity.
  - vm_compute. reflexivity.
  - split; assumption.
Defined.

Lemma final_only_by_rename_witness :
  (∀ e p fl,
     e ∈ trace (archive_of_directory next_segment).2 →
     ev_call e = Open p fl →
     p ≠ destination_of maxpgpath wal_directory next_segment)
  ∧ (fs (archive_of_directory next_segment).2
       !! destination_of maxpgpath wal_directory next_segment
     ≠ fs (before [])
         !! destination_of maxpgpath wal_directory next_segment →
     ∃ e, ev (Rename (temp_of maxpgpath wal_directory)
                (destination_of maxpgpath wal_directory next_segment)) 0 e
          ∈ trace (archive_of_directory next_segment).2).
Proof.
  destruct (final_only_by_rename maxpgpath wal_directory next_segment
              (before []) (archive_of_directory next_segment).1
              (archive_of_directory next_segment).2
              (trace (archive_of_directory next_segment).2))
    as (Hopen & _ & Hfinal & _).
  - reflexivity.
  - vm_compute. discriminate.
  - apply surjective_pairing.
  - vm_compute. reflexivity.
  - split; assumption.
Defined.

Lemma existing_final_is_refused_witness :
  ∃ w2, _PG_archive maxpgpath source wal (archive []).2 = (Some false, w2)
        ∧ fs w2 = fs (archive []).2
        ∧ log w2 = log (archive []).2
            ++ [warning (msg_already_exists
                           (destination_of maxpgpath source wal))].
Proof.
  destruct (existing_final_is_refused maxpgpath source wal) as [_ Hsecond].
  apply (Hsecond (before [])).
  - apply injective_projections; vm_compute; reflexivity.
  - intros f. vm_compute. discriminate.
Defined.

Lemma path_length_check_witness :
  ∃ w', _PG_archive maxpgpath long_directory wal (before []) = (Some false, w')
        ∧ log w' = log (before []) ++ [warning msg_path_too_long]
        ∧ trace w' = trace (before [])
        ∧ fs w' = fs (before []).
Proof.
  assert (configured (before [])) as Hconf
    by (exists "/tmp/arch"; split; reflexivity).
  destruct (path_length_check maxpgpath long_directory wal (before []) Hconf)
    as (b & w' & evs & reps & Hrun & Htr & Hlog & Hiff & Hthen).
  assert (reps = [warning msg_path_too_long]) as Hreps.
  { apply Hiff. vm_compute. lia. }
  destruct (Hthen Hreps) as (-> & -> & Hfs & _).
  exists w'. rewrite Hlog, Htr, Hreps, app_nil_r. by split_and!.
Defined.

Lemma short_write_is_fatal_witness :
  (archive write_falls_short).1 = Some false
  ∧ log (archive write_falls_short).2
    = log (before write_falls_short)
        ++ [warning_m (msg_could_not_write (temp_of maxpgpath source)) ENOSPC].
Proof.
  destruct (short_write_is_fatal maxpgpath source wal
              (before write_falls_short)
              (archive write_falls_short).1 (archive write_falls_short).2
              (trace (archive write_falls_short).2)
              (ev (Write 1 11) 3 E0) 1 11)
    as (Hb & Hlog & _ & _).
  - apply surjective_pairing.
  - vm_compute. reflexivity.
  - apply (list_elem_of_lookup_2 _ 5%nat). vm_compute. reflexivity.
  - reflexivity.
  - simpl. lia.
  - split; [exact Hb | exact Hlog].
Defined.

End ArchiveFacts.

(** ** Facts about pg_popcount_avx512.c *)

Module PopcountFacts.

Import Popcount.

Lemma popcount_bits_range n x : 0 ≤ popcount_bits n x ≤ Z.of_nat n.
Proof.
  revert x. induction n as [|n IH]; intros x; [simpl; lia|].
  cbn [popcount_bits]. specialize (IH (Z.shiftr x 1)).
  destruct (Z.testbit x 0); simpl Z.b2z; lia.
Qed.

Lemma popcount_bits_split m n b acc :
  0 ≤ b < 2 ^ Z.of_nat m →
  popcount_bits (m + n) (Z.lor b (Z.shiftl acc (Z.of_nat m)))
  = popcount_bits m b + popcount_bits n acc.
Proof.
  revert b. induction m as [|m IH]; intros b Hb.
  - simpl in *. assert (b = 0) as -> by lia.
    by rewrite Z.shiftl_0_r, Z.lor_0_l.
  - cbn [Nat.add popcount_bits].
    rewrite Z.lor_spec, Z.shiftl_spec_low by lia.
    rewrite orb_false_r, Z.shiftr_lor.
    rewrite Z.shiftr_shiftl_l by lia.
    replace (Z.of_nat (S m) - 1) with (Z.of_nat m) by lia.
    rewrite IH; [lia|].
    rewrite Z.shiftr_div_pow2 by lia.
    rewrite Nat2Z.inj_succ, Z.pow_succ_r in Hb by lia.
    change (2 ^ 1) with 2. split.
    + apply Z.div_pos; lia.
    + apply Z.div_lt_upper_bound; lia.
Qed.

Lemma byte_val_range b : 0 ≤ byte_val b < 2 ^ 8.
Proof.
  unfold byte_val. pose proof (Byte.to_N_bounded b).
  change (2 ^ 8) with 256. lia.
Qed.

Lemma popcount_byte b : popcount_bits 8 (byte_val b) = Z.of_nat (count_ones b).
Proof. by destruct b. Qed.

Lemma popcount_reference_app a b :
  popcount_reference (a ++ b) = (popcount_reference a + popcount_reference b)%nat.
Proof.
  unfold popcount_reference. induction a as [|x a IH]; [done|].
  cbn [app fmap list_fmap sum_list] in *. lia.
Qed.

Lemma popcount_le_combine bs :
  popcount_bits (8 * length bs) (le_combine bs)
  = Z.of_nat (popcount_reference bs).
Proof.
  induction bs as [|b bs IH]; [done|].
  cbn [length le_combine foldr].
  replace (8 * S (length bs))%nat with (8 + 8 * length bs)%nat by lia.
  fold (le_combine bs).
  rewrite (popcount_bits_split 8 _ (byte_val b)) by apply byte_val_range.
  rewrite IH, popcount_byte.
  unfold popcount_reference. cbn [fmap list_fmap sum_list]. simpl. lia.
Qed.

Lemma lane_sum_app a b : lane_sum (a ++ b) = lane_sum a + lane_sum b.
Proof. induction a as [|x a IH]; simpl; [done|]. unfold lane_sum in *. lia. Qed.

Lemma popcount_reference_le bs :
  (popcount_reference bs ≤ 8 * length bs)%nat.
Proof.
  induction bs as [|b bs IH]; [done|].
  change (popcount_reference (b :: bs))
    with (count_ones b + popcount_reference bs)%nat.
  assert (count_ones b ≤ 8)%nat.
  { pose proof (popcount_bits_range 8 (byte_val b)) as H.
    rewrite popcount_byte in H. lia. }
  cbn [length]. lia.
Qed.

(** The lanes of [k] consecutive 8-byte groups count the bits of the first
    [8 * k] bytes. *)
Lemma lanes_popcount (buf : list byte) k :
  (8 * k ≤ length buf)%nat →
  lane_sum (popcount_bits 64
              <$> ((λ i, le_combine (take 8 (drop (8 * i) buf))) <$> seq 0 k))
  = Z.of_nat (popcount_reference (take (8 * k) buf)).
Proof.
  induction k as [|k IH]; intros Hk.
  - by rewrite Nat.mul_0_r, take_0.
  - rewrite seq_S, !fmap_app, lane_sum_app, IH by lia.
    replace (8 * S k)%nat with (8 * k + 8)%nat by lia.
    rewrite <- take_take_drop, popcount_reference_app.
    cbn [fmap list_fmap lane_sum foldr Nat.add].
    pose proof (popcount_le_combine (take 8 (drop (8 * k) buf))) as Hlane.
    rewrite length_take, length_drop in Hlane.
    replace (8 * (8 `min` (length buf - 8 * k)))%nat with 64%nat in Hlane
      by lia.
    rewrite Hlane. lia.
Qed.

Lemma loadu_popcount (buf : list byte) :
  (64 ≤ length buf)%nat →
  lane_sum (_mm512_popcnt_epi64 (_mm512_loadu_si512 buf))
  = Z.of_nat (popcount_reference (take 64 buf)).
Proof. intros H. apply (lanes_popcount buf 8). lia. Qed.

Lemma loadu_lanes (buf : list byte) :
  length (_mm512_popcnt_epi64 (_mm512_loadu_si512 buf)) = 8%nat.
Proof. unfold _mm512_popcnt_epi64, _mm512_loadu_si512. by rewrite !length_fmap. Qed.

Lemma popcnt_nonneg v : Forall (λ x, 0 ≤ x) (_mm512_popcnt_epi64 v).
Proof.
  unfold _mm512_popcnt_epi64. apply Forall_fmap, Forall_forall.
  intros x _. apply popcount_bits_range.
Qed.

Lemma lane_sum_nonneg v : Forall (λ x, 0 ≤ x) v → 0 ≤ lane_sum v.
Proof. induction 1; simpl; [done|]. unfold lane_sum in *. lia. Qed.

(** Lane-wise addition does not wrap while the lanes add up to less than
    2^64. *)
Lemma add_epi64_exact a b :
  length a = length b →
  Forall (λ x, 0 ≤ x) a → Forall (λ x, 0 ≤ x) b →
  lane_sum a + lane_sum b < 2 ^ 64 →
  Forall (λ x, 0 ≤ x) (_mm512_add_epi64 a b)
  ∧ lane_sum (_mm512_add_epi64 a b) = lane_sum a + lane_sum b
  ∧ length (_mm512_add_epi64 a b) = length a.
Proof.
  revert b. induction a as [|x a IH]; intros [|y b] Hlen Ha Hb Hsum;
    try discriminate; [done|].
  inversion Ha as [|? ? Hx Ha']; inversion Hb as [|? ? Hy Hb']; subst.
  pose proof (lane_sum_nonneg _ Ha'). pose proof (lane_sum_nonneg _ Hb').
  cbn [lane_sum foldr] in Hsum. fold (lane_sum a) (lane_sum b) in Hsum.
  destruct (IH b) as (Hnn & Hs & Hl); try done; [by injection Hlen|lia|].
  unfold _mm512_add_epi64 in *. cbn [zip_with lane_sum foldr length].
  fold (lane_sum (zip_with (λ x y, uint64 (x + y)) a b)).
  fold (lane_sum a) (lane_sum b).
  unfold uint64 at 1 3. rewrite Z.mod_small by lia.
  split_and!; [constructor; [lia|done] | lia | by rewrite Hl].
Qed.

Lemma reduce_add_exact v :
  Forall (λ x, 0 ≤ x) v → lane_sum v < 2 ^ 64 →
  _mm512_reduce_add_epi64 v = lane_sum v.
Proof.
  induction 1 as [|x v Hx Hv IH]; intros Hsum; [done|].
  pose proof (lane_sum_nonneg _ Hv).
  cbn [lane_sum foldr _mm512_reduce_add_epi64] in *.
  fold (lane_sum v) in *. fold (_mm512_reduce_add_epi64 v).
  rewrite IH by lia. unfold uint64. apply Z.mod_small. lia.
Qed.

Lemma size_t_of_int_small x : 0 ≤ x ≤ INT_MAX → size_t_of_int x = x.
Proof. unfold size_t_of_int, INT_MAX. intros H. apply Z.mod_small. lia. Qed.

Lemma int_of_size_t_small x : 0 ≤ x ≤ INT_MAX → int_of_size_t x = x.
Proof.
  unfold int_of_size_t, INT_MAX. intros H. rewrite Z.mod_small; lia.
Qed.

Lemma avx512_loop_spec fuel : ∀ accum (buf : list byte) bytes,
  length accum = 8%nat →
  Forall (λ x, 0 ≤ x) accum →
  0 ≤ bytes ≤ INT_MAX →
  (Z.to_nat bytes ≤ length buf)%nat →
  (Z.to_nat bytes ≤ fuel)%nat →
  lane_sum accum + 8 * bytes < 2 ^ 64 →
  ∃ accum' buf' bytes',
    avx512_loop fuel accum buf bytes = Some (accum', buf', bytes')
    ∧ 0 ≤ bytes' < sizeof_m512i
    ∧ (Z.to_nat bytes' ≤ length buf')%nat
    ∧ Forall (λ x, 0 ≤ x) accum'
    ∧ lane_sum accum' + 8 * bytes' < 2 ^ 64
    ∧ lane_sum accum' + Z.of_nat (popcount_reference (take (Z.to_nat bytes') buf'))
      = lane_sum accum + Z.of_nat (popcount_reference (take (Z.to_nat bytes) buf)).
Proof.
  induction fuel as [|fuel IH]; intros accum buf bytes Hlen Hnn Hb Hbuf Hfuel Hsum.
  - cbn [avx512_loop]. rewrite size_t_of_int_small by done.
    unfold sizeof_m512i. destruct (decide (64 ≤ bytes)); [lia|].
    exists accum, buf, bytes. split_and!; try done; lia.
  - cbn [avx512_loop]. rewrite size_t_of_int_small by done.
    unfold sizeof_m512i.
    destruct (decide (64 ≤ bytes)) as [Hge|Hlt].
    2:{ exists accum, buf, bytes. split_and!; try done; lia. }
    rewrite int_of_size_t_small by lia.
    set (cnt := _mm512_popcnt_epi64 (_mm512_loadu_si512 buf)).
    assert (lane_sum cnt = Z.of_nat (popcount_reference (take 64 buf)))
      as Hcnt by (apply loadu_popcount; lia).
    pose proof (popcount_reference_le (take 64 buf)) as Hle.
    rewrite length_take in Hle.
    destruct (add_epi64_exact accum cnt) as (Hnn' & Hsum' & Hlen');
      [by unfold cnt; rewrite loadu_lanes | done | apply popcnt_nonneg | lia |].
    destruct (IH (_mm512_add_epi64 accum cnt) (drop 64 buf) (bytes - 64))
      as (accum' & buf' & bytes' & Hrun & Hb' & Hbuf' & Hnn'' & Hs'' & Heq);
      try done; try lia.
    { rewrite length_drop. lia. }
    change (Z.to_nat 64) with 64%nat.
    exists accum', buf', bytes'.
    unfold sizeof_m512i in Hb'. split_and!; try done; try lia.
    rewrite Heq, Hsum', Hcnt.
    replace (Z.to_nat bytes) with (64 + Z.to_nat (bytes - 64))%nat by lia.
    rewrite <- (take_take_drop buf 64), popcount_reference_app. lia.
Qed.

Section WithFallback.

Variable pg_popcount_fast : list byte → Z → Z.

(** The contract of [pg_popcount_fast]: the number of 1-bits in the first
    [n] bytes of the buffer. *)
Hypothesis pg_popcount_fast_counts : ∀ buf n,
  0 ≤ n → (Z.to_nat n ≤ length buf)%nat →
  pg_popcount_fast buf n
  = Z.of_nat (popcount_reference (take (Z.to_nat n) buf)).

(** Claim C10.  For a buffer holding at least [bytes] bytes and
    [0 <= bytes <= INT_MAX], [pg_popcount_avx512] returns the number of
    1-bits in the first [bytes] bytes, given that [pg_popcount_fast] counts
    the 1-bits of the remainder it is handed. *)
Theorem pg_popcount_avx512_counts (buf : list byte) (bytes : Z) :
  0 ≤ bytes ≤ INT_MAX →
  (Z.to_nat bytes ≤ length buf)%nat →
  pg_popcount_avx512 pg_popcount_fast buf bytes
  = Some (Z.of_nat (popcount_reference (take (Z.to_nat bytes) buf))).
Proof.
  intros Hb Hbuf. unfold pg_popcount_avx512.
  pose proof (popcount_reference_le (take (Z.to_nat bytes) buf)) as Hle.
  rewrite length_take in Hle.
  assert (8 * bytes < 2 ^ 64) as Hsmall by (unfold INT_MAX in Hb; lia).
  assert (Forall (λ x, 0 ≤ x) _mm512_setzero_si512) as Hzero
    by (cbv [_mm512_setzero_si512 replicate];
        repeat (constructor; [lia|]); constructor).
  assert (lane_sum _mm512_setzero_si512 + 8 * bytes < 2 ^ 64) as Hstart
    by (change (lane_sum _mm512_setzero_si512) with 0; lia).
  destruct (avx512_loop_spec (Z.to_nat bytes) _mm512_setzero_si512 buf bytes
              eq_refl Hzero Hb Hbuf (le_n _) Hstart)
    as (accum & buf' & bytes' & -> & Hb' & Hbuf' & Hnn & Hs & Heq).
  change (lane_sum _mm512_setzero_si512) with 0 in Heq.
  rewrite pg_popcount_fast_counts by (done || lia).
  pose proof (lane_sum_nonneg _ Hnn).
  rewrite reduce_add_exact by (done || lia).
  rewrite Heq. unfold uint64. by rewrite Z.mod_small by lia.
Qed.

End WithFallback.

Lemma pg_popcount_avx512_counts_witness :
  pg_popcount_avx512 scalar_count sample 130
  = Some (Z.of_nat (popcount_reference (take (Z.to_nat 130) sample))).
Proof.
  apply (pg_popcount_avx512_counts scalar_count).
  - intros buf n _ _. reflexivity.
  - unfold INT_MAX. lia.
  - vm_compute. lia.
Defined.

End PopcountFacts.

(** ** An environment that never interferes

    With an empty script no call fails for a reason of the environment and
    no transfer is cut short: every call is decided by the files and the
    descriptors alone. *)

Module QuietFacts.

Import OS Sys BasicArchive Outcomes SysFacts ArchiveFacts.

Ltac qsimpl :=
  cbn [fs fds errno_cell script trace log archive_directory
       with_fs with_fds with_errno with_script with_trace with_log
       fst snd tail granted of_path of_pos of_writable writer reader].

Ltac quiet_prim :=
  unfold descriptor, seek, allocate, fails;
  unfold emit, set_errno;
  unfold bind, decide_next, modify, get, ret, touched, moved;
  cbn [fs fds errno_cell script trace log archive_directory
       with_fs with_fds with_errno with_script with_trace with_log
       fst snd tail granted].

Lemma open_rdonly_quiet p w data :
  script w = [] → fs w !! p = Some (RegularFile data) →
  OpenTransientFile p O_RDONLY w
  = (Z.of_nat (fresh (dom (fds w))),
     with_fds (<[fresh (dom (fds w)) := reader p 0]> (fds w))
       (touched (errno_cell w) (Open p O_RDONLY)
          (Z.of_nat (fresh (dom (fds w)))) w)).
Proof.
  destruct w as [fs0 fds0 e0 sc tr lg ad]. cbn [script fs]. intros -> Hp.
  unfold OpenTransientFile. quiet_prim. by rewrite Hp.
Qed.

Lemma open_excl_quiet p w :
  script w = [] → fs w !! p = None →
  OpenTransientFile p O_RDWR_CREAT_EXCL w
  = (Z.of_nat (fresh (dom (fds w))),
     with_fds (<[fresh (dom (fds w)) := writer p 0]> (fds w))
       (with_fs (<[p := RegularFile []]> (fs w))
          (touched (errno_cell w) (Open p O_RDWR_CREAT_EXCL)
             (Z.of_nat (fresh (dom (fds w)))) w))).
Proof.
  destruct w as [fs0 fds0 e0 sc tr lg ad]. cbn [script fs]. intros -> Hp.
  unfold OpenTransientFile. quiet_prim. by rewrite Hp.
Qed.

Lemma read_quiet fd c w o data :
  script w = [] → 0 ≤ fd → fds w !! Z.to_nat fd = Some o →
  fs w !! of_path o = Some (RegularFile data) →
  read fd c w
  = let buf := take (Z.to_nat c) (drop (of_pos o) data) in
    ((Z.of_nat (length buf), buf),
     with_fds (<[Z.to_nat fd := moved o (length buf)]> (fds w))
       (touched (errno_cell w) (Read fd c) (Z.of_nat (length buf)) w)).
Proof.
  destruct w as [fs0 fds0 e0 sc tr lg ad]. cbn [script fs fds].
  intros -> Hfd Ho Hp.
  unfold read. quiet_prim. rewrite decide_True by done. rewrite Ho.
  qsimpl. by rewrite Hp.
Qed.

Lemma write_quiet fd buf w p pos data :
  script w = [] → 0 ≤ fd → fds w !! Z.to_nat fd = Some (writer p pos) →
  fs w !! p = Some (RegularFile data) →
  write fd buf w
  = (Z.of_nat (length buf),
     with_fs (<[p := RegularFile (store pos buf data)]> (fs w))
       (with_fds (<[Z.to_nat fd := writer p (pos + length buf)]> (fds w))
          (touched (errno_cell w) (Write fd (Z.of_nat (length buf)))
             (Z.of_nat (length buf)) w))).
Proof.
  destruct w as [fs0 fds0 e0 sc tr lg ad]. cbn [script fs fds].
  intros -> Hfd Ho Hp.
  unfold write. quiet_prim. rewrite decide_True by done. rewrite Ho.
  qsimpl. rewrite Hp, firstn_all. reflexivity.
Qed.

Lemma close_quiet fd w o :
  script w = [] → 0 ≤ fd → fds w !! Z.to_nat fd = Some o →
  CloseTransientFile fd w
  = (0, with_fds (delete (Z.to_nat fd) (fds w))
          (touched (errno_cell w) (Close fd) 0 w)).
Proof.
  destruct w as [fs0 fds0 e0 sc tr lg ad]. cbn [script fs fds].
  intros -> Hfd Ho.
  unfold CloseTransientFile. quiet_prim. rewrite decide_True by done.
  rewrite Ho. by qsimpl.
Qed.

Lemma copy_loop_quiet src dst srcfd dstfd data fuel : ∀ k w,
  script w = [] →
  copying src dst srcfd dstfd data k w →
  (k ≤ length data)%nat → (length data - k < fuel)%nat →
  ∃ w', copy_loop fuel src dst srcfd dstfd w = (Some true, w')
        ∧ script w' = [].
Proof.
  induction fuel as [|fuel IH]; intros k w Hq Hc Hk Hf; [lia|].
  destruct Hc as [Hs Hd Hne Hnames Hso Hdo Hsd Hdd].
  cbn [copy_loop]. unfold bind at 1.
  rewrite (read_quiet srcfd COPY_BUF_SIZE w (reader src k) data) by done.
  cbv zeta. cbn [of_pos reader].
  set (buf := take (Z.to_nat COPY_BUF_SIZE) (drop k data)).
  set (w1 := with_fds _ _).
  assert (script w1 = []) as Hq1 by (subst w1; wsimpl; by rewrite Hq).
  destruct (decide (Z.of_nat (length buf) < 0)) as [|_]; [lia|].
  destruct (decide (Z.of_nat (length buf) = 0)) as [Hz|Hnz].
  { exists w1. by split. }
  assert (length buf ≤ length data - k)%nat as Hle.
  { subst buf. rewrite length_take, length_drop. lia. }
  unfold bind at 1, set_errno, modify.
  rewrite Nat2Z.id, firstn_all. unfold bind at 1.
  rewrite (write_quiet dstfd buf (with_errno E0 w1) dst k (take k data));
    [ | done | done | subst w1; by map_lookup | subst w1; by map_lookup ].
  set (w2 := with_fs _ _).
  destruct (decide (Z.of_nat (length buf) ≠ Z.of_nat (length buf)))
    as [Hbad|_]; [done|].
  apply (IH (k + length buf)%nat w2); try lia.
  - subst w2 w1. wsimpl. by rewrite Hq.
  - subst w2 w1. split; try done; try (by map_lookup).
    wsimpl. rewrite lookup_insert_eq. subst buf.
    by rewrite store_next.
Qed.

Lemma copy_file_quiet src dst w data :
  script w = [] →
  fs w !! src = Some (RegularFile data) → fs w !! dst = None →
  ∃ w', copy_file src dst w = (Some true, w') ∧ script w' = [].
Proof.
  intros Hq Hsrc Hdst.
  assert (src ≠ dst) as Hne by (intros ->; congruence).
  unfold copy_file. unfold bind at 1.
  rewrite (open_rdonly_quiet src w data) by done.
  set (sfd := fresh (dom (fds w))).
  assert (fds w !! sfd = None) as Hsfd.
  { apply not_elem_of_dom. apply is_fresh. }
  set (w1 := with_fds _ _).
  assert (script w1 = []) as Hq1 by (subst w1; wsimpl; by rewrite Hq).
  destruct (decide (Z.of_nat sfd < 0)) as [|_]; [lia|].
  unfold bind at 1.
  rewrite (open_excl_quiet dst w1) by (done || (subst w1; by wsimpl)).
  set (dfd := fresh (dom (fds w1))).
  assert (fds w1 !! dfd = None) as Hdfd.
  { apply not_elem_of_dom. apply is_fresh. }
  assert (dfd ≠ sfd) as Hfd.
  { intros Heq. rewrite Heq in Hdfd. subst w1. wsimpl.
    by rewrite lookup_insert_eq in Hdfd. }
  set (w2 := with_fds _ _).
  assert (script w2 = []) as Hq2 by (subst w2; wsimpl; by rewrite Hq1).
  destruct (decide (Z.of_nat dfd < 0)) as [|_]; [lia|].
  unfold bind at 1, get. unfold bind at 1.
  assert (copying src dst (Z.of_nat sfd) (Z.of_nat dfd) data 0 w2) as Hc.
  { subst w2 w1. split; try lia; try done; rewrite ?Nat2Z.id; by map_lookup. }
  assert (file_size w2 src = length data) as Hsize.
  { unfold file_size. by rewrite (cp_src_data _ _ _ _ _ _ _ Hc). }
  rewrite Hsize.
  destruct (copy_loop_quiet src dst (Z.of_nat sfd) (Z.of_nat dfd) data
              (S (length data)) 0 w2) as (w3 & Hrun & Hq3);
    [done | done | lia | lia |].
  destruct (copy_loop_spec src dst (Z.of_nat sfd) (Z.of_nat dfd) data
              (S (length data)) 0 w2 Hc)
    as (b & w3' & good & last & reps & content & Hrun' & _ & _ & _ & _ & _
        & _ & _ & _ & _ & Hend); [lia | lia |].
  rewrite Hrun in Hrun'. injection Hrun' as <- <-.
  specialize (Hend eq_refl).
  destruct Hend as [Hs Hd _ _ Hso Hdo _ _].
  rewrite Hrun. unfold bind at 1.
  rewrite (close_quiet (Z.of_nat dfd) w3 _ Hq3 Hd Hdo).
  destruct (decide (0 ≠ 0)) as [|_]; [done|].
  unfold bind at 1.
  set (w4 := with_fds _ _).
  assert (script w4 = []) as Hq4 by (subst w4; wsimpl; by rewrite Hq3).
  rewrite (close_quiet (Z.of_nat sfd) w4 (reader src (length data)));
    [ | done | done | subst w4; wsimpl; rewrite lookup_delete_ne; [done|lia] ].
  destruct (decide (0 ≠ 0)) as [|_]; [done|].
  eexists. split; [reflexivity|]. wsimpl. by rewrite Hq4.
Qed.

End QuietFacts.

(** ** Further properties of basic_archive.c *)

Module ArchiveExtras.

Import OS Sys BasicArchive Outcomes SysFacts ArchiveFacts QuietFacts.
Import Transfers Scenario Cases.

Lemma copy_loop_prefix src dst srcfd dstfd data fuel : ∀ k w b w',
  copying src dst srcfd dstfd data k w →
  copy_loop fuel src dst srcfd dstfd w = (b, w') →
  fs w' !! src = Some (RegularFile data)
  ∧ ∃ n, fs w' !! dst = Some (RegularFile (take n data)).
Proof.
  induction fuel as [|fuel IH]; intros k w b w' Hc Hrun.
  { cbn in Hrun. injection Hrun as <- <-.
    split; [by destruct Hc|]. exists k. by destruct Hc. }
  destruct Hc as [Hs Hd Hne Hnames Hso Hdo Hsd Hdd].
  cbn [copy_loop] in Hrun. unfold bind at 1 in Hrun.
  destruct (read srcfd COPY_BUF_SIZE w) as [[n buf] w1] eqn:Hr.
  apply (read_inv _ _ _ _ _ _ _ Hs Hso) in Hr
    as [(data0 & Hd0 & Hbuf & Hn & Hw1) | (Hn & Hbuf & e & Hw1)].
  - cbn [of_path of_pos reader] in Hd0, Hbuf.
    rewrite Hsd in Hd0. injection Hd0 as <-.
    destruct (decide (n < 0)) as [|_]; [lia|].
    destruct (decide (n = 0)) as [Hz|Hnz].
    { injection Hrun as <- <-. subst w1. wsimpl. eauto. }
    unfold bind at 1, set_errno, modify in Hrun.
    rewrite Hn, Nat2Z.id, firstn_all in Hrun. unfold bind at 1 in Hrun.
    set (w1' := with_errno E0 w1) in Hrun.
    destruct (write dstfd buf w1') as [r w2] eqn:Hw.
    apply (write_inv _ _ _ _ _ (writer dst k) (take k data)) in Hw;
      [ | done | subst w1' w1; by map_lookup | done
        | subst w1' w1; by map_lookup ].
    destruct Hw as [(Hr & f & Hw2) | (e & Hw2)].
    + destruct (decide (r ≠ Z.of_nat (length buf))) as [_|Hb]; [|lia].
      unfold bind, get, set_errno, ereport_file_access, modify, ret in Hrun.
      destruct (decide (errno_cell w2 = E0));
        injection Hrun as <- <-; subst w2 w1' w1; wsimpl; eauto.
    + cbv zeta in Hw2. destruct Hw2 as (Hr & _ & Hw2).
      cbn [of_path of_pos writer] in Hw2.
      set (g := granted (next_decision w1') (length buf)) in *.
      assert (store k (take g buf) (take k data)
              = take (k + length (take g buf)) data) as Hst.
      { rewrite Hbuf, take_take. apply store_next. }
      rewrite Hst in Hw2.
      destruct (decide (r ≠ Z.of_nat (length buf))) as [_|Heq].
      * unfold bind, get, set_errno, ereport_file_access, modify, ret in Hrun.
        destruct (decide (errno_cell w2 = E0));
          injection Hrun as <- <-; subst w2 w1' w1; wsimpl;
          rewrite lookup_insert_eq, lookup_insert_ne by done; eauto.
      * assert (length (take g buf) = length buf) as Hlen by lia.
        rewrite Hlen in Hw2.
        apply (IH (k + length buf)%nat w2 b w'); [|done].
        subst w2 w1' w1. clear Hst Hlen Hr Heq Hrun.
        split; try done; by map_lookup.
  - subst n. destruct (decide (-1 < 0)) as [_|]; [|lia].
    unfold bind, ereport_file_access, modify, ret in Hrun.
    injection Hrun as <- <-. subst w1. wsimpl. eauto.
Qed.

Lemma granted_le d n : (granted d n ≤ n)%nat.
Proof. destruct d; simpl; lia. Qed.

Lemma copy_loop_calls src dst srcfd dstfd data fuel : ∀ k w b w',
  copying src dst srcfd dstfd data k w →
  copy_loop fuel src dst srcfd dstfd w = (b, w') →
  ∃ evs, trace w' = trace w ++ evs ∧ Forall (copy_call src dst) evs.
Proof.
  induction fuel as [|fuel IH]; intros k w b w' Hc Hrun.
  { cbn in Hrun. injection Hrun as <- <-. exists []. by rewrite app_nil_r. }
  destruct Hc as [Hs Hd Hne Hnames Hso Hdo Hsd Hdd].
  cbn [copy_loop] in Hrun. unfold bind at 1 in Hrun.
  destruct (read srcfd COPY_BUF_SIZE w) as [[n buf] w1] eqn:Hr.
  assert (copy_call src dst (ev (Read srcfd COPY_BUF_SIZE) n (errno_cell w)))
    as Hread by done.
  apply (read_inv _ _ _ _ _ _ _ Hs Hso) in Hr
    as [(data0 & Hd0 & Hbuf & Hn & Hw1) | (Hn & Hbuf & e & Hw1)].
  - cbn [of_path of_pos reader] in Hd0, Hbuf.
    rewrite Hsd in Hd0. injection Hd0 as <-.
    destruct (decide (n < 0)) as [|_]; [lia|].
    destruct (decide (n = 0)) as [Hz|Hnz].
    { injection Hrun as <- <-. subst w1. wsimpl. eexists [_].
      split; [reflexivity|]. by constructor. }
    unfold bind at 1, set_errno, modify in Hrun.
    rewrite Hn, Nat2Z.id, firstn_all in Hrun. unfold bind at 1 in Hrun.
    set (w1' := with_errno E0 w1) in Hrun.
    assert (0 < Z.of_nat (length buf) ≤ COPY_BUF_SIZE) as Hlen.
    { split; [lia|]. rewrite Hbuf, length_take.
      pose proof (granted_le (next_decision w) (Z.to_nat COPY_BUF_SIZE)).
      unfold COPY_BUF_SIZE in *. lia. }
    destruct (write dstfd buf w1') as [r w2] eqn:Hw.
    apply (write_inv _ _ _ _ _ (writer dst k) (take k data)) in Hw;
      [ | done | subst w1' w1; by map_lookup | done
        | subst w1' w1; by map_lookup ].
    destruct Hw as [(Hr & f & Hw2) | (e & Hw2)].
    + destruct (decide (r ≠ Z.of_nat (length buf))) as [_|Hb]; [|lia].
      unfold bind, get, set_errno, ereport_file_access, modify, ret in Hrun.
      destruct (decide (errno_cell w2 = E0));
        injection Hrun as <- <-; subst w2 w1' w1; wsimpl;
        rewrite <- app_assoc; eexists [_; _]; (split; [reflexivity|]);
        (constructor; [done|constructor; [exact Hlen|constructor]]).
    + cbv zeta in Hw2. destruct Hw2 as (Hr & _ & Hw2).
      cbn [of_path of_pos writer] in Hw2.
      set (g := granted (next_decision w1') (length buf)) in *.
      assert (store k (take g buf) (take k data)
              = take (k + length (take g buf)) data) as Hst.
      { rewrite Hbuf, take_take. apply store_next. }
      rewrite Hst in Hw2.
      destruct (decide (r ≠ Z.of_nat (length buf))) as [_|Heq].
      * unfold bind, get, set_errno, ereport_file_access, modify, ret in Hrun.
        destruct (decide (errno_cell w2 = E0));
          injection Hrun as <- <-; subst w2 w1' w1; wsimpl;
          rewrite <- app_assoc; eexists [_; _]; (split; [reflexivity|]);
          (constructor; [done|constructor; [exact Hlen|constructor]]).
      * assert (length (take g buf) = length buf) as Hlen' by lia.
        rewrite Hlen' in Hw2.
        destruct (IH (k + length buf)%nat w2 b w') as (evs & Htr & Hall);
          [|done|].
        { subst w2 w1' w1. clear Hst Hlen' Hr Heq Hrun.
          split; try done; by map_lookup. }
        exists (ev (Read srcfd COPY_BUF_SIZE) n (errno_cell w)
                :: ev (Write dstfd (Z.of_nat (length buf))) r e :: evs).
        split; [|constructor; [done|constructor; [exact Hlen|done]]].
        rewrite Htr. subst w2 w1' w1. wsimpl. by rewrite <- !app_assoc.
  - subst n. destruct (decide (-1 < 0)) as [_|]; [|lia].
    unfold bind, ereport_file_access, modify, ret in Hrun.
    injection Hrun as <- <-. subst w1. wsimpl. eexists [_].
    split; [reflexivity|]. by constructor.
Qed.

Lemma close_effect fd w r w' :
  CloseTransientFile fd w = (r, w') →
  fs w' = fs w ∧ ∃ e, trace w' = trace w ++ [ev (Close fd) r e].
Proof.
  destruct w as [fs0 fds0 e0 sc tr lg ad]. unfold CloseTransientFile.
  run_prim. intros H.
  destruct sc as [|[|f|k f] sc]; cbn in H;
    destruct (decide (0 ≤ fd)); try destruct (fds0 !! Z.to_nat fd);
    cbn in H; inversion H; subst; cbn; eauto.
Qed.

(** How [copy_file] runs on a regular source and a free destination name:
    it gives up at one of its two [open] calls, or it enters the loop with
    both files open at offset 0 and issues nothing but [close] calls
    afterwards. *)
Lemma copy_file_walk src dst w b w' data :
  fs w !! src = Some (RegularFile data) →
  fs w !! dst = None →
  copy_file src dst w = (b, w') →
  (fs w' = fs w
   ∧ ∃ evs, trace w' = trace w ++ evs ∧ Forall (copy_call src dst) evs)
  ∨ ∃ sfd dfd w2 l w3 e0 e1 closes,
      copying src dst sfd dfd data 0 w2
      ∧ trace w2 = trace w ++ [open_src src sfd e0; open_dst dst dfd e1]
      ∧ copy_loop (S (length data)) src dst sfd dfd w2 = (l, w3)
      ∧ fs w' = fs w3
      ∧ trace w' = trace w3 ++ closes
      ∧ Forall (λ e, ∃ fd, ev_call e = Close fd) closes.
Proof.
  intros Hsrc Hdst Hrun.
  assert (src ≠ dst) as Hne by (intros ->; congruence).
  unfold copy_file in Hrun. unfold bind at 1 in Hrun.
  destruct (OpenTransientFile src O_RDONLY w) as [r0 w1] eqn:Ho1.
  apply open_rdonly_inv in Ho1
    as [(sfd & n & Hr0 & Hsfd & Hsrc' & Hw1) | (Hr0 & e & Hw1)].
  2:{ destruct (decide (r0 < 0)) as [_|]; [|lia].
      unfold bind, ereport_file_access, modify, ret in Hrun.
      injection Hrun as <- <-. subst w1. wsimpl. left. split; [done|].
      eexists [_]. split; [reflexivity|].
      constructor; [by left|constructor]. }
  destruct (decide (r0 < 0)) as [|_]; [lia|].
  unfold bind at 1 in Hrun.
  destruct (OpenTransientFile dst O_RDWR_CREAT_EXCL w1) as [r1 w2] eqn:Ho2.
  apply open_excl_inv in Ho2
    as [(dfd & Hr1 & Hdfd & Hdst' & Hw2) | (Hr1 & e & Hw2)].
  2:{ destruct (decide (r1 < 0)) as [_|]; [|lia].
      unfold bind, ereport_file_access, modify, ret in Hrun.
      injection Hrun as <- <-. subst w2 w1. wsimpl. left. split; [done|].
      rewrite <- app_assoc. eexists [_; _]. split; [reflexivity|].
      constructor; [by left|constructor; [by right|constructor]]. }
  destruct (decide (r1 < 0)) as [|_]; [lia|].
  unfold bind at 1, get in Hrun. unfold bind at 1 in Hrun.
  assert (sfd ≠ dfd) as Hfd.
  { intros ->. subst w1. wsimpl. by rewrite lookup_insert_eq in Hdfd. }
  assert (copying src dst r0 r1 data 0 w2) as Hc.
  { subst w2 w1 r0 r1. split; try lia; try done; rewrite ?Nat2Z.id;
      by map_lookup. }
  assert (file_size w2 src = length data) as Hsize.
  { unfold file_size. by rewrite (cp_src_data _ _ _ _ _ _ _ Hc). }
  rewrite Hsize in Hrun.
  destruct (copy_loop (S (length data)) src dst r0 r1 w2)
    as [l w3] eqn:Hloop.
  right. exists r0, r1, w2, l, w3, (errno_cell w), (errno_cell w1).
  assert (trace w2
          = trace w ++ [open_src src r0 (errno_cell w);
                        open_dst dst r1 (errno_cell w1)]) as Htr2.
  { subst w2 w1. wsimpl. by rewrite <- app_assoc. }
  destruct l as [[|]|];
    try (injection Hrun as <- <-; exists []; rewrite app_nil_r;
         by split_and!).
  unfold bind at 1 in Hrun.
  destruct (CloseTransientFile r1 w3) as [c1 w4] eqn:Hc1.
  destruct (close_effect _ _ _ _ Hc1) as (Hfs4 & ec1 & Htr4).
  destruct (decide (c1 ≠ 0)).
  { unfold bind, ereport_file_access, modify, ret in Hrun.
    injection Hrun as <- <-. wsimpl. eexists [_].
    split_and!; try done. repeat constructor. cbn. eauto. }
  unfold bind at 1 in Hrun.
  destruct (CloseTransientFile r0 w4) as [c2 w5] eqn:Hc2.
  destruct (close_effect _ _ _ _ Hc2) as (Hfs5 & ec2 & Htr5).
  assert (trace w5 = trace w3 ++ [ev (Close r1) c1 ec1; ev (Close r0) c2 ec2])
    as Htr by (by rewrite Htr5, Htr4, <- app_assoc).
  assert (Forall (λ e, ∃ fd, ev_call e = Close fd)
            [ev (Close r1) c1 ec1; ev (Close r0) c2 ec2]) as Hcl
    by (repeat constructor; cbn; eauto).
  destruct (decide (c2 ≠ 0)).
  { unfold bind, ereport_file_access, modify, ret in Hrun.
    injection Hrun as <- <-. wsimpl. eexists [_; _].
    split_and!; try done. by rewrite Hfs5, Hfs4. }
  injection Hrun as <- <-. eexists [_; _].
  split_and!; try done. by rewrite Hfs5, Hfs4.
Qed.

(** Property X1.  When [copy_file] returns true the destination did not
    exist before, it now holds exactly the bytes of the source, every other
    file is as it was, both descriptors have been closed and nothing was
    reported. *)
Theorem copy_file_copies src dst w w' :
  copy_file src dst w = (Some true, w') →
  ∃ data,
    fs w !! src = Some (RegularFile data)
    ∧ fs w !! dst = None
    ∧ fs w' = <[dst := RegularFile data]> (fs w)
    ∧ fds w' = fds w
    ∧ log w' = log w.
Proof.
  intros Hrun.
  destruct (copy_file_spec src dst w)
    as (b & w0 & evs & reps & Hrun0 & _ & Hlog & _ & Hcopy).
  rewrite Hrun in Hrun0. injection Hrun0 as <- <-.
  assert (reps = []) as -> by (by inversion Hcopy).
  destruct (copy_complete _ _ _ _ _ _ Hcopy)
    as (pre & sfd & dfd & e1 & e2 & e3 & data & _ & Hsrc & Hdst & Hfs & Hfds).
  exists data. rewrite app_nil_r in Hlog. by split_and!.
Qed.

(** Property X2.  [copy_file] never overwrites: when the destination name
    exists (file or directory) it returns false, leaves every file as it
    was and reports one warning, "could not open file", for the source or
    for the destination. *)
Theorem copy_file_never_overwrites src dst w :
  is_Some (fs w !! dst) →
  ∃ w' r,
    copy_file src dst w = (Some false, w')
    ∧ fs w' = fs w
    ∧ log w' = log w ++ [r]
    ∧ rep_level r = WARNING
    ∧ (rep_msg r = msg_could_not_open src
       ∨ rep_msg r = msg_could_not_open dst).
Proof.
  intros [n Hn].
  destruct (copy_file_spec src dst w)
    as (b & w' & evs & reps & Hrun & _ & Hlog & _ & Hcopy).
  inversion Hcopy; subst; try congruence.
  - eexists w', _. split_and!; try done. by left.
  - eexists w', _. split_and!; try done. by right.
Qed.

(** Property X3.  Whatever [copy_file] returns, the only name whose entry
    it can change is the destination: every other file, the source
    included, is as it was, and [archive_directory] is not assigned. *)
Theorem copy_file_touches_only_dst src dst w b w' :
  copy_file src dst w = (b, w') →
  (∀ p, p ≠ dst → fs w' !! p = fs w !! p)
  ∧ fs w' !! src = fs w !! src
  ∧ archive_directory w' = archive_directory w.
Proof.
  intros Hrun.
  destruct (copy_file_spec src dst w)
    as (b0 & w0 & evs & reps & Hrun0 & _ & _ & Had & Hcopy).
  rewrite Hrun in Hrun0. injection Hrun0 as -> <-.
  split_and!; [|
    |done].
  - intros p Hp. by eapply copy_frame.
  - destruct (decide (src = dst)) as [->|Hne]; [|by eapply copy_frame].
    inversion Hcopy as
      [ ? Hfs | ? ? ? Hfs | ? ? ? ? ? ? ? ? [n Hn] Hnone | ? ? ? ? ? ? ? ? Hn Hnone
      | ? ? ? ? ? ? ? ? ? Hn Hnone | ? ? ? ? ? ? ? ? ? Hn Hnone ]; subst;
      try (by rewrite Hfs); congruence.
Qed.

(** Property X4.  Whatever happens during the copy, short reads, short
    writes and failures included, the destination either does not exist or
    holds a prefix of the source: [copy_file] never leaves bytes that are
    not the source's. *)
Theorem destination_holds_a_prefix src dst w b w' data :
  fs w !! src = Some (RegularFile data) →
  fs w !! dst = None →
  copy_file src dst w = (b, w') →
  fs w' !! dst = None ∨ ∃ n, fs w' !! dst = Some (RegularFile (take n data)).
Proof.
  intros Hsrc Hdst Hrun.
  destruct (copy_file_walk _ _ _ _ _ _ Hsrc Hdst Hrun)
    as [(Hfs & _)
       | (sfd & dfd & w2 & l & w3 & e0 & e1 & closes
          & Hc & _ & Hloop & Hfs & _)].
  - left. by rewrite Hfs.
  - right. destruct (copy_loop_prefix _ _ _ _ _ _ _ _ _ _ Hc Hloop)
      as (_ & n & Hn).
    exists n. by rewrite Hfs.
Qed.

(** Property X5.  A source that does not exist: [copy_file] returns false
    after the one failed [open], creates no destination, leaves the
    descriptor table alone and reports "could not open file" for the source
    with the [errno] of the call, which is ENOENT unless the environment
    failed the call for a reason of its own. *)
Theorem copy_file_missing_source src dst w :
  fs w !! src = None →
  ∃ e w',
    copy_file src dst w = (Some false, w')
    ∧ fs w' = fs w
    ∧ fds w' = fds w
    ∧ trace w' = trace w ++ [ev (Open src O_RDONLY) (-1) e]
    ∧ log w' = log w ++ [warning_m (msg_could_not_open src) e]
    ∧ ((∀ f, next_decision w ≠ Fail f) → e = ENOENT).
Proof.
  intros Hsrc. destruct w as [fs0 fds0 e0 sc tr lg ad]. cbn [fs] in Hsrc.
  unfold copy_file, OpenTransientFile, next_decision.
  unfold bind, decide_next, fails, emit, set_errno, modify, get, ret,
    ereport_file_access.
  cbn [fs fds errno_cell script trace log archive_directory
       with_fs with_fds with_errno with_script with_trace with_log].
  destruct sc as [|[|f|k f] sc];
    cbn [fs fds errno_cell script trace log archive_directory head default
         with_fs with_fds with_errno with_script with_trace with_log
         o_creat O_RDONLY fst snd];
    rewrite ?Hsrc;
    cbn [fs fds errno_cell script trace log archive_directory head default
         with_fs with_fds with_errno with_script with_trace with_log
         o_creat O_RDONLY fst snd];
    (destruct (decide (-1 < 0)) as [_|]; [|lia]);
    eexists _, _; (split_and!; [reflexivity|try done..]).
  intros Hok. by destruct (Hok f).
Qed.

(** Property X6.  In an environment that never interferes [copy_file]
    succeeds whenever the source is a regular file and the destination name
    is free: the loop ends on fuel to spare, the destination holds the whole
    source, both descriptors are closed and nothing is reported. *)
Theorem undisturbed_copy_succeeds src dst w data :
  script w = [] →
  fs w !! src = Some (RegularFile data) →
  fs w !! dst = None →
  ∃ w', copy_file src dst w = (Some true, w')
        ∧ fs w' = <[dst := RegularFile data]> (fs w)
        ∧ fds w' = fds w
        ∧ log w' = log w.
Proof.
  intros Hq Hsrc Hdst.
  destruct (copy_file_quiet src dst w data Hq Hsrc Hdst) as (w' & Hrun & _).
  exists w'. split; [done|].
  destruct (copy_file_spec src dst w)
    as (b & w0 & evs & reps & Hrun0 & _ & Hlog & _ & Hcopy).
  rewrite Hrun in Hrun0. injection Hrun0 as <- <-.
  assert (reps = []) as -> by (by inversion Hcopy).
  destruct (copy_complete _ _ _ _ _ _ Hcopy)
    as (pre & sfd & dfd & e1 & e2 & e3 & data' & _ & Hsrc' & _ & Hfs & Hfds).
  rewrite Hsrc in Hsrc'. injection Hsrc' as <-.
  rewrite app_nil_r in Hlog. by split_and!.
Qed.

(** Property X19.  Every failure of [copy_file] after the source was
    opened, other than a failed [close] of the source itself, returns with
    the source descriptor still open: the early returns skip
    [CloseTransientFile]. *)
Theorem failed_copy_leaks_the_source_descriptor src dst w w' r :
  copy_file src dst w = (Some false, w') →
  log w' = log w ++ [r] →
  rep_msg r ≠ msg_could_not_open src →
  rep_msg r ≠ msg_could_not_close src →
  ∃ fd, fds w !! fd = None ∧ is_Some (fds w' !! fd).
Proof.
  intros Hrun Hlogr Hopen Hclose.
  destruct (copy_file_spec src dst w)
    as (b & w0 & evs & reps & Hrun0 & _ & Hlog & _ & Hcopy).
  rewrite Hrun in Hrun0. injection Hrun0 as <- <-.
  rewrite Hlogr in Hlog. apply app_inv_head in Hlog as <-.
  inversion Hcopy as
    [ | sfd ? ? ? Hnone Hfds
    | sfd dfd ? ? ? ? ? ? ? ? ? Hnone ? Hsome
    | sfd dfd ? ? ? ? ? ? ? ? ? Hnone ? Hsome
    | | ]; subst; try done.
  - exists sfd. split; [done|]. rewrite Hfds, lookup_insert_eq. eauto.
  - by exists sfd.
  - by exists sfd.
Qed.

(** Property X20.  [copy_file] issues no system call but these, whatever
    the environment does: the [open] of the source for reading, the
    exclusive create of the destination, a [read] that asks for exactly
    [COPY_BUF_SIZE] bytes, a [write] that submits at least one byte and at
    most [COPY_BUF_SIZE], and a [close].  The transfers stay within the
    buffer. *)
Theorem transfers_stay_within_the_buffer src dst w b w' data :
  fs w !! src = Some (RegularFile data) →
  fs w !! dst = None →
  copy_file src dst w = (b, w') →
  ∃ evs, trace w' = trace w ++ evs ∧ Forall (copy_call src dst) evs.
Proof.
  intros Hsrc Hdst Hrun.
  destruct (copy_file_walk _ _ _ _ _ _ Hsrc Hdst Hrun)
    as [(_ & evs & Htr & Hall)
       | (sfd & dfd & w2 & l & w3 & e0 & e1 & closes
          & Hc & Htr2 & Hloop & _ & Htr & Hcl)].
  - by exists evs.
  - destruct (copy_loop_calls _ _ _ _ _ _ _ _ _ _ Hc Hloop)
      as (evs & Htr3 & Hall).
    exists ([open_src src sfd e0; open_dst dst dfd e1] ++ evs ++ closes).
    split; [by rewrite Htr, Htr3, Htr2, <- !app_assoc|].
    rewrite !Forall_app. split_and!; [|done|].
    + constructor; [by left|constructor; [by right|constructor]].
    + eapply Forall_impl; [exact Hcl|].
      intros e (fd & He). unfold copy_call. by rewrite He.
Qed.

Section WithPlatform.

Variable MAXPGPATH : nat.

Lemma archive_frame path file w w' b evs reps p :
  archive_outcome MAXPGPATH path file w w' b evs reps →
  p ≠ destination_of MAXPGPATH path file →
  p ≠ temp_of MAXPGPATH path →
  fs w' !! p = fs w !! p.
Proof.
  intros Hout Hpd Hpt.
  inversion Hout as
    [ ? Hfs | ? ? Hfs | ? ? ? Hfs | ? ? ? ? Hfs | ? ? ? ? ? Hfs
    | w1 ru evs' ? ? Hconf Hlong Hdest Hfs1 Hfds1 Hcopy
    | w1 w2 ru evs' cevs ? ? Hconf Hlong Hdest Hfs1 Hfds1 Hcopy Hcommit
    | w1 w2 ru evs' cevs ? Hconf Hlong Hdest Hfs1 Hfds1 Hcopy Hcommit ];
    subst; try (by rewrite Hfs).
  - rewrite (copy_frame _ _ _ _ _ _ _ _ Hcopy Hpt), Hfs1.
    by rewrite lookup_delete_ne.
  - assert (fs w2 !! p = fs w !! p) as H2.
    { rewrite (copy_frame _ _ _ _ _ _ _ _ Hcopy Hpt), Hfs1.
      by rewrite lookup_delete_ne. }
    inversion Hcommit as [ ? Hfs | ? ? Hfs | ? ? ? Hfs | ? ? ? ? ? ? Hfs | ];
      subst; rewrite Hfs; by simplify_map_eq.
  - assert (fs w2 !! p = fs w !! p) as H2.
    { rewrite (copy_frame _ _ _ _ _ _ _ _ Hcopy Hpt), Hfs1.
      by rewrite lookup_delete_ne. }
    inversion Hcommit as [ | | | | ? ? ? ? ? ? Hfs ];
      subst; rewrite Hfs; by simplify_map_eq.
Qed.

(** Property X7.  [_PG_archive] can change the entries of two names only,
    the destination and the temporary file it computed: every other file is
    as it was, the file being archived is never modified or removed, and
    [archive_directory] is not assigned. *)
Theorem archive_touches_only_its_two_paths path file w b w' :
  _PG_archive MAXPGPATH path file w = (b, w') →
  (∀ p, p ≠ destination_of MAXPGPATH path file →
        p ≠ temp_of MAXPGPATH path →
        fs w' !! p = fs w !! p)
  ∧ fs w' !! path = fs w !! path
  ∧ archive_directory w' = archive_directory w.
Proof.
  intros Hrun.
  destruct (archive_spec MAXPGPATH path file w)
    as (b0 & w0 & evs & reps & Hrun0 & _ & _ & Had & Hout).
  rewrite Hrun in Hrun0. injection Hrun0 as -> <-.
  split_and!; try done.
  - intros p Hpd Hpt. by eapply archive_frame.
  - destruct (path_too_long MAXPGPATH path file) eqn:Hlong.
    + inversion Hout as [ ? Hfs | ? ? Hfs | | | | | | ];
        subst; try congruence; by rewrite Hfs.
    + eapply archive_frame; [done| |].
      * intros H. by eapply destination_not_source.
      * intros H. by eapply temp_not_source.
Qed.

(** Property X8.  [_PG_archive] reports nothing when it returns true and
    exactly one message, a WARNING, when it returns false; it never returns
    without a result. *)
Theorem one_warning_per_failure path file w b w' :
  _PG_archive MAXPGPATH path file w = (b, w') →
  ∃ reps,
    log w' = log w ++ reps
    ∧ (b = Some true ∧ reps = []
       ∨ b = Some false
         ∧ ∃ m oe, reps = [{| rep_level := WARNING; rep_msg := m;
                              rep_errno := oe |}]).
Proof.
  intros Hrun.
  destruct (archive_spec MAXPGPATH path file w)
    as (b0 & w0 & evs & reps & Hrun0 & _ & Hlog & _ & Hout).
  rewrite Hrun in Hrun0. injection Hrun0 as -> <-.
  exists reps. split; [done|].
  inversion Hout as
    [ | | | | | ? ? ? ? ? ? ? ? ? ? Hcopy
    | ? ? ? ? ? ? ? ? ? ? ? ? Hcopy Hcommit | ]; subst;
    try (left; by split); right; (split; [done|]);
    unfold warning, warning_m; eauto.
  - apply copy_failure_report in Hcopy as (m & e & ->). unfold warning_m. eauto.
  - apply commit_failure_report in Hcommit as (m & e & ->). unfold reported.
    eauto.
Qed.

(** Property X9.  Once the length check has passed, neither [snprintf]
    truncates: the destination is [path/file], the temporary name is
    [path/archtemp], and each fits its buffer with room to spare. *)
Theorem checked_paths_are_not_truncated path file :
  path_too_long MAXPGPATH path file = false →
  destination_of MAXPGPATH path file = path +:+ "/" +:+ file
  ∧ temp_of MAXPGPATH path = path +:+ "/" +:+ TEMP_FILE_NAME
  ∧ (String.length (destination_of MAXPGPATH path file) + 1 < MAXPGPATH)%nat
  ∧ (String.length (temp_of MAXPGPATH path) + 1 < MAXPGPATH)%nat.
Proof.
  intros Hlong.
  rewrite (destination_fits _ _ _ Hlong), (temp_fits _ _ _ Hlong).
  apply bool_decide_eq_false in Hlong.
  rewrite !length_append. simpl in *. split_and!; try done; lia.
Qed.

(** Property X10.  The file name [archtemp] is not rejected: the
    destination then is the temporary file itself, so a copy that fails at a
    [read], at a [write] or at the [close] of the temporary file leaves its
    partial output under the final name although [_PG_archive] returned
    false. *)
Theorem reserved_name_exposes_partial_copy path w w' r :
  _PG_archive MAXPGPATH path TEMP_FILE_NAME w = (Some false, w') →
  log w' = log w ++ [r] →
  rep_msg r = msg_could_not_read path
  ∨ rep_msg r = msg_could_not_write (temp_of MAXPGPATH path)
  ∨ rep_msg r = msg_could_not_close (temp_of MAXPGPATH path) →
  destination_of MAXPGPATH path TEMP_FILE_NAME = temp_of MAXPGPATH path
  ∧ fs w !! destination_of MAXPGPATH path TEMP_FILE_NAME = None
  ∧ is_Some (fs w' !! destination_of MAXPGPATH path TEMP_FILE_NAME).
Proof.
  intros Hrun Hlogr Hmsg.
  destruct (archive_spec MAXPGPATH path TEMP_FILE_NAME w)
    as (b0 & w0 & evs & reps & Hrun0 & _ & Hlog & _ & Hout).
  rewrite Hrun in Hrun0. injection Hrun0 as <- <-.
  rewrite Hlogr in Hlog. apply app_inv_head in Hlog as <-.
  split; [done|].
  change (temp_of MAXPGPATH path)
    with (destination_of MAXPGPATH path TEMP_FILE_NAME) in *.
  inversion Hout as
    [ | | | | | w1 ? evs' ? ? Hconf Hlong Hdest Hfs1 Hfds1 Hcopy
    | w1 w2 ? evs' cevs ? ? Hconf Hlong Hdest Hfs1 Hfds1 Hcopy Hcommit
    | ]; subst; simpl in Hmsg.
  all: try (by destruct_or! Hmsg).
  - pose proof (temp_not_source _ _ _ Hlong) as Hts.
    change (temp_of MAXPGPATH path)
      with (destination_of MAXPGPATH path TEMP_FILE_NAME) in *.
    inversion Hcopy as
      [ ? Hfs Hfds | ? ? ? Hfs | ? ? ? ? ? ? ? ? ? ? Hfs ? ? ? ? ? Hexit
      | ? ? ? ? ? ? ? ? ? ? Hfs | ? ? ? ? ? ? ? ? ? ? ? Hfs | ]; subst;
      try (inversion Hexit; subst); simpl in Hmsg;
      destruct_or! Hmsg; try discriminate;
      try (injection Hmsg as Hmsg; by destruct Hts);
      (split; [done|]); rewrite Hfs; by simplify_map_eq.
  - inversion Hcommit; subst; simpl in Hmsg; by destruct_or! Hmsg.
Qed.

(** Property X13.  A directory where the temporary file goes blocks
    archiving: the call returns false whatever the environment does, changes
    no file and no descriptor, and reports "could not stat file" for the
    destination or "could not unlink file" for the temporary name. *)
Theorem directory_at_temp_blocks_archiving path file w :
  configured w →
  path_too_long MAXPGPATH path file = false →
  fs w !! destination_of MAXPGPATH path file = None →
  fs w !! temp_of MAXPGPATH path = Some Directory →
  ∃ w' r,
    _PG_archive MAXPGPATH path file w = (Some false, w')
    ∧ fs w' = fs w
    ∧ fds w' = fds w
    ∧ log w' = log w ++ [r]
    ∧ rep_level r = WARNING
    ∧ (rep_msg r = msg_could_not_stat (destination_of MAXPGPATH path file)
       ∨ rep_msg r = msg_could_not_unlink (temp_of MAXPGPATH path)).
Proof.
  intros (d & Hd & Hnul) Hlong Hdest Htemp.
  unfold _PG_archive. unfold bind at 1, get. rewrite Hd, Hnul, Hlong.
  cbv zeta.
  set (dest := destination_of MAXPGPATH path file) in *.
  set (temp := temp_of MAXPGPATH path) in *.
  unfold bind at 1.
  destruct (stat dest w) as [[rs m] w0] eqn:Hst.
  apply stat_inv in Hst as (e & Hw0 & Hst). cbn [fst].
  destruct Hst as [(-> & -> & n & Hn & _ & _)
                  | [(-> & -> & -> & _ & _) | (-> & -> & f & -> & _)]].
  - congruence.
  - destruct (decide (-1 = 0)) as [|_]; [done|].
    unfold bind at 1, get.
    destruct (decide (errno_cell w0 ≠ ENOENT)) as [Hne|_];
      [subst w0; by wsimpl|].
    unfold bind at 1.
    destruct (unlink temp w0) as [ru w1] eqn:Hun.
    apply unlink_inv in Hun
      as [(-> & [c Hc] & Hw1) | (-> & eu & Hw1 & Heu)].
    { subst w0. wsimpl. congruence. }
    assert (eu ≠ ENOENT) as Heu'.
    { destruct Heu as [[_ Hnone] | [[-> _] | [f ->]]];
        [ subst w0; wsimpl; congruence | done
        | apply errno_of_fault_not_ENOENT ]. }
    unfold bind at 1, get.
    destruct (decide (-1 ≠ 0 ∧ errno_cell w1 ≠ ENOENT)) as [_|Hno].
    2:{ destruct Hno. split; [lia|]. subst w1. by wsimpl. }
    subst w1 w0. unfold bind, ereport_file_access, modify, ret.
    eexists _, _. split; [reflexivity|]. wsimpl.
    split_and!; try done. by right.
  - destruct (decide (-1 = 0)) as [|_]; [done|].
    unfold bind at 1, get. subst w0. wsimpl.
    destruct (decide (errno_of_fault f ≠ ENOENT)) as [_|Hno];
      [|by destruct Hno; apply errno_of_fault_not_ENOENT].
    unfold bind, ereport_file_access, modify, ret.
    eexists _, _. split; [reflexivity|]. wsimpl.
    split_and!; try done. by left.
Qed.

End WithPlatform.

Lemma copy_file_copies_witness :
  ∃ data,
    fs (before []) !! source = Some (RegularFile data)
    ∧ fs (before []) !! copy_target = None
    ∧ fs (copy []).2 = <[copy_target := RegularFile data]> (fs (before []))
    ∧ fds (copy []).2 = fds (before [])
    ∧ log (copy []).2 = log (before []).
Proof.
  apply (copy_file_copies source copy_target (before []) (copy []).2).
  apply injective_projections; vm_compute; reflexivity.
Defined.

Lemma copy_file_never_overwrites_witness :
  ∃ w' r,
    copy_file source "/tmp/arch" (before []) = (Some false, w')
    ∧ fs w' = fs (before [])
    ∧ log w' = log (before []) ++ [r]
    ∧ rep_level r = WARNING
    ∧ (rep_msg r = msg_could_not_open source
       ∨ rep_msg r = msg_could_not_open "/tmp/arch").
Proof.
  apply (copy_file_never_overwrites source "/tmp/arch" (before [])).
  exists Directory. vm_compute. reflexivity.
Defined.

Lemma copy_file_touches_only_dst_witness :
  (∀ p, p ≠ copy_target →
        fs (copy write_stops_at_three).2 !! p
        = fs (before write_stops_at_three) !! p)
  ∧ fs (copy write_stops_at_three).2 !! source
    = fs (before write_stops_at_three) !! source
  ∧ archive_directory (copy write_stops_at_three).2
    = archive_directory (before write_stops_at_three).
Proof.
  apply (copy_file_touches_only_dst source copy_target
           (before write_stops_at_three) (copy write_stops_at_three).1).
  apply surjective_pairing.
Defined.

Lemma destination_holds_a_prefix_witness :
  fs (copy write_stops_at_three).2 !! copy_target = None
  ∨ ∃ n, fs (copy write_stops_at_three).2 !! copy_target
         = Some (RegularFile (take n hello)).
Proof.
  apply (destination_holds_a_prefix source copy_target
           (before write_stops_at_three) (copy write_stops_at_three).1).
  - vm_compute. reflexivity.
  - vm_compute. reflexivity.
  - apply surjective_pairing.
Defined.

Lemma copy_file_missing_source_witness :
  ∃ e w',
    copy_file missing copy_target (before []) = (Some false, w')
    ∧ fs w' = fs (before [])
    ∧ fds w' = fds (before [])
    ∧ trace w' = trace (before []) ++ [ev (Open missing O_RDONLY) (-1) e]
    ∧ log w' = log (before []) ++ [warning_m (msg_could_not_open missing) e]
    ∧ ((∀ f, next_decision (before []) ≠ Fail f) → e = ENOENT).
Proof.
  apply (copy_file_missing_source missing copy_target (before [])).
  vm_compute. reflexivity.
Defined.

Lemma undisturbed_copy_succeeds_witness :
  ∃ w', copy_file source copy_target (before []) = (Some true, w')
        ∧ fs w' = <[copy_target := RegularFile hello]> (fs (before []))
        ∧ fds w' = fds (before [])
        ∧ log w' = log (before []).
Proof.
  apply (undisturbed_copy_succeeds source copy_target (before []) hello).
  - reflexivity.
  - vm_compute. reflexivity.
  - vm_compute. reflexivity.
Defined.

Lemma archive_touches_only_its_two_paths_witness :
  (∀ p, p ≠ destination_of maxpgpath source wal →
        p ≠ temp_of maxpgpath source →
        fs (archive read_fails).2 !! p = fs (before read_fails) !! p)
  ∧ fs (archive read_fails).2 !! source = fs (before read_fails) !! source
  ∧ archive_directory (archive read_fails).2
    = archive_directory (before read_fails).
Proof.
  apply (archive_touches_only_its_two_paths maxpgpath source wal
           (before read_fails) (archive read_fails).1).
  apply surjective_pairing.
Defined.

Lemma one_warning_per_failure_witness :
  ∃ reps,
    log (archive read_fails).2 = log (before read_fails) ++ reps
    ∧ ((archive read_fails).1 = Some true ∧ reps = []
       ∨ (archive read_fails).1 = Some false
         ∧ ∃ m oe, reps = [{| rep_level := WARNING; rep_msg := m;
                              rep_errno := oe |}]).
Proof.
  apply (one_warning_per_failure maxpgpath source wal (before read_fails)).
  apply surjective_pairing.
Defined.

Lemma checked_paths_are_not_truncated_witness :
  destination_of maxpgpath source wal = source +:+ "/" +:+ wal
  ∧ temp_of maxpgpath source = source +:+ "/" +:+ TEMP_FILE_NAME
  ∧ (String.length (destination_of maxpgpath source wal) + 1 < maxpgpath)%nat
  ∧ (String.length (temp_of maxpgpath source) + 1 < maxpgpath)%nat.
Proof.
  apply (checked_paths_are_not_truncated maxpgpath source wal).
  vm_compute. reflexivity.
Defined.

Lemma reserved_name_exposes_partial_copy_witness :
  destination_of maxpgpath source TEMP_FILE_NAME = temp_of maxpgpath source
  ∧ fs (before read_fails) !! destination_of maxpgpath source TEMP_FILE_NAME
    = None
  ∧ is_Some (fs (archive_reserved read_fails).2
               !! destination_of maxpgpath source TEMP_FILE_NAME).
Proof.
  apply (reserved_name_exposes_partial_copy maxpgpath source
           (before read_fails) (archive_reserved read_fails).2
           (warning_m (msg_could_not_read source) EIO)).
  - apply injective_projections; vm_compute; reflexivity.
  - vm_compute. reflexivity.
  - left. reflexivity.
Defined.

Lemma directory_at_temp_blocks_archiving_witness :
  ∃ w' r,
    _PG_archive maxpgpath source wal blocked = (Some false, w')
    ∧ fs w' = fs blocked
    ∧ fds w' = fds blocked
    ∧ log w' = log blocked ++ [r]
    ∧ rep_level r = WARNING
    ∧ (rep_msg r = msg_could_not_stat (destination_of maxpgpath source wal)
       ∨ rep_msg r = msg_could_not_unlink (temp_of maxpgpath source)).
Proof.
  apply (directory_at_temp_blocks_archiving maxpgpath source wal blocked).
  - exists "/tmp/arch". split; reflexivity.
  - vm_compute. reflexivity.
  - vm_compute. reflexivity.
  - vm_compute. reflexivity.
Defined.

Lemma failed_copy_leaks_the_source_descriptor_witness :
  ∃ fd, fds (before write_stops_at_three) !! fd = None
        ∧ is_Some (fds (copy write_stops_at_three).2 !! fd).
Proof.
  apply (failed_copy_leaks_the_source_descriptor source copy_target
           (before write_stops_at_three) (copy write_stops_at_three).2
           (warning_m (msg_could_not_write copy_target) ENOSPC)).
  - apply injective_projections; vm_compute; reflexivity.
  - vm_compute. reflexivity.
  - vm_compute. discriminate.
  - vm_compute. discriminate.
Defined.

Lemma transfers_stay_within_the_buffer_witness :
  ∃ evs,
    trace (copy write_stops_at_three).2
    = trace (before write_stops_at_three) ++ evs
    ∧ Forall (copy_call source copy_target) evs.
Proof.
  apply (transfers_stay_within_the_buffer source copy_target
           (before write_stops_at_three) (copy write_stops_at_three).1
           (copy write_stops_at_three).2 hello).
  - vm_compute. reflexivity.
  - vm_compute. reflexivity.
  - apply surjective_pairing.
Defined.

End ArchiveExtras.

(** ** The value of [archive_directory] *)

Module DirectoryFacts.

Import OS Sys BasicArchive Directory.
Import Scenario.

Lemma oblivious_ret {A} (a : A) : oblivious (ret a).
Proof. done. Qed.

Lemma oblivious_bind {A B} (m : M A) (k : A → M B) :
  oblivious m → (∀ a, oblivious (k a)) → oblivious (bind m k).
Proof.
  intros Hm Hk d w. unfold bind. rewrite Hm.
  destruct (m w) as [a w1]. cbn [fst snd]. apply Hk.
Qed.

Lemma oblivious_get {A} (f : world → A) :
  (∀ d w, f (with_directory d w) = f w) → oblivious (get f).
Proof. intros Hf d w. unfold get. cbn [fst snd]. by rewrite Hf. Qed.

Lemma oblivious_modify (g : world → world):
  (∀ d w, g (with_directory d w) = with_directory d (g w)) →
  oblivious (modify g).
Proof. intros Hg d w. unfold modify. cbn [fst snd]. by rewrite Hg. Qed.

Lemma oblivious_decide_next : oblivious decide_next.
Proof. intros d [fs0 fds0 e0 [|x sc] tr lg ad]; done. Qed.

Ltac oblivious_step :=
  first
    [ apply oblivious_ret
    | apply oblivious_decide_next
    | apply oblivious_get; done
    | apply oblivious_modify; done
    | apply oblivious_bind; [|intros ?]
    | progress unfold emit, set_errno, fails, allocate, descriptor, seek,
        ereport, ereport_file_access
    | match goal with
      | |- oblivious (match ?x with _ => _ end) => destruct x
      | |- oblivious (if ?x then _ else _) => destruct x
      | |- oblivious (let (_, _) := ?x in _) => destruct x
      end ].

Ltac oblivious_all := repeat oblivious_step.

Lemma oblivious_stat p : oblivious (stat p).
Proof. unfold stat. oblivious_all. Qed.

Lemma oblivious_unlink p : oblivious (unlink p).
Proof. unfold unlink. oblivious_all. Qed.

Lemma oblivious_open p fl : oblivious (OpenTransientFile p fl).
Proof. unfold OpenTransientFile. oblivious_all. Qed.

Lemma oblivious_read fd c : oblivious (read fd c).
Proof. unfold read. oblivious_all. Qed.

Lemma oblivious_write fd buf : oblivious (write fd buf).
Proof. unfold write. oblivious_all. Qed.

Lemma oblivious_close fd : oblivious (CloseTransientFile fd).
Proof. unfold CloseTransientFile. oblivious_all. Qed.

Lemma oblivious_flush c p : oblivious (flush c p).
Proof. unfold flush. oblivious_all. Qed.

Lemma oblivious_rename old new : oblivious (rename old new).
Proof. unfold rename. oblivious_all. Qed.

Ltac oblivious_call :=
  first
    [ apply oblivious_stat | apply oblivious_unlink | apply oblivious_open
    | apply oblivious_read | apply oblivious_write | apply oblivious_close
    | apply oblivious_flush | apply oblivious_rename
    | oblivious_step ].

Lemma oblivious_durable_rename old new level :
  oblivious (durable_rename old new level).
Proof. unfold durable_rename. repeat oblivious_call. Qed.

Lemma oblivious_copy_loop fuel src dst srcfd dstfd :
  oblivious (copy_loop fuel src dst srcfd dstfd).
Proof.
  induction fuel as [|fuel IH]; cbn [copy_loop]; [apply oblivious_ret|].
  repeat first [ apply IH | oblivious_call ].
Qed.

Lemma oblivious_copy_file src dst : oblivious (copy_file src dst).
Proof.
  unfold copy_file.
  repeat first [ apply oblivious_copy_loop | oblivious_call ].
Qed.

Lemma with_directory_twice d1 d2 w :
  with_directory d2 (with_directory d1 w) = with_directory d2 w.
Proof. done. Qed.

Section WithPlatform.
Variable MAXPGPATH : nat.

(** Past its first test [_PG_archive] is oblivious. *)
Lemma archive_past_the_test path file :
  ∃ rest : M (option bool),
    (∀ d w, first_is_nul d = false →
       _PG_archive MAXPGPATH path file (with_directory (Some d) w)
       = rest (with_directory (Some d) w))
    ∧ oblivious rest.
Proof.
  eexists. split.
  - intros d w Hd. unfold _PG_archive. unfold bind at 1, get.
    cbn [archive_directory with_directory]. rewrite Hd. reflexivity.
  - repeat first
      [ apply oblivious_copy_file | apply oblivious_durable_rename
      | oblivious_call ].
Qed.

(** Property X14.  [_PG_archive] tests [archive_directory] for NULL and
    for the empty string and never looks at it again: two calls that differ
    only in the non-empty value of the variable return the same result and
    leave the same files, descriptors, [errno], system calls and messages.
    The files are therefore written under [path], wherever the variable
    points. *)
Theorem directory_value_is_never_used path file d1 d2 w :
  first_is_nul d1 = false → first_is_nul d2 = false →
  _PG_archive MAXPGPATH path file (with_directory (Some d2) w)
  = ((_PG_archive MAXPGPATH path file (with_directory (Some d1) w)).1,
     with_directory (Some d2)
       (_PG_archive MAXPGPATH path file (with_directory (Some d1) w)).2).
Proof.
  intros H1 H2.
  destruct (archive_past_the_test path file) as (rest & Heq & Hobl).
  rewrite !Heq by done. rewrite !Hobl. cbn [fst snd].
  by rewrite with_directory_twice.
Qed.

End WithPlatform.

Lemma directory_value_is_never_used_witness :
  _PG_archive maxpgpath source wal
    (with_directory (Some "/nowhere") (before []))
  = ((_PG_archive maxpgpath source wal
        (with_directory (Some "/tmp/arch") (before []))).1,
     with_directory (Some "/nowhere")
       (_PG_archive maxpgpath source wal
          (with_directory (Some "/tmp/arch") (before []))).2).
Proof.
  apply (directory_value_is_never_used maxpgpath source wal
           "/tmp/arch" "/nowhere" (before [])).
  - reflexivity.
  - reflexivity.
Defined.

End DirectoryFacts.

(** ** Facts about [pg_popcount_masked_avx512] and the two loops *)

Module PopcountMaskedFacts.

Import Popcount PopcountFacts PopcountMasked.
Import Scenario.

Lemma all_pairs_spec (P : byte → byte → bool) :
  all_pairs P = true → ∀ a b, P a b = true.
Proof.
  unfold all_pairs. intros Hall a b.
  rewrite forallb_forall in Hall.
  assert (∀ c, In (N.to_nat (Byte.to_N c)) (seq 0 256)) as Hin.
  { intros c. apply in_seq. pose proof (Byte.to_N_bounded c). lia. }
  specialize (Hall _ (Hin a)). rewrite forallb_forall in Hall.
  specialize (Hall _ (Hin b)).
  by rewrite !N2Nat.id, !Byte.of_to_N in Hall.
Qed.

Lemma byte_and_land a b :
  byte_val (byte_and a b) = Z.land (byte_val a) (byte_val b).
Proof.
  apply Z.eqb_eq.
  apply (all_pairs_spec
           (λ a b, byte_val (byte_and a b) =? Z.land (byte_val a) (byte_val b))).
  vm_compute. reflexivity.
Qed.

Lemma land_lor_shiftl a m x y :
  0 ≤ a < 2 ^ 8 → 0 ≤ m < 2 ^ 8 →
  Z.land (Z.lor a (Z.shiftl x 8)) (Z.lor m (Z.shiftl y 8))
  = Z.lor (Z.land a m) (Z.shiftl (Z.land x y) 8).
Proof.
  intros Ha Hm. apply Z.bits_inj'. intros n Hn.
  rewrite Z.land_spec, !Z.lor_spec, Z.land_spec.
  destruct (Z.lt_ge_cases n 8) as [Hlo|Hhi].
  - rewrite !Z.shiftl_spec_low by done. by rewrite !orb_false_r.
  - rewrite !Z.shiftl_spec by done. rewrite Z.land_spec.
    rewrite <- (Z.mod_small a (2 ^ 8)), <- (Z.mod_small m (2 ^ 8)) by done.
    rewrite !Z.mod_pow2_bits_high by lia. done.
Qed.

Lemma mask_bytes_take m n bs :
  mask_bytes m (take n bs) = take n (mask_bytes m bs).
Proof. apply fmap_take. Qed.

Lemma mask_bytes_drop m n bs :
  mask_bytes m (drop n bs) = drop n (mask_bytes m bs).
Proof. apply fmap_drop. Qed.

Lemma length_mask_bytes m bs : length (mask_bytes m bs) = length bs.
Proof. apply length_fmap. Qed.

Lemma le_combine_masked m bs :
  le_combine (mask_bytes m bs)
  = Z.land (le_combine bs) (le_combine (replicate (length bs) m)).
Proof.
  induction bs as [|b bs IH]; [done|].
  unfold mask_bytes in *.
  cbn [length replicate fmap list_fmap le_combine foldr].
  fold (le_combine bs) (le_combine (replicate (length bs) m)).
  fold (le_combine ((λ b, byte_and b m) <$> bs)).
  rewrite land_lor_shiftl by apply byte_val_range.
  by rewrite IH, byte_and_land.
Qed.

Lemma loadu_masked m (buf : list byte) :
  (64 ≤ length buf)%nat →
  _mm512_and_si512 (_mm512_loadu_si512 buf) (_mm512_set1_epi8 m)
  = _mm512_loadu_si512 (mask_bytes m buf).
Proof.
  intros Hlen. unfold _mm512_and_si512, _mm512_loadu_si512, _mm512_set1_epi8.
  assert (∀ i, (i < 8)%nat →
            Z.land (le_combine (take 8 (drop (8 * i) buf)))
                   (le_combine (replicate 8 m))
            = le_combine (take 8 (drop (8 * i) (mask_bytes m buf))))
    as Hlane.
  { intros i Hi.
    rewrite <- mask_bytes_drop, <- mask_bytes_take, le_combine_masked.
    rewrite length_take, length_drop.
    by replace (8 `min` (length buf - 8 * i))%nat with 8%nat by lia. }
  cbn [seq fmap list_fmap replicate zip_with].
  rewrite !Hlane by lia. done.
Qed.

Lemma avx512_masked_loop_map m fuel : ∀ accum (buf : list byte) bytes,
  0 ≤ bytes ≤ INT_MAX →
  (Z.to_nat bytes ≤ length buf)%nat →
  avx512_loop fuel accum (mask_bytes m buf) bytes
  = (λ r : m512i * list byte * Z, (r.1.1, mask_bytes m r.1.2, r.2))
      <$> avx512_masked_loop fuel accum (_mm512_set1_epi8 m) buf bytes.
Proof.
  induction fuel as [|fuel IH]; intros accum buf bytes Hb Hbuf.
  - cbn [avx512_loop avx512_masked_loop].
    by destruct (decide (sizeof_m512i ≤ size_t_of_int bytes)).
  - cbn [avx512_loop avx512_masked_loop].
    destruct (decide (sizeof_m512i ≤ size_t_of_int bytes)) as [Hge|]; [|done].
    rewrite size_t_of_int_small in * by done. unfold sizeof_m512i in *.
    rewrite int_of_size_t_small by lia.
    rewrite loadu_masked by lia.
    rewrite <- mask_bytes_drop. apply IH; [lia|].
    rewrite length_drop. lia.
Qed.

Section WithFallback.

Variable pg_popcount_masked_fast : list byte → Z → byte → Z.

(** The contract of [pg_popcount_masked_fast]: the number of 1-bits in the
    first [n] bytes of the buffer after the mask was applied to each. *)
Hypothesis pg_popcount_masked_fast_counts : ∀ buf n mask,
  0 ≤ n → (Z.to_nat n ≤ length buf)%nat →
  pg_popcount_masked_fast buf n mask
  = Z.of_nat (masked_reference mask (take (Z.to_nat n) buf)).

(** Property X15.  For a buffer holding at least [bytes] bytes and
    [0 <= bytes <= INT_MAX], [pg_popcount_masked_avx512] returns the number
    of 1-bits in the first [bytes] bytes after the mask was applied to each
    byte, given that [pg_popcount_masked_fast] does so for the remainder it
    is handed: the broadcast mask and the lane-wise AND act byte by byte,
    and no lane wraps. *)
Theorem pg_popcount_masked_avx512_counts (buf : list byte) (bytes : Z)
    (mask : byte) :
  0 ≤ bytes ≤ INT_MAX →
  (Z.to_nat bytes ≤ length buf)%nat →
  pg_popcount_masked_avx512 pg_popcount_masked_fast buf bytes mask
  = Some (Z.of_nat (masked_reference mask (take (Z.to_nat bytes) buf))).
Proof.
  intros Hb Hbuf. unfold pg_popcount_masked_avx512.
  pose proof (popcount_reference_le (take (Z.to_nat bytes) (mask_bytes mask buf)))
    as Hle.
  rewrite length_take, length_mask_bytes in Hle.
  assert (8 * bytes < 2 ^ 64) as Hsmall by (unfold INT_MAX in Hb; lia).
  assert (Forall (λ x, 0 ≤ x) _mm512_setzero_si512) as Hzero
    by (cbv [_mm512_setzero_si512 replicate];
        repeat (constructor; [lia|]); constructor).
  assert (lane_sum _mm512_setzero_si512 + 8 * bytes < 2 ^ 64) as Hstart
    by (change (lane_sum _mm512_setzero_si512) with 0; lia).
  assert (Z.to_nat bytes ≤ length (mask_bytes mask buf))%nat as Hbuf'
    by (by rewrite length_mask_bytes).
  destruct (avx512_loop_spec (Z.to_nat bytes) _mm512_setzero_si512
              (mask_bytes mask buf) bytes eq_refl Hzero Hb Hbuf' (le_n _) Hstart)
    as (accum & buf' & bytes' & Hrun & Hb' & Hlen' & Hnn & Hs & Heq).
  rewrite (avx512_masked_loop_map mask) in Hrun by done.
  destruct (avx512_masked_loop (Z.to_nat bytes) _mm512_setzero_si512
              (_mm512_set1_epi8 mask) buf bytes) as [[[a1 b1] n1]|];
    [|discriminate].
  cbn [fmap option_fmap option_map fst snd] in Hrun.
  injection Hrun as -> <- ->.
  rewrite length_mask_bytes in Hlen'.
  change (lane_sum _mm512_setzero_si512) with 0 in Heq.
  rewrite pg_popcount_masked_fast_counts by (done || lia).
  pose proof (lane_sum_nonneg _ Hnn).
  rewrite reduce_add_exact by (done || lia).
  unfold masked_reference. rewrite !mask_bytes_take, Heq.
  unfold uint64. by rewrite Z.mod_small by lia.
Qed.

End WithFallback.

Lemma pg_popcount_masked_avx512_counts_witness :
  pg_popcount_masked_avx512 masked_scalar_count sample 130 x0f
  = Some (Z.of_nat (masked_reference x0f (take (Z.to_nat 130) sample))).
Proof.
  apply (pg_popcount_masked_avx512_counts masked_scalar_count).
  - intros buf n mask _ _. reflexivity.
  - unfold INT_MAX. lia.
  - vm_compute. lia.
Defined.

Lemma avx512_loop_remainder fuel : ∀ accum (buf : list byte) bytes,
  0 ≤ bytes ≤ INT_MAX →
  bytes / 64 ≤ Z.of_nat fuel →
  ∃ accum',
    avx512_loop fuel accum buf bytes
    = Some (accum', drop (Z.to_nat (bytes - bytes mod 64)) buf, bytes mod 64).
Proof.
  induction fuel as [|fuel IH]; intros accum buf bytes Hb Hfuel.
  - cbn [avx512_loop]. rewrite size_t_of_int_small by done.
    unfold sizeof_m512i.
    destruct (decide (64 ≤ bytes)) as [Hge|Hlt].
    { exfalso. Z.to_euclidean_division_equations. lia. }
    exists accum. rewrite Z.mod_small by lia.
    by rewrite Z.sub_diag.
  - cbn [avx512_loop]. rewrite size_t_of_int_small by done.
    unfold sizeof_m512i.
    destruct (decide (64 ≤ bytes)) as [Hge|Hlt].
    2:{ exists accum. rewrite Z.mod_small by lia. by rewrite Z.sub_diag. }
    rewrite int_of_size_t_small by (unfold INT_MAX in *; lia).
    assert ((bytes - 64) mod 64 = bytes mod 64) as Hmod.
    { replace (bytes - 64) with (bytes + (-1) * 64) by lia.
      by rewrite Z.mod_add. }
    destruct (IH (_mm512_add_epi64 accum
                    (_mm512_popcnt_epi64 (_mm512_loadu_si512 buf)))
                 (drop (Z.to_nat 64) buf) (bytes - 64))
      as (accum' & Hrun).
    { unfold INT_MAX in *. lia. }
    { Z.to_euclidean_division_equations. lia. }
    exists accum'. rewrite Hrun, Hmod, drop_drop.
    assert (0 ≤ bytes mod 64 < 64) as Hr by (apply Z.mod_pos_bound; lia).
    assert (bytes mod 64 ≤ bytes - 64) as Hle.
    { rewrite <- Hmod. apply Z.mod_le; lia. }
    replace (Z.to_nat 64 + Z.to_nat (bytes - 64 - bytes mod 64))%nat
      with (Z.to_nat (bytes - bytes mod 64)) by lia.
    done.
Qed.

(** Property X16.  The vector loop of [pg_popcount_avx512] consumes whole
    64-byte blocks only and always ends: for [0 <= bytes <= INT_MAX] the
    fallback is handed the buffer advanced by [bytes - bytes mod 64] and the
    count [bytes mod 64], whatever the buffer holds. *)
Theorem fallback_gets_the_remainder (buf : list byte) (bytes : Z) :
  0 ≤ bytes ≤ INT_MAX →
  ∃ popcnt, ∀ pg_popcount_fast,
    pg_popcount_avx512 pg_popcount_fast buf bytes
    = Some (uint64 (popcnt
                    + pg_popcount_fast
                        (drop (Z.to_nat (bytes - bytes mod 64)) buf)
                        (bytes mod 64))).
Proof.
  intros Hb. unfold pg_popcount_avx512.
  destruct (avx512_loop_remainder (Z.to_nat bytes) _mm512_setzero_si512
              buf bytes Hb) as (accum & Hrun).
  { Z.to_euclidean_division_equations. lia. }
  exists (_mm512_reduce_add_epi64 accum). intros fast. by rewrite Hrun.
Qed.

(** Property X17.  Fewer than 64 bytes: the loop body is never entered and
    the result is the fallback's for the whole buffer, reduced to 64
    bits. *)
Theorem short_buffer_is_delegated pg_popcount_fast (buf : list byte)
    (bytes : Z) :
  0 ≤ bytes < sizeof_m512i →
  pg_popcount_avx512 pg_popcount_fast buf bytes
  = Some (uint64 (pg_popcount_fast buf bytes)).
Proof.
  unfold sizeof_m512i. intros Hb. unfold pg_popcount_avx512.
  destruct (Z.to_nat bytes) as [|fuel]; cbn [avx512_loop];
    rewrite size_t_of_int_small by (unfold INT_MAX; lia);
    unfold sizeof_m512i;
    (destruct (decide (64 ≤ bytes)); [lia|]); done.
Qed.

Lemma byte_and_full b : byte_and b xff = b.
Proof. by destruct b. Qed.

Lemma mask_bytes_full buf : mask_bytes xff buf = buf.
Proof.
  unfold mask_bytes. induction buf as [|b buf IH]; [done|].
  cbn [fmap list_fmap]. by rewrite byte_and_full, IH.
Qed.

(** Property X18.  With the mask 0xFF the masked routine computes what the
    plain one does, provided the two fallbacks agree for that mask. *)
Theorem full_mask_is_plain_popcount pg_popcount_fast pg_popcount_masked_fast
    (buf : list byte) (bytes : Z) :
  (∀ b n, pg_popcount_masked_fast b n xff = pg_popcount_fast b n) →
  0 ≤ bytes ≤ INT_MAX →
  (Z.to_nat bytes ≤ length buf)%nat →
  pg_popcount_masked_avx512 pg_popcount_masked_fast buf bytes xff
  = pg_popcount_avx512 pg_popcount_fast buf bytes.
Proof.
  intros Hfast Hb Hbuf.
  unfold pg_popcount_masked_avx512, pg_popcount_avx512.
  pose proof (avx512_masked_loop_map xff (Z.to_nat bytes)
                _mm512_setzero_si512 buf bytes Hb Hbuf) as Hmap.
  rewrite mask_bytes_full in Hmap. rewrite Hmap.
  destruct (avx512_masked_loop (Z.to_nat bytes) _mm512_setzero_si512
              (_mm512_set1_epi8 xff) buf bytes) as [[[a1 b1] n1]|]; [|done].
  cbn [fmap option_fmap option_map fst snd].
  by rewrite mask_bytes_full, Hfast.
Qed.

Lemma fallback_gets_the_remainder_witness :
  ∃ popcnt, ∀ pg_popcount_fast,
    pg_popcount_avx512 pg_popcount_fast sample 130
    = Some (uint64 (popcnt
                    + pg_popcount_fast
                        (drop (Z.to_nat (130 - 130 mod 64)) sample)
                        (130 mod 64))).
Proof.
  apply (fallback_gets_the_remainder sample 130).
  unfold INT_MAX. lia.
Defined.

Lemma short_buffer_is_delegated_witness :
  pg_popcount_avx512 scalar_count hello 11
  = Some (uint64 (scalar_count hello 11)).
Proof.
  apply (short_buffer_is_delegated scalar_count hello 11).
  unfold sizeof_m512i. lia.
Defined.

Lemma full_mask_is_plain_popcount_witness :
  pg_popcount_masked_avx512 (λ b n _, scalar_count b n) sample 130 xff
  = pg_popcount_avx512 scalar_count sample 130.
Proof.
  apply (full_mask_is_plain_popcount scalar_count (λ b n _, scalar_count b n)).
  - intros b n. reflexivity.
  - unfold INT_MAX. lia.
  - vm_compute. lia.
Defined.

End PopcountMaskedFacts.
